(** * The static type checker of the interpreter (interp/typecheck.go)

    A shallow embedding of the checkers of [interp/typecheck.go] and the
    properties of its specification, stated over that embedding.

    Layout: the libraries the checker is written against ([reflect],
    [go/constant]), the parts of the package declared in other files (type
    descriptors, nodes, actions), the functions of [typecheck.go] in source
    order, and then the theorems. *)

From Stdlib Require Import ZArith QArith Qabs List String Bool Lia.
Import ListNotations.

Local Open Scope Z_scope.
Local Open Scope bool_scope.

Set Implicit Arguments.
Set Warnings "-register-all".

(* ================================================================== *)
(** ** [reflect]: kinds *)

(** [reflect.Kind], in declaration order.  The checker observes a
    [reflect.Type] only through [Kind()], so a backing type is represented by
    its kind. *)
Inductive Kind : Type :=
| Invalid | Bool | Int | Int8 | Int16 | Int32 | Int64
| Uint | Uint8 | Uint16 | Uint32 | Uint64 | Uintptr
| Float32 | Float64 | Complex64 | Complex128
| Array | Chan | Func | Interface | Map | Ptr | Slice | String | Struct
| UnsafePointer.

(** The numeric value of a kind: [convertUntyped] compares kinds with [<],
    and [bitlen] is indexed by them. *)
Definition Kind_ord (k : Kind) : nat :=
  match k with
  | Invalid => 0 | Bool => 1 | Int => 2 | Int8 => 3 | Int16 => 4 | Int32 => 5
  | Int64 => 6 | Uint => 7 | Uint8 => 8 | Uint16 => 9 | Uint32 => 10
  | Uint64 => 11 | Uintptr => 12 | Float32 => 13 | Float64 => 14
  | Complex64 => 15 | Complex128 => 16 | Array => 17 | Chan => 18 | Func => 19
  | Interface => 20 | Map => 21 | Ptr => 22 | Slice => 23 | String => 24
  | Struct => 25 | UnsafePointer => 26
  end%nat.

Definition Kind_eqb (a b : Kind) : bool := Nat.eqb (Kind_ord a) (Kind_ord b).
Definition Kind_ltb (a b : Kind) : bool := Nat.ltb (Kind_ord a) (Kind_ord b).

Definition rtype : Type := Kind.

(** Modelled from the spec: the concrete-type predicate set of section 2
    ("is-integer, is-float, is-numeric, is-string, is-boolean, is-complex"),
    declared outside [typecheck.go]; each classifies a backing type by its
    kind. *)
Definition isInt (t : rtype) : bool :=
  match t with
  | Int | Int8 | Int16 | Int32 | Int64
  | Uint | Uint8 | Uint16 | Uint32 | Uint64 | Uintptr => true
  | _ => false
  end.

Definition isFloat (t : rtype) : bool :=
  match t with Float32 | Float64 => true | _ => false end.

Definition isComplex (t : rtype) : bool :=
  match t with Complex64 | Complex128 => true | _ => false end.

Definition isNumber (t : rtype) : bool := isInt t || isFloat t || isComplex t.

Definition isString (t : rtype) : bool :=
  match t with String => true | _ => false end.

Definition isBoolean (t : rtype) : bool :=
  match t with Bool => true | _ => false end.

(* ================================================================== *)
(** ** [go/constant]: exact constant values *)

(** [constant.Value].  An integer is an unbounded [Z].  A float has the
    package's two representations: [FloatV q] is a [ratVal], an exact
    fraction, which the package keeps only while numerator and denominator
    have fewer than 4096 bits ([makeRat]); [BigFloatV m e] is a [floatVal],
    the [big.Float] of value [m * 2^e] (512 bits of mantissa), which holds the
    larger and the smaller values and the results of arithmetic on them.  A
    complex is a pair of exact parts. *)
Inductive Value : Type :=
| Unknown
| BoolV (b : bool)
| StringV (s : string)
| IntV (z : Z)
| FloatV (q : Q)
| BigFloatV (m e : Z)
| ComplexV (re im : Q).

Inductive CKind : Type := KUnknown | KBool | KString | KInt | KFloat | KComplex.

Definition kindOf (v : Value) : CKind :=
  match v with
  | Unknown => KUnknown | BoolV _ => KBool | StringV _ => KString
  | IntV _ => KInt | FloatV _ | BigFloatV _ _ => KFloat
  | ComplexV _ _ => KComplex
  end.

Definition Qis_zero (q : Q) : bool := Qnum q =? 0.

(** [constant.BitLen] on an integer: the number of bits of its absolute
    value, 0 for 0. *)
Definition BitLen (z : Z) : Z :=
  if z =? 0 then 0 else Z.log2 (Z.abs z) + 1.

(** The package's bound [maxExp = 4 << 10] and its test [smallInt]. *)
Definition maxExp : Z := 4096.
Definition smallInt (z : Z) : bool := BitLen z <? maxExp.

(** The exact value of the [big.Float] [m * 2^e]. *)
Definition bigQ (m e : Z) : Q :=
  if 0 <=? e then inject_Z (m * 2 ^ e) else m # Z.to_pos (2 ^ (- e)).

(** Whether [m * 2^e] is a whole number ([big.Float.Int] is exact), and the
    whole number it then is. *)
Definition bigIsInt (m e : Z) : bool :=
  (0 <=? e) || (m mod 2 ^ (- e) =? 0).
Definition bigInt (m e : Z) : Z :=
  if 0 <=? e then m * 2 ^ e else m / 2 ^ (- e).

(** [big.Float.MantExp]: the exponent [x] of [m * 2^e = mant * 2^x] with
    [0.5 <= |mant| < 1], 0 for 0; and the package's test [smallFloat]. *)
Definition mantExp (m e : Z) : Z :=
  if m =? 0 then 0 else BitLen m + e.
Definition smallFloat (m e : Z) : bool :=
  (- maxExp <? mantExp m e) && (mantExp m e <? maxExp).

(** [big.Float.Set] into a float of [p] bits of mantissa, in the rounding
    mode [big.ToZero] or [big.AwayFromZero]: the bits of the mantissa beyond
    the first [p] are dropped, and the magnitude is increased by one unit
    in the last place when rounding away from zero drops a non-zero bit. *)
Definition roundTo (p : Z) (away : bool) (m e : Z) : Z * Z :=
  let k := BitLen m - p in
  if k <=? 0 then (m, e)
  else
    let a := Z.abs m in
    let d := a / 2 ^ k in
    let r := a mod 2 ^ k in
    (Z.sgn m * (if away && negb (r =? 0) then d + 1 else d), e + k).

(** [big.Float.SetInt] into a float of [p] bits of mantissa, rounding to
    nearest, ties to even. *)
Definition roundNearestEven (p : Z) (z : Z) : Z * Z :=
  let k := BitLen z - p in
  if k <=? 0 then (z, 0)
  else
    let a := Z.abs z in
    let d := a / 2 ^ k in
    let r := a mod 2 ^ k in
    let h := 2 ^ (k - 1) in
    let up := (h <? r) || ((r =? h) && Z.odd d) in
    (Z.sgn z * (if up then d + 1 else d), k).

(** [itof]: the [floatVal] of an integer, at the package's precision
    [prec = 512]. *)
Definition itof (z : Z) : Value :=
  let (m, e) := roundNearestEven 512 z in BigFloatV m e.

(** [constant.ToFloat]: an integer becomes a fraction while [smallInt], else
    a [floatVal]. *)
Definition ToFloat (x : Value) : Value :=
  match x with
  | IntV z => if smallInt z then FloatV (inject_Z z) else itof z
  | FloatV q => FloatV q
  | BigFloatV m e => BigFloatV m e
  | ComplexV re im => if Qis_zero im then FloatV re else Unknown
  | _ => Unknown
  end.

(** [constant.ToInt] on a fraction: the numerator when the fraction is a
    whole number ([big.Rat.IsInt]).  A whole number of 4096 bits or more is
    not held as a fraction but as a [floatVal], which [smallFloat] excludes
    from the conversion: it stays unconverted. *)
Definition ratToInt (q : Q) : Value :=
  let r := Qred q in
  if (Zpos (Qden r) =? 1) && smallInt (Qnum r) then IntV (Qnum r)
  else Unknown.

(** [constant.ToInt] on a [floatVal]: only below the exponent [maxExp]; the
    value itself when it is a whole number, else the value rounded to
    [prec - 4] bits toward zero, else away from zero, when that is one. *)
Definition bigToInt (m e : Z) : Value :=
  if smallFloat m e then
    if bigIsInt m e then IntV (bigInt m e)
    else
      let (m1, e1) := roundTo 508 false m e in
      if bigIsInt m1 e1 then IntV (bigInt m1 e1)
      else
        let (m2, e2) := roundTo 508 true m e in
        if bigIsInt m2 e2 then IntV (bigInt m2 e2) else Unknown
  else Unknown.

(** [constant.ToInt]: an integer stays; a float converts when it is a whole
    number below the exponent [maxExp]; a complex converts when its
    imaginary part is zero and its real part does. *)
Definition ToInt (x : Value) : Value :=
  match x with
  | IntV z => IntV z
  | FloatV q => ratToInt q
  | BigFloatV m e => bigToInt m e
  | ComplexV re im => if Qis_zero im then ratToInt re else Unknown
  | _ => Unknown
  end.

(** [constant.ToComplex]. *)
Definition ToComplex (x : Value) : Value :=
  match x with
  | IntV z => ComplexV (inject_Z z) 0
  | FloatV q => ComplexV q 0
  | BigFloatV m e => ComplexV (bigQ m e) 0
  | ComplexV re im => ComplexV re im
  | _ => Unknown
  end.

(** Two's-complement wrap-around of an integer into [w] bits. *)
Definition wrapU (w : Z) (z : Z) : Z := z mod 2 ^ w.
Definition wrapS (w : Z) (z : Z) : Z :=
  (z + 2 ^ (w - 1)) mod 2 ^ w - 2 ^ (w - 1).

(** [constant.Int64Val] on an integer: the low 64 bits, and whether the
    value is exactly an int64. *)
Definition Int64Val (z : Z) : Z * bool :=
  (wrapS 64 z, (- 2 ^ 63 <=? z) && (z <=? 2 ^ 63 - 1)).

(** [constant.Uint64Val] on an integer: the conversion of an int64, else the
    low 64 bits of the absolute value; and whether the value is exactly a
    uint64. *)
Definition Uint64Val (z : Z) : Z * bool :=
  (if snd (Int64Val z) then wrapU 64 z else wrapU 64 (Z.abs z),
   (0 <=? z) && (z <=? 2 ^ 64 - 1)).

(** [constant.Sign]: -1, 0 or 1; 1 for an unknown value; for a complex, zero
    exactly when both parts are; no result (the package panics) on a boolean
    or a string. *)
Definition Sign (x : Value) : option Z :=
  match x with
  | Unknown => Some 1
  | IntV z => Some (Z.sgn z)
  | FloatV q => Some (Z.sgn (Qnum q))
  | BigFloatV m _ => Some (Z.sgn m)
  | ComplexV re im => Some (Z.lor (Z.sgn (Qnum re)) (Z.sgn (Qnum im)))
  | BoolV _ | StringV _ => None
  end.

(** Whether [Float64Val] (resp. [Float32Val]) of an exact rational is an
    infinity: rounding to nearest-even overflows from the midpoint between
    the largest finite value and the next power of two on. *)
Definition isInf64 (q : Q) : bool :=
  Qle_bool (inject_Z (2 ^ 1024 - 2 ^ 970)) (Qabs q).
Definition isInf32 (q : Q) : bool :=
  Qle_bool (inject_Z (2 ^ 128 - 2 ^ 103)) (Qabs q).

(** The exact value of a float constant, 0 for a value that is none
    (as [Float64Val] on an unknown value). *)
Definition floatQ (x : Value) : Q :=
  match x with
  | FloatV q => q
  | BigFloatV m e => bigQ m e
  | _ => 0%Q
  end.

(* ================================================================== *)
(** ** Representability of a constant in a backing type *)

(** The table [bitlen], an array indexed by kind: entries 0 ([Invalid]) and
    1 ([Bool]) are the zero value. *)
Definition bitlen : list Z :=
  [0; 0; 64; 8; 16; 32; 64; 64; 8; 16; 32; 64; 64].

(** [representableConst].  [x.Kind() != constant.Int] is the match on
    [IntV]; the index into [bitlen] is always in range at the point
    where it is read, see [bitlen_in_range]. *)
Definition representableConst (c : Value) (t : rtype) : bool :=
  if isInt t then
    match ToInt c with
    | IntV x =>
        let fits :=
          match t with
          | Int | Int8 | Int16 | Int32 | Int64 => snd (Int64Val x)
          | Uint | Uint8 | Uint16 | Uint32 | Uint64 | Uintptr =>
              snd (Uint64Val x)
          | _ => false
          end in
        if negb fits then false
        else
          match nth_error bitlen (Kind_ord t) with
          | Some b => BitLen x <=? b
          | None => false
          end
    | _ => false
    end
  else if isFloat t then
    let x := ToFloat c in
    match kindOf x with
    | KFloat =>
        match t with
        | Float32 => negb (isInf32 (floatQ x))
        | Float64 => negb (isInf64 (floatQ x))
        | _ => false
        end
    | _ => false
    end
  else if isComplex t then
    match ToComplex c with
    | ComplexV r i =>
        match t with
        | Complex64 => negb (isInf32 r) && negb (isInf32 i)
        | Complex128 => negb (isInf64 r) && negb (isInf64 i)
        | _ => false
        end
    | _ => false
    end
  else if isString t then
    match kindOf c with KString => true | _ => false end
  else if isBoolean t then
    match kindOf c with KBool => true | _ => false end
  else false.

(** The signed and unsigned integer kinds with their width. *)
Definition signedBits (t : rtype) : option Z :=
  match t with
  | Int8 => Some 8 | Int16 => Some 16 | Int32 => Some 32 | Int64 => Some 64
  | _ => None
  end.

Definition unsignedBits (t : rtype) : option Z :=
  match t with
  | Uint8 => Some 8 | Uint16 => Some 16 | Uint32 => Some 32 | Uint64 => Some 64
  | _ => None
  end.

(* ================================================================== *)
(** ** Type descriptors, nodes and actions (declared in other files) *)

(** Modelled from the spec: the category of a resolved type descriptor
    (section 3: "boolean, one of the signed/unsigned/float/complex numeric
    kinds, string, array, map, channel-with-direction, function, pointer,
    interface, struct, nil-type"); the enumeration [tcat] is declared outside
    [typecheck.go], which names [uintT] only. *)
Inductive tcat : Type :=
| nilT | boolT
| intT | int8T | int16T | int32T | int64T
| uintT | uint8T | uint16T | uint32T | uint64T | uintptrT
| float32T | float64T | complex64T | complex128T
| stringT | arrayT | mapT | chanT | chanSendT | chanRecvT
| funcT | ptrT | interfaceT | structT.

(** The descriptor [itype], with the fields [typecheck.go] reads or sets
    ([&itype{cat: uintT, name: "uint"}], [typ.untyped]).  Descriptors are
    never modified in place by the checkers: a node's type slot is
    re-pointed, so a descriptor is a value. *)
Record itype : Type := mkItype {
  cat : tcat;
  untyped : bool;
  name : string
}.

(** The methods and predicates on descriptors that [typecheck.go] calls and
    other files define.  They are parameters of the development: the
    checkers are embedded over any implementation of them. *)
Class TypeOps : Type := {
  TypeOf : itype -> rtype;
  id : itype -> string;
  defaultType : itype -> itype;
  isNil : itype -> bool;
  hasNil : itype -> bool;
  comparable : itype -> bool;
  ordered : itype -> bool;
  equals : itype -> itype -> bool;
  assignableTo : itype -> itype -> bool;
  methods : itype -> list string;
  isInterface : itype -> bool;
  isArray : itype -> bool;
  isMap : itype -> bool;
  isChan : itype -> bool;
  isSendChan : itype -> bool;
  isFunc : itype -> bool;
  isPtr : itype -> bool
}.

(** Modelled from the spec: the closed enumeration of operator kinds
    (section 3: "arithmetic/bitwise/logical/comparison/shift/assignment/
    address/receive operators"), declared outside [typecheck.go].  Each
    compound-assignment operator directly follows its base operator. *)
Inductive action : Type :=
| aNop | aAddr | aAssign
| aAdd | aAddAssign | aAnd | aAndAssign | aAndNot | aAndNotAssign
| aBitNot | aCall
| aEqual | aGreater | aGreaterEqual | aLand | aLor | aLower | aLowerEqual
| aMul | aMulAssign | aNeg | aNot | aNotEqual
| aOr | aOrAssign | aPos | aQuo | aQuoAssign | aRecv
| aRem | aRemAssign | aShl | aShlAssign | aShr | aShrAssign
| aSub | aSubAssign | aXor | aXorAssign.

(** Modelled from the spec: [isAssignAction], true on the compound
    assignment operators (section 4.2: "Compound assignment (+=, &=, ...)"). *)
Definition isAssignAction (a : action) : bool :=
  match a with
  | aAddAssign | aAndAssign | aAndNotAssign | aMulAssign | aOrAssign
  | aQuoAssign | aRemAssign | aShlAssign | aShrAssign | aSubAssign
  | aXorAssign => true
  | _ => false
  end.

(** Modelled from the spec: [a--] on an action, the operator declared just
    before it (section 9: "source derives a compound-assignment operator's
    base operator by numeric adjacency in the enumeration"). *)
Definition decr (a : action) : action :=
  match a with
  | aNop => aNop | aAddr => aNop | aAssign => aAddr
  | aAdd => aAssign | aAddAssign => aAdd | aAnd => aAddAssign
  | aAndAssign => aAnd | aAndNot => aAndAssign | aAndNotAssign => aAndNot
  | aBitNot => aAndNotAssign | aCall => aBitNot
  | aEqual => aCall | aGreater => aEqual | aGreaterEqual => aGreater
  | aLand => aGreaterEqual | aLor => aLand | aLower => aLor
  | aLowerEqual => aLower | aMul => aLowerEqual | aMulAssign => aMul
  | aNeg => aMulAssign | aNot => aNeg | aNotEqual => aNot
  | aOr => aNotEqual | aOrAssign => aOr | aPos => aOrAssign
  | aQuo => aPos | aQuoAssign => aQuo | aRecv => aQuoAssign
  | aRem => aRecv | aRemAssign => aRem | aShl => aRemAssign
  | aShlAssign => aShl | aShr => aShlAssign | aShrAssign => aShr
  | aSub => aShrAssign | aSubAssign => aSub | aXor => aSubAssign
  | aXorAssign => aXor
  end.

(** Modelled from the spec: the syntactic form tag of a node (section 3:
    "constant declaration, parenthesized, selector, index, composite
    literal, identifier"), declared outside [typecheck.go]. *)
Inductive nkind : Type :=
| basicLit | binaryExpr_k | callExpr | compositeLitExpr | constDecl
| identExpr | indexExpr | parenExpr | selectorExpr | starExpr | unaryExpr_k
| varDecl.

(** A value produced by [convertConst]: a native Go value of the target
    kind.  A float is described by the exact rational it is the nearest
    float to. *)
Inductive native : Type :=
| NBool (b : bool)
| NString (s : string)
| NInt (t : rtype) (z : Z)
| NFloat (t : rtype) (q : Q)
| NComplex (t : rtype) (re im : Q).

(** The constant-value slot [rval], a [reflect.Value]: the zero (invalid)
    value, a [constant.Value], or a native value. *)
Inductive rvalue : Type :=
| RInvalid
| RConst (c : Value)
| RNative (v : native).

(** An expression node, with the fields the checkers use.  [act] is the
    field [action]; [anc] is the form tag of the syntactic parent
    ([n.anc.kind]), absent when there is no parent; [typ] is a nullable
    pointer. *)
Inductive node : Type := mkNode {
  kind : nkind;
  act : action;
  anc : option nkind;
  typ : option itype;
  rval : rvalue;
  child : list node;
  nleft : nat;
  nright : nat
}.

Definition set_typ (n : node) (t : itype) : node :=
  mkNode (kind n) (act n) (anc n) (Some t) (rval n) (child n)
         (nleft n) (nright n).

Definition set_rval (n : node) (v : rvalue) : node :=
  mkNode (kind n) (act n) (anc n) (typ n) v (child n) (nleft n) (nright n).

Definition set_child (n : node) (cs : list node) : node :=
  mkNode (kind n) (act n) (anc n) (typ n) (rval n) cs (nleft n) (nright n).

(** The diagnostics of [typecheck.go], one constructor per format string of
    [cfgErrorf], carrying the formatted arguments (the source position that
    [cfgErrorf] prefixes is left out). *)
Inductive error : Type :=
| EOpNotDefined (a : action) (t : string)
    (* "invalid operation: operator %v not defined on %s" *)
| ECmpNotDefined (a : action) (t : string)
    (* the same format, called with a surplus argument "." *)
| EUnknownOp (a : action)
    (* "invalid operation: unknown operator %v" *)
| ECannotUse (s d : string)
    (* "cannot use type %s as type %s in assignment" *)
| ERequiresSingle (a : action)
    (* "assignment operation %s requires single-valued expressions" *)
| EAddressOf (t : string)
    (* "invalid operation: cannot take address of %s" *)
| ERecvNonChan (t : string)
    (* "invalid operation: cannot receive from non-channel %s" *)
| ERecvSendOnly (t : string)
    (* "invalid operation: cannot receive from send-only channel %s" *)
| EShiftOfType (t : string)
    (* "invalid operation: shift of type %v" *)
| EShiftCount (t : string)
    (* "invalid operation: shift count type %v, must be integer" *)
| EMismatched (t0 t1 : string)
    (* "invalid operation: mismatched types %s and %s" *)
| EDivByZero
    (* "invalid operation: division by zero" *)
| EConvType (s d : string)
    (* "cannot convert %s to %s", n.typ.id(), typ.id() *)
| ETruncated (c : Value) (k : Kind)
    (* "%s truncated to %s", c.ExactString(), t.Kind().String() *)
| EOverflows (c : Value) (k : Kind)
    (* "%s overflows %s", c.ExactString(), t.Kind().String() *)
| EConvConst (c : Value) (k : Kind).
    (* "cannot convert %s to %s", c.ExactString(), t.Kind().String() *)

(** The outcome of a call: [None] is a run-time panic (nil dereference,
    index out of range, failed type assertion); otherwise the returned
    [error] ([None] for [nil]) and, for the checkers that assign to node
    slots, the nodes after the call. *)
Definition ret {A : Type} (a : A) : option A := Some a.

Notation "x <- m ;; k" :=
  (match m with Some x => k | None => None end)
  (at level 61, m at next level, right associativity).

(* ================================================================== *)
(** ** The checkers of [typecheck.go] *)

Definition opPredicates : Type := action -> option (rtype -> bool).

Definition unaryOpPredicates : opPredicates := fun a =>
  match a with
  | aPos => Some isNumber
  | aNeg => Some isNumber
  | aBitNot => Some isInt
  | aNot => Some isBoolean
  | _ => None
  end.

Definition binaryOpPredicates : opPredicates := fun a =>
  match a with
  | aAdd => Some (fun t => isNumber t || isString t)
  | aSub => Some isNumber
  | aMul => Some isNumber
  | aQuo => Some isNumber
  | aRem => Some isInt
  | aAnd => Some isInt
  | aOr => Some isInt
  | aXor => Some isInt
  | aAndNot => Some isInt
  | aLand => Some isBoolean
  | aLor => Some isBoolean
  | _ => None
  end.

Definition isShiftAction (a : action) : bool :=
  match a with
  | aShl | aShr | aShlAssign | aShrAssign => true
  | _ => false
  end.

Definition isComparisonAction (a : action) : bool :=
  match a with
  | aEqual | aNotEqual | aGreater | aGreaterEqual | aLower | aLowerEqual =>
      true
  | _ => false
  end.

(** The width in bits of a native integer kind ([int], [uint] and [uintptr]
    are 64 bits wide, as in [bitlen]). *)
Definition kindBits (t : rtype) : Z :=
  match t with
  | Int8 | Uint8 => 8
  | Int16 | Uint16 => 16
  | Int32 | Uint32 => 32
  | _ => 64
  end.

(** The sentinel [errCantConvert], the only error [convertConst] returns. *)
Inductive convError : Type := errCantConvert.

(** [convertConst].  [constant.BoolVal] and [constant.StringVal] panic on a
    value of another kind that is not unknown, [constant.Real] and
    [constant.Imag] on a boolean or a string. *)
Definition convertConst (v : rvalue) (t : rtype)
  : option (rvalue * option convError) :=
  match v with
  | RInvalid => ret (v, None)
  | RNative _ => ret (v, None)
  | RConst c =>
      match t with
      | Bool =>
          match c with
          | BoolV b => ret (RNative (NBool b), None)
          | Unknown => ret (RNative (NBool false), None)
          | _ => None
          end
      | String =>
          match c with
          | StringV s => ret (RNative (NString s), None)
          | Unknown => ret (RNative (NString EmptyString), None)
          | _ => None
          end
      | Int | Int8 | Int16 | Int32 | Int64 =>
          let i := match ToInt c with IntV z => fst (Int64Val z) | _ => 0 end in
          ret (RNative (NInt t (wrapS (kindBits t) i)), None)
      | Uint | Uint8 | Uint16 | Uint32 | Uint64 | Uintptr =>
          let i := match ToInt c with IntV z => fst (Uint64Val z) | _ => 0 end in
          ret (RNative (NInt t (wrapU (kindBits t) i)), None)
      | Float32 | Float64 =>
          ret (RNative (NFloat t (floatQ (ToFloat c))), None)
      | Complex64 | Complex128 =>
          match c with
          | Unknown => ret (RNative (NComplex t 0 0), None)
          | IntV z => ret (RNative (NComplex t (inject_Z z) 0), None)
          | FloatV q => ret (RNative (NComplex t q 0), None)
          | BigFloatV m e => ret (RNative (NComplex t (bigQ m e) 0), None)
          | ComplexV re im => ret (RNative (NComplex t re im), None)
          | BoolV _ | StringV _ => None
          end
      | _ => ret (v, Some errCantConvert)
      end
  end.

Section Checkers.

Context {O : TypeOps}.

(** [op] *)
Definition op (p : opPredicates) (a : action) (n c : node) (t : rtype)
  : option (option error) :=
  match p a with
  | Some pred =>
      if negb (pred t) then
        ct <- typ c ;;
        ret (Some (EOpNotDefined (act n) (id ct)))
      else ret None
  | None => ret (Some (EUnknownOp (act n)))
  end.

(** [representable] *)
Definition representable (n : node) (t : rtype) : option (option error) :=
  match rval n with
  | RInvalid => ret None
  | RNative _ => ret None
  | RConst c =>
      if negb (representableConst c t) then
        nt <- typ n ;;
        let typ := TypeOf nt in
        if isNumber typ && isNumber t then
          if negb (isInt typ) && isInt t then ret (Some (ETruncated c t))
          else ret (Some (EOverflows c t))
        else ret (Some (EConvConst c t))
      else ret None
  end.

(** The tail of [convertUntyped], after the [switch]: the representability
    check, the conversion of the constant, and the assignment of the type. *)
Definition convertTail (n : node) (convErr : error) (ityp : itype)
    (rtyp : rtype) : option (option error * node) :=
  r <- representable n rtyp ;;
  match r with
  | Some e => ret (Some e, n)
  | None =>
      cv <- convertConst (rval n) rtyp ;;
      match cv with
      | (v, Some errCantConvert) => ret (Some convErr, set_rval n v)
      | (v, None) => ret (None, set_typ (set_rval n v) ityp)
      end
  end.

(** [convertUntyped] *)
Definition convertUntyped (n : node) (typ_ : option itype)
  : option (option error * node) :=
  match typ n, typ_ with
  | Some nt, Some ty =>
      if negb (untyped nt) then ret (None, n)
      else
        let convErr := EConvType (id nt) (id ty) in
        let ntyp := TypeOf nt in
        let ttyp := TypeOf ty in
        if untyped ty then
          if isNumber ntyp && isNumber ttyp then
            if Kind_ltb ntyp ttyp then ret (None, set_typ n ty)
            else ret (None, n)
          else if negb (Kind_eqb ntyp ttyp) then ret (Some convErr, n)
          else ret (None, n)
        else if isNil ty && isNil nt then ret (None, set_typ n ty)
        else if isNumber ttyp || isString ttyp || isBoolean ttyp then
          convertTail n convErr ty ttyp
        else if isInterface ty then
          if isNil nt then ret (None, n)
          else if (0 <? List.length (methods nt))%nat then ret (Some convErr, n)
          else convertTail n convErr (defaultType nt) ntyp
        else if isArray ty || isMap ty || isChan ty || isFunc ty || isPtr ty
        then
          if negb (isNil nt) then ret (Some convErr, n)
          else ret (None, n)
        else ret (Some convErr, n)
  | _, _ => ret (None, n)
  end.

(** [addressExpr]: the loop, on the current node [c0]. *)
Fixpoint addressWalk (c0 : node) : option (option error) :=
  let fail := (t <- typ c0 ;; ret (Some (EAddressOf (id t)))) in
  match kind c0 with
  | parenExpr =>
      match child c0 with
      | c :: _ => addressWalk c
      | [] => None
      end
  | selectorExpr =>
      match child c0 with
      | _ :: c :: _ => addressWalk c
      | _ => None
      end
  | indexExpr =>
      match child c0 with
      | c :: _ =>
          ct <- typ c ;;
          if isArray ct || isMap ct then addressWalk c else fail
      | [] => None
      end
  | compositeLitExpr | identExpr => ret None
  | _ => fail
  end.

Definition addressExpr (n : node) : option (option error) :=
  match child n with
  | c0 :: _ => addressWalk c0
  | [] => None
  end.

(** [unaryExpr] *)
Definition unaryExpr (n : node) : option (option error) :=
  match child n with
  | c0 :: _ =>
      ct <- typ c0 ;;
      let t0 := TypeOf ct in
      match act n with
      | aRecv =>
          if negb (isChan ct) then ret (Some (ERecvNonChan (id ct)))
          else if isSendChan ct then ret (Some (ERecvSendOnly (id ct)))
          else ret None
      | _ => op unaryOpPredicates (act n) n c0 t0
      end
  | [] => None
  end.

(** The descriptor [&itype{cat: uintT, name: "uint"}] of [shift]. *)
Definition uintType : itype := mkItype uintT false "uint".

(** [shift].  The result carries [n] with its two operands as the call
    leaves them. *)
Definition shift (n : node) : option (option error * node) :=
  match child n with
  | c0 :: c1 :: rest =>
      ct0 <- typ c0 ;;
      ct1 <- typ c1 ;;
      let t0 := TypeOf ct0 in
      let t1 := TypeOf ct1 in
      st <- (if untyped ct0 then
               match rval c0 with
               | RConst c =>
                   let v0 := ToInt c in
                   ret (Some v0, set_rval c0 (RConst v0))
               | _ => None
               end
             else ret (None, c0)) ;;
      let '(v0, c0') := st in
      let isIntConst :=
        match v0 with
        | Some v => match kindOf v with KInt => true | _ => false end
        | None => false
        end in
      if negb (untyped ct0 && isIntConst || isInt t0) then
        ret (Some (EShiftOfType (id ct0)), set_child n (c0' :: c1 :: rest))
      else if untyped ct1 then
        r <- convertUntyped c1 (Some uintType) ;;
        let '(e, c1') := r in
        let n' := set_child n (c0' :: c1' :: rest) in
        match e with
        | Some _ =>
            ct1' <- typ c1' ;;
            ret (Some (EShiftCount (id ct1')), n')
        | None => ret (None, n')
        end
      else if isInt t1 then ret (None, set_child n (c0' :: c1 :: rest))
      else ret (Some (EShiftCount (id ct1)), set_child n (c0' :: c1 :: rest))
  | _ => None
  end.

(** [comparison] *)
Definition comparison (n : node) : option (option error) :=
  match child n with
  | c0 :: c1 :: _ =>
      t0 <- typ c0 ;;
      t1 <- typ c1 ;;
      if negb (assignableTo t0 t1) && negb (assignableTo t1 t0) then
        ret (Some (EMismatched (id t0) (id t1)))
      else
        let ok :=
          match act n with
          | aEqual | aNotEqual =>
              comparable t0 && comparable t1 || isNil t0 && hasNil t1
              || isNil t1 && hasNil t0
          | aLower | aLowerEqual | aGreater | aGreaterEqual =>
              ordered t0 && ordered t1
          | _ => false
          end in
        if negb ok then
          let typ := if isNil t0 then t1 else t0 in
          ret (Some (ECmpNotDefined (act n) (id typ)))
        else ret None
  | _ => None
  end.

(** [binaryExpr].  The result carries [n] with its two operands as the call
    leaves them. *)
Definition binaryExpr (n : node) : option (option error * node) :=
  match child n with
  | c0 :: c1 :: rest =>
      let a := if isAssignAction (act n) then decr (act n) else act n in
      if isShiftAction a then shift n
      else
        r0 <- convertUntyped c0 (typ c1) ;;
        let c0' := snd r0 in
        r1 <- convertUntyped c1 (typ c0') ;;
        let c1' := snd r1 in
        let n' := set_child n (c0' :: c1' :: rest) in
        if isComparisonAction a then
          e <- comparison n' ;;
          ret (e, n')
        else
          ct0 <- typ c0' ;;
          ct1 <- typ c1' ;;
          if negb (equals ct0 ct1) then
            ret (Some (EMismatched (id ct0) (id ct1)), n')
          else
            let t0 := TypeOf ct0 in
            e <- op binaryOpPredicates a n' c0' t0 ;;
            match e with
            | Some err => ret (Some err, n')
            | None =>
                match act n with
                | aQuo | aRem =>
                    if (untyped ct0 || isInt t0) && untyped ct1 then
                      match rval c1' with
                      | RConst c =>
                          s <- Sign c ;;
                          if s =? 0 then ret (Some EDivByZero, n')
                          else ret (None, n')
                      | _ => None
                      end
                    else ret (None, n')
                | _ => ret (None, n')
                end
            end
  | _ => None
  end.

(** The nodes [assignExpr] is called on, as it leaves them. *)
Record assignState : Type := mkAssign {
  as_n : node;
  as_dest : node;
  as_src : node
}.

(** [assignExpr].  [dest] and [src] are passed beside [n]; the compound
    branch works on the operands of [n] only. *)
Definition assignExpr (n dest src : node)
  : option (option error * assignState) :=
  match act n with
  | aAssign =>
      ak <- anc n ;;
      let isConst := match ak with constDecl => true | _ => false end in
      dest' <- (if negb isConst then
                  dt <- typ dest ;; ret (set_typ dest (defaultType dt))
                else ret dest) ;;
      st <- typ src ;;
      r <- (if untyped st then
              dt <- typ dest' ;;
              let typ := if isNil dt || isInterface dt then defaultType st
                         else dt in
              convertUntyped src (Some typ)
            else ret (None, src)) ;;
      let '(e, src') := r in
      match e with
      | Some err => ret (Some err, mkAssign n dest' src')
      | None =>
          st' <- typ src' ;;
          dt' <- typ dest' ;;
          if negb (assignableTo st' dt') then
            ret (Some (ECannotUse (id st') (id dt')), mkAssign n dest' src')
          else ret (None, mkAssign n dest' src')
      end
  | _ =>
      if (1 <? nleft n)%nat || (1 <? nright n)%nat then
        ret (Some (ERequiresSingle (act n)), mkAssign n dest src)
      else
        r <- binaryExpr n ;;
        ret (fst r, mkAssign (snd r) dest src)
  end.

End Checkers.

(* ================================================================== *)
(** ** A reference implementation of the descriptor methods *)

Scheme Equality for tcat.

(** Modelled from the spec: the backing type of a category; the method
    [TypeOf] is defined outside [typecheck.go].  A category names its kind
    (section 3, "concrete backing type"); the array category stands for
    slices too, the nil type is backed by the empty interface. *)
Definition catKind (c : tcat) : Kind :=
  match c with
  | nilT => Interface | boolT => Bool
  | intT => Int | int8T => Int8 | int16T => Int16 | int32T => Int32
  | int64T => Int64
  | uintT => Uint | uint8T => Uint8 | uint16T => Uint16 | uint32T => Uint32
  | uint64T => Uint64 | uintptrT => Uintptr
  | float32T => Float32 | float64T => Float64
  | complex64T => Complex64 | complex128T => Complex128
  | stringT => String | arrayT => Slice | mapT => Map
  | chanT | chanSendT | chanRecvT => Chan
  | funcT => Func | ptrT => Ptr | interfaceT => Interface | structT => Struct
  end.

(** Modelled from the spec: the default type derivation of section 3
    ("untyped bool to bool, untyped rune/int to int, untyped float to float64,
    untyped complex to complex128, untyped string to string"); the method
    [defaultType] is defined outside [typecheck.go]. *)
Definition specDefaultType (t : itype) : itype :=
  if untyped t then
    match cat t with
    | intT | int32T => mkItype intT false "int"
    | c => mkItype c false (name t)
    end
  else t.

(** Modelled from the spec: the remaining descriptor methods, defined
    outside [typecheck.go].  [hasNil] and [ordered] follow sections 3 and
    4.6 ("pointer, slice/array-reference, map, channel, function,
    interface"; "numeric or string category"); a constant has an empty
    method set (section 3).  The spec only names [equals], [assignableTo]
    and [comparable]: here two descriptors are equal when category and name
    agree, a type is assignable to an equal type, to any interface, and nil
    to a type that admits it, and every category but slice, map, function
    and nil is comparable. *)
Definition specIsNumberCat (c : tcat) : bool := isNumber (catKind c).

Definition specEquals (t o : itype) : bool :=
  tcat_beq (cat t) (cat o) && String.eqb (name t) (name o).

Definition specIsNil (t : itype) : bool := tcat_beq (cat t) nilT.

Definition specHasNil (t : itype) : bool :=
  match cat t with
  | ptrT | arrayT | mapT | chanT | chanSendT | chanRecvT | funcT
  | interfaceT => true
  | _ => false
  end.

Definition specIsInterface (t : itype) : bool := tcat_beq (cat t) interfaceT.

#[global] Instance specOps : TypeOps := {|
  TypeOf := fun t => catKind (cat t);
  id := name;
  defaultType := specDefaultType;
  isNil := specIsNil;
  hasNil := specHasNil;
  comparable := fun t =>
    match cat t with
    | arrayT | mapT | funcT | nilT => false
    | _ => true
    end;
  ordered := fun t => specIsNumberCat (cat t) || tcat_beq (cat t) stringT;
  equals := specEquals;
  assignableTo := fun t o =>
    specEquals t o || specIsNil t && specHasNil o || specIsInterface o;
  methods := fun _ => [];
  isInterface := specIsInterface;
  isArray := fun t => tcat_beq (cat t) arrayT;
  isMap := fun t => tcat_beq (cat t) mapT;
  isChan := fun t =>
    match cat t with chanT | chanSendT | chanRecvT => true | _ => false end;
  isSendChan := fun t => tcat_beq (cat t) chanSendT;
  isFunc := fun t => tcat_beq (cat t) funcT;
  isPtr := fun t => tcat_beq (cat t) ptrT
|}.

(** Some descriptors and nodes to run the checkers on. *)
Definition tInt : itype := mkItype intT false "int".
Definition tInt8 : itype := mkItype int8T false "int8".
Definition tInt64 : itype := mkItype int64T false "int64".
Definition tString : itype := mkItype stringT false "string".
Definition tPtr : itype := mkItype ptrT false "*int".
Definition tIface : itype := mkItype interfaceT false "interface {}".
Definition tSlice : itype := mkItype arrayT false "[]int".
Definition untypedInt : itype := mkItype intT true "int".
Definition untypedFloat : itype := mkItype float64T true "float64".
Definition untypedNil : itype := mkItype nilT true "nil".

(** A leaf: an identifier of type [t], and a literal of untyped type [t]
    with constant [c]. *)
Definition ident (t : itype) : node :=
  mkNode identExpr aNop None (Some t) RInvalid [] 0 0.
Definition lit (t : itype) (c : Value) : node :=
  mkNode basicLit aNop None (Some t) (RConst c) [] 0 0.
Definition binary (a : action) (l r : node) : node :=
  mkNode binaryExpr_k a None None RInvalid [l; r] 0 0.

(* ================================================================== *)
(** ** The specification's side of the properties *)

(** The range of an [N]-bit signed, resp. unsigned, integer. *)
Definition inSignedRange (N L : Z) : Prop :=
  - 2 ^ (N - 1) <= L <= 2 ^ (N - 1) - 1.
Definition inUnsignedRange (N L : Z) : Prop :=
  0 <= L <= 2 ^ N - 1.

(** The wider of two kinds, in the order [convertUntyped] compares them. *)
Definition wider (a b : Kind) : Kind := if Kind_ltb a b then b else a.

(** Whether a constant is integral: [constant.ToInt] yields an integer. *)
Definition isIntegral (c : Value) : bool :=
  match kindOf (ToInt c) with KInt => true | _ => false end.

(** Whether a constant is numeric. *)
Definition isNumeric (c : Value) : bool :=
  match kindOf c with KInt | KFloat | KComplex => true | _ => false end.

Section AddressOf.

Context {O : TypeOps}.

(** An operand of [&] as section 4.3 describes it: unwrapping a
    parenthesized expression (its first child), a selector expression (its
    second child) and an index expression whose base (its first child) is an
    array or a map reaches a composite literal or an identifier. *)
Inductive Addressable : node -> Prop :=
| Addr_ident c :
    kind c = identExpr -> Addressable c
| Addr_lit c :
    kind c = compositeLitExpr -> Addressable c
| Addr_paren c c' cs :
    kind c = parenExpr -> child c = c' :: cs ->
    Addressable c' -> Addressable c
| Addr_selector c c1 c' cs :
    kind c = selectorExpr -> child c = c1 :: c' :: cs ->
    Addressable c' -> Addressable c
| Addr_index c c' cs t :
    kind c = indexExpr -> child c = c' :: cs -> typ c' = Some t ->
    isArray t || isMap t = true ->
    Addressable c' -> Addressable c.

(** The operands on which the walk dereferences no nil pointer and indexes
    no missing child: wrappers have the children the walk reads, the base of
    an index expression is typed, and the node the diagnostic names is
    typed. *)
Inductive Walkable : node -> Prop :=
| Walk_ident c :
    kind c = identExpr -> Walkable c
| Walk_lit c :
    kind c = compositeLitExpr -> Walkable c
| Walk_paren c c' cs :
    kind c = parenExpr -> child c = c' :: cs -> Walkable c' -> Walkable c
| Walk_selector c c1 c' cs :
    kind c = selectorExpr -> child c = c1 :: c' :: cs ->
    Walkable c' -> Walkable c
| Walk_index c c' cs t :
    kind c = indexExpr -> child c = c' :: cs -> typ c' = Some t ->
    isArray t || isMap t = true -> Walkable c' -> Walkable c
| Walk_index_stop c c' cs t tc :
    kind c = indexExpr -> child c = c' :: cs -> typ c' = Some t ->
    isArray t || isMap t = false -> typ c = Some tc -> Walkable c
| Walk_other c tc :
    kind c <> identExpr -> kind c <> compositeLitExpr ->
    kind c <> parenExpr -> kind c <> selectorExpr -> kind c <> indexExpr ->
    typ c = Some tc -> Walkable c.

End AddressOf.

(** Induction on a node with the hypothesis on all its children. *)
Section NodeInduction.

Variable P : node -> Prop.
Hypothesis step : forall n, Forall P (child n) -> P n.

Fixpoint node_children_ind (n : node) : P n :=
  step n
    ((fix all (l : list node) : Forall P l :=
        match l with
        | [] => Forall_nil P
        | c :: l' => Forall_cons c (node_children_ind c) (all l')
        end) (child n)).

End NodeInduction.

(** Operands for the examples. *)
Definition paren (c : node) : node :=
  mkNode parenExpr aNop None (typ c) RInvalid [c] 0 0.
Definition index (t : itype) (base i : node) : node :=
  mkNode indexExpr aNop None (Some t) RInvalid [base; i] 0 0.
Definition addrOf (c : node) : node :=
  mkNode unaryExpr_k aAddr None None RInvalid [c] 0 0.
Definition assign (ak : nkind) : node :=
  mkNode binaryExpr_k aAssign (Some ak) None RInvalid [] 1 1.

(** The signed, resp. unsigned, integer kinds. *)
Definition isSignedKind (t : rtype) : bool :=
  match t with
  | Int | Int8 | Int16 | Int32 | Int64 => true
  | _ => false
  end.

Definition isUnsignedKind (t : rtype) : bool :=
  match t with
  | Uint | Uint8 | Uint16 | Uint32 | Uint64 | Uintptr => true
  | _ => false
  end.

(** The values of a native integer kind. *)
Definition inKindRange (t : rtype) (z : Z) : Prop :=
  if isUnsignedKind t then inUnsignedRange (kindBits t) z
  else inSignedRange (kindBits t) z.

(** Two nodes that differ at most in their type and constant-value
    slots. *)
Definition sameShape (n n' : node) : Prop :=
  kind n = kind n' /\ act n = act n' /\ anc n = anc n'
  /\ child n = child n' /\ nleft n = nleft n' /\ nright n = nright n'.

(** A binary node with its two operands exchanged. *)
Definition swapOperands (n : node) : node :=
  match child n with
  | c0 :: c1 :: rest => set_child n (c1 :: c0 :: rest)
  | _ => n
  end.

(** A node with another action. *)
Definition set_act (n : node) (a : action) : node :=
  mkNode (kind n) a (anc n) (typ n) (rval n) (child n) (nleft n) (nright n).

(** Whether a call returned [nil]. *)
Definition succeeded {S : Type} (r : option (option error * S)) : bool :=
  match r with
  | Some (None, _) => true
  | _ => false
  end.

(** More operands for the examples. *)
Definition tBool : itype := mkItype boolT false "bool".
Definition tUint8 : itype := mkItype uint8T false "uint8".
Definition tFloat64 : itype := mkItype float64T false "float64".
Definition tChan : itype := mkItype chanT false "chan int".
Definition tSendChan : itype := mkItype chanSendT false "chan<- int".
Definition untypedString : itype := mkItype stringT true "string".
Definition unary (a : action) (c : node) : node :=
  mkNode unaryExpr_k a None None RInvalid [c] 0 0.

(* ================================================================== *)
(** ** Properties *)

(** *** Constants *)

Lemma BitLen_le (x b : Z) :
  0 <= b -> (BitLen x <=? b) = true <-> Z.abs x < 2 ^ b.
Proof.
  intros Hb. unfold BitLen. rewrite Z.leb_le.
  destruct (Z.eqb_spec x 0) as [->|Hx].
  - simpl. split; intros _; [apply Z.pow_pos_nonneg|]; lia.
  - assert (0 < Z.abs x) by lia.
    rewrite (Z.log2_lt_pow2 (Z.abs x) b) by assumption. lia.
Qed.

Lemma bitlen_in_range (t : rtype) :
  isInt t = true ->
  nth_error bitlen (Kind_ord t) = Some (kindBits t).
Proof. destruct t; simpl; intros H; try discriminate H; reflexivity. Qed.

(** What [representableConst] accepts on an [N]-bit signed kind: the
    integers of magnitude below [2^N] that are int64 values. *)
Lemma representableConst_signed (t : rtype) (N L : Z) :
  signedBits t = Some N ->
  representableConst (IntV L) t = true <->
  (- 2 ^ 63 <= L <= 2 ^ 63 - 1) /\ Z.abs L <= 2 ^ N - 1.
Proof.
  intros Ht.
  assert (HN : 0 <= N /\ nth_error bitlen (Kind_ord t) = Some N /\ isInt t = true
               /\ match t with
                  | Int | Int8 | Int16 | Int32 | Int64 => True | _ => False
                  end).
  { destruct t; simpl in Ht; inversion Ht; subst; simpl; repeat split; lia. }
  destruct HN as (HN & Hb & Hi & Hs).
  unfold representableConst. rewrite Hi. cbn [ToInt]. rewrite Hb.
  assert (Hf : match t with
               | Int | Int8 | Int16 | Int32 | Int64 => snd (Int64Val L)
               | Uint | Uint8 | Uint16 | Uint32 | Uint64 | Uintptr =>
                   snd (Uint64Val L)
               | _ => false
               end = snd (Int64Val L)).
  { destruct t; simpl in Hs; try contradiction; reflexivity. }
  rewrite Hf. unfold Int64Val. cbn [snd].
  destruct ((- 2 ^ 63 <=? L) && (L <=? 2 ^ 63 - 1)) eqn:E; cbn [negb].
  - apply andb_true_iff in E. rewrite !Z.leb_le in E.
    rewrite (BitLen_le L HN). lia.
  - split; [discriminate|]. intros [[H1 H2] _].
    apply Z.leb_le in H1, H2. rewrite H1, H2 in E. discriminate E.
Qed.

(** On the 64-bit signed kind this is the signed range. *)
Lemma representableConst_int64 (L : Z) :
  representableConst (IntV L) Int64 = true <-> inSignedRange 64 L.
Proof.
  rewrite (@representableConst_signed Int64 64 L eq_refl).
  unfold inSignedRange. change (64 - 1) with 63. lia.
Qed.

(** On an [N]-bit unsigned kind it is the unsigned range [0, 2^N - 1]. *)
Lemma representableConst_unsigned (t : rtype) (N L : Z) :
  unsignedBits t = Some N ->
  representableConst (IntV L) t = true <-> inUnsignedRange N L.
Proof.
  intros Ht.
  assert (HN : (N = 8 \/ N = 16 \/ N = 32 \/ N = 64)
               /\ nth_error bitlen (Kind_ord t) = Some N /\ isInt t = true
               /\ match t with
                  | Uint | Uint8 | Uint16 | Uint32 | Uint64 | Uintptr => True
                  | _ => False
                  end).
  { destruct t; simpl in Ht; inversion Ht; subst; simpl; repeat split; lia. }
  destruct HN as (HN & Hb & Hi & Hs).
  unfold representableConst. rewrite Hi. cbn [ToInt]. rewrite Hb.
  assert (Hf : match t with
               | Int | Int8 | Int16 | Int32 | Int64 => snd (Int64Val L)
               | Uint | Uint8 | Uint16 | Uint32 | Uint64 | Uintptr =>
                   snd (Uint64Val L)
               | _ => false
               end = snd (Uint64Val L)).
  { destruct t; simpl in Hs; try contradiction; reflexivity. }
  rewrite Hf. unfold Uint64Val, inUnsignedRange. cbn [snd].
  assert (H64 : 2 ^ N <= 2 ^ 64).
  { apply Z.pow_le_mono_r; lia. }
  assert (HNn : 0 <= N) by lia.
  destruct ((0 <=? L) && (L <=? 2 ^ 64 - 1)) eqn:E; cbn [negb].
  - apply andb_true_iff in E. rewrite !Z.leb_le in E.
    rewrite (BitLen_le L HNn). lia.
  - split; [discriminate|]. intros [H1 H2].
    assert (H3 : L <= 2 ^ 64 - 1) by lia.
    apply Z.leb_le in H1, H3. rewrite H1, H3 in E. discriminate E.
Qed.

(** C1 (the code departs from the claim).  The claim requires an 8-bit
    signed target to accept a literal exactly on [-128, 127], so that 200 is
    rejected; [representableConst] compares the bit length of the absolute
    value with the full width of the kind and accepts 200 for [Int8], as it
    accepts every literal of magnitude at most 255. *)
Theorem representableConst_200_int8 :
  representableConst (IntV 200) Int8 = true
  /\ ~ inSignedRange 8 200
  /\ (forall L, representableConst (IntV L) Int8 = true <-> -255 <= L <= 255).
Proof.
  split; [reflexivity|]. split.
  - unfold inSignedRange. simpl. lia.
  - intros L. rewrite (@representableConst_signed Int8 8 L eq_refl).
    change (2 ^ 8 - 1) with 255. change (2 ^ 63) with 9223372036854775808. lia.
Qed.

(** *** The coercion engine *)

Lemma ratToInt_cases (q : Q) :
  ratToInt q = Unknown \/ exists z, ratToInt q = IntV z.
Proof. unfold ratToInt. destruct (_ && _); eauto. Qed.

Lemma bigToInt_cases (m e : Z) :
  bigToInt m e = Unknown \/ exists z, bigToInt m e = IntV z.
Proof.
  unfold bigToInt. destruct (smallFloat m e); auto.
  destruct (bigIsInt m e); eauto.
  destruct (roundTo 508 false m e) as [m1 e1].
  destruct (bigIsInt m1 e1); eauto.
  destruct (roundTo 508 true m e) as [m2 e2].
  destruct (bigIsInt m2 e2); eauto.
Qed.

Lemma ToInt_cases (c : Value) :
  ToInt c = Unknown \/ exists z, ToInt c = IntV z.
Proof.
  destruct c as [| | |z|q|m e|re im]; simpl; auto.
  - right. eauto.
  - apply ratToInt_cases.
  - apply bigToInt_cases.
  - destruct (Qis_zero im); auto. apply ratToInt_cases.
Qed.

(** A constant whose sign is zero converts to the integer 0. *)
Lemma Qred_zero (q : Q) : Qnum q = 0 -> Qred q = 0%Q.
Proof.
  intros H. change 0%Q with (Qred 0). apply Qred_complete.
  unfold Qeq. simpl. rewrite H. reflexivity.
Qed.

Lemma Sign_zero_ToInt (c : Value) : Sign c = Some 0 -> ToInt c = IntV 0.
Proof.
  destruct c as [| b | s | z | q | m e | re im]; simpl; try discriminate.
  - intros [= Hz]. apply (proj1 (Z.sgn_null_iff z)) in Hz. now subst.
  - intros [= Hz]. apply (proj1 (Z.sgn_null_iff _)) in Hz.
    unfold ratToInt. rewrite (Qred_zero q Hz). reflexivity.
  - intros [= Hz]. apply (proj1 (Z.sgn_null_iff _)) in Hz. subst m.
    unfold bigToInt, smallFloat, mantExp, bigIsInt, bigInt. cbn [Z.eqb].
    change ((- maxExp <? 0) && (0 <? maxExp)) with true. cbv iota.
    rewrite Zmod_0_l. cbn [Z.eqb]. rewrite orb_true_r.
    rewrite Z.mul_0_l, Zdiv_0_l. destruct (0 <=? e); reflexivity.
  - intros [= Hz]. apply Z.lor_eq_0_iff in Hz.
    destruct Hz as [Hr Hi].
    apply (proj1 (Z.sgn_null_iff _)) in Hr.
    apply (proj1 (Z.sgn_null_iff _)) in Hi.
    unfold Qis_zero. rewrite Hi. simpl.
    unfold ratToInt. rewrite (Qred_zero re Hr). reflexivity.
Qed.

(** Zero is representable in every integer kind. *)
Lemma representableConst_zero (c : Value) (t : rtype) :
  ToInt c = IntV 0 -> isInt t = true -> representableConst c t = true.
Proof.
  intros Hc Ht. unfold representableConst. rewrite Ht, Hc.
  rewrite (bitlen_in_range t Ht).
  destruct t; simpl in Ht; try discriminate Ht; reflexivity.
Qed.

(** A constant that passed [representableConst] is converted by
    [convertConst] without a panic and without [errCantConvert]. *)
Lemma convertConst_representable (c : Value) (t : rtype) :
  representableConst c t = true ->
  exists v, convertConst (RConst c) t = Some (RNative v, None).
Proof.
  unfold representableConst, convertConst.
  destruct t; simpl; try discriminate; intros H; eauto;
    destruct c; simpl in *; try discriminate H; eauto.
Qed.

Section EngineProperties.

Context {O : TypeOps}.

(** The tail of [convertUntyped] returns, on a typed node. *)
Lemma convertTail_cases (n : node) (e : error) (ityp nt : itype) (rt : rtype) :
  typ n = Some nt ->
  (exists err, convertTail n e ityp rt = Some (Some err, n)
               /\ representable n rt = Some (Some err))
  \/ (exists v, convertTail n e ityp rt = Some (None, set_typ (set_rval n v) ityp)
                /\ representable n rt = Some None
                /\ convertConst (rval n) rt = Some (v, None)).
Proof.
  intros Ht. unfold convertTail, representable. rewrite Ht.
  destruct (rval n) as [| c | v] eqn:Hr.
  - right. exists RInvalid. auto.
  - destruct (representableConst c rt) eqn:Hc; cbn [negb].
    + right. destruct (convertConst_representable c rt Hc) as [v Hv].
      exists (RNative v). unfold ret. rewrite Hv. auto.
    + left. destruct (isNumber (TypeOf nt) && isNumber rt).
      * destruct (negb (isInt (TypeOf nt)) && isInt rt);
          eexists; split; reflexivity.
      * eexists; split; reflexivity.
  - right. exists (RNative v). auto.
Qed.

(** [convertUntyped] always returns; on an error the node keeps its type;
    on success a typed node stays typed. *)
Lemma convertUntyped_total (n : node) (ty : option itype) :
  exists e n', convertUntyped n ty = Some (e, n')
    /\ (e <> None -> typ n' = typ n)
    /\ (typ n <> None -> typ n' <> None).
Proof.
  unfold convertUntyped.
  destruct (typ n) as [nt|] eqn:Hn; [|exists None, n; rewrite Hn; auto].
  destruct ty as [ty|]; [|exists None, n; rewrite Hn; auto].
  assert (Hsame : forall e : option error, exists (e' : option error) n',
             ret (e, n) = Some (e', n') /\ (e' <> None -> typ n' = typ n)
             /\ (typ n <> None -> typ n' <> None)).
  { intros e. exists e, n. auto. }
  assert (Hset : forall t, exists (e' : option error) n',
             ret (@None error, set_typ n t) = Some (e', n')
             /\ (e' <> None -> typ n' = typ n)
             /\ (typ n <> None -> typ n' <> None)).
  { intros t. exists None, (set_typ n t). repeat split; try congruence.
    simpl. discriminate. }
  assert (Htail : forall e ityp rt, exists (e' : option error) n',
             convertTail n e ityp rt = Some (e', n')
             /\ (e' <> None -> typ n' = typ n)
             /\ (typ n <> None -> typ n' <> None)).
  { intros e ityp rt.
    destruct (convertTail_cases n e ityp rt Hn) as [(err & H & _)|(v & H & _)].
    - exists (Some err), n. auto.
    - exists None, (set_typ (set_rval n v) ityp). repeat split; try congruence.
      simpl. discriminate. }
  rewrite <- Hn.
  repeat match goal with
         | |- context [if ?b then _ else _] => destruct b
         end; auto.
Qed.

(** On an error [convertUntyped] leaves the node as it was. *)
Lemma convertUntyped_error_node (n n' : node) (ty : option itype)
    (e : error) :
  convertUntyped n ty = Some (Some e, n') -> n' = n.
Proof.
  unfold convertUntyped.
  destruct (typ n) as [nt|] eqn:Hn; [|intros [= <-]; reflexivity].
  destruct ty as [ty|]; [|intros H; discriminate H].
  assert (Htail : forall err ityp rt,
             convertTail n err ityp rt = Some (Some e, n') -> n' = n).
  { intros err ityp rt H.
    destruct (convertTail_cases n err ityp rt Hn)
      as [(x & H1 & _)|(v & H1 & _)]; rewrite H1 in H.
    - injection H as _ <-. reflexivity.
    - discriminate H. }
  repeat match goal with
         | |- context [if ?b then _ else _] => destruct b
         end; unfold ret; intros H;
    first [ discriminate H
          | injection H as _ <-; reflexivity
          | eapply Htail; exact H ].
Qed.

(** The tail of [convertUntyped], in full: a constant is checked for
    representability in the kind [k] and, when it passes, replaced by its
    native value, the node taking the type [ityp]; when it does not, the
    diagnostic of the check is returned and the node is as it was; a node
    without constant takes the type. *)
Lemma convertTail_full (n : node) (err : error) (ityp nt : itype)
    (k : rtype) :
  typ n = Some nt ->
  exists e n',
    convertTail n err ityp k = Some (e, n')
    /\ match rval n with
       | RConst c =>
           if representableConst c k then
             e = None
             /\ exists v,
                  convertConst (RConst c) k = Some (RNative v, None)
                  /\ n' = set_typ (set_rval n (RNative v)) ityp
           else
             n' = n
             /\ (e = Some (ETruncated c k) \/ e = Some (EOverflows c k)
                 \/ e = Some (EConvConst c k))
       | _ => e = None /\ n' = set_typ n ityp
       end.
Proof.
  intros Hn. unfold convertTail, representable, ret.
  destruct (rval n) as [| c | v] eqn:Hr.
  - exists None, (set_typ n ityp). split; [|split; reflexivity].
    cbn [convertConst]. unfold ret. rewrite <- Hr.
    destruct n; reflexivity.
  - destruct (representableConst c k) eqn:Hc; cbn [negb].
    + destruct (convertConst_representable c k Hc) as [v Hv].
      rewrite Hv. eexists _, _. split; [reflexivity|].
      split; [reflexivity|]. exists v. split; reflexivity.
    + rewrite Hn.
      destruct (isNumber (TypeOf nt) && isNumber k);
        [destruct (negb (isInt (TypeOf nt)) && isInt k)|];
        eexists _, _; (split; [reflexivity|]); (split; [reflexivity|]); auto.
  - exists None, (set_typ n ityp). split; [|split; reflexivity].
    cbn [convertConst]. unfold ret. rewrite <- Hr.
    destruct n; reflexivity.
Qed.

(** [convertUntyped] toward a concrete numeric, string or boolean type is
    that tail, toward the target and its kind. *)
Lemma convertUntyped_basic (n : node) (nt ty : itype) :
  typ n = Some nt -> untyped nt = true -> untyped ty = false ->
  isNil ty && isNil nt = false ->
  isNumber (TypeOf ty) || isString (TypeOf ty) || isBoolean (TypeOf ty)
  = true ->
  exists e n',
    convertUntyped n (Some ty) = Some (e, n')
    /\ match rval n with
       | RConst c =>
           if representableConst c (TypeOf ty) then
             e = None
             /\ exists v,
                  convertConst (RConst c) (TypeOf ty)
                  = Some (RNative v, None)
                  /\ n' = set_typ (set_rval n (RNative v)) ty
           else
             n' = n
             /\ (e = Some (ETruncated c (TypeOf ty))
                 \/ e = Some (EOverflows c (TypeOf ty))
                 \/ e = Some (EConvConst c (TypeOf ty)))
       | _ => e = None /\ n' = set_typ n ty
       end.
Proof.
  intros Hn Hu Ht Hnil Hk.
  unfold convertUntyped. rewrite Hn, Hu, Ht, Hnil, Hk. cbn [negb].
  exact (convertTail_full n (EConvType (id nt) (id ty)) ty (TypeOf ty) Hn).
Qed.

End EngineProperties.

(** *** Division by a constant zero *)

Section BinaryProperties.

Context {O : TypeOps}.

Lemma isInt_isNumber (t : rtype) : isInt t = true -> isNumber t = true.
Proof. intros H. unfold isNumber. rewrite H. reflexivity. Qed.

(** An untyped constant zero coerced toward a concrete integer type takes
    that type. *)
Lemma convertUntyped_zero (c1 : node) (t0 t1 : itype) (c : Value) :
  typ c1 = Some t1 -> untyped t1 = true -> rval c1 = RConst c ->
  ToInt c = IntV 0 -> untyped t0 = false -> isInt (TypeOf t0) = true ->
  exists c1', convertUntyped c1 (Some t0) = Some (None, c1')
              /\ typ c1' = Some t0.
Proof.
  intros H1 Hu1 Hr Hc Hu0 Hi.
  unfold convertUntyped. rewrite H1, Hu1, Hu0. cbn [negb].
  destruct (isNil t0 && isNil t1).
  - eexists. split; reflexivity.
  - rewrite (isInt_isNumber _ Hi). cbn [orb].
    unfold convertTail, representable. rewrite Hr.
    rewrite (representableConst_zero c (TypeOf t0) Hc Hi). cbn [negb].
    destruct (convertConst_representable c (TypeOf t0)
                (representableConst_zero c (TypeOf t0) Hc Hi)) as [v Hv].
    unfold ret. rewrite Hv. eexists. split; reflexivity.
Qed.

(** C2 (the code departs from the claim).  The claim requires the
    "division by zero" error for every [/] or [%] whose divisor is an
    untyped constant zero, also when the dividend has a concrete integer
    type.  With such a dividend [binaryExpr] first coerces the divisor to the
    dividend's type, which clears the divisor's untyped flag, so the guard
    [c1.typ.untyped] of the zero test is false: the call returns no error. *)
Theorem binaryExpr_typed_dividend_zero_divisor
    (n c0 c1 : node) (rest : list node) (t0 t1 : itype) (c : Value) :
  child n = c0 :: c1 :: rest ->
  act n = aQuo \/ act n = aRem ->
  typ c0 = Some t0 -> untyped t0 = false -> isInt (TypeOf t0) = true ->
  equals t0 t0 = true ->
  typ c1 = Some t1 -> untyped t1 = true ->
  rval c1 = RConst c -> Sign c = Some 0 ->
  exists c1', typ c1' = Some t0
              /\ binaryExpr n = Some (None, set_child n (c0 :: c1' :: rest)).
Proof.
  intros Hch Hact H0 Hu0 Hi Heq H1 Hu1 Hr Hs.
  pose proof (Sign_zero_ToInt c Hs) as Hc.
  destruct (convertUntyped_zero c1 t0 H1 Hu1 Hr Hc Hu0 Hi) as (c1' & Hconv & Ht1).
  exists c1'. split; [exact Ht1|].
  unfold binaryExpr. rewrite Hch.
  assert (Hc0 : convertUntyped c0 (typ c1) = Some (None, c0)).
  { unfold convertUntyped. rewrite H0, H1, Hu0. reflexivity. }
  assert (Hop : forall n', op binaryOpPredicates (act n) n' c0 (TypeOf t0)
                           = Some None).
  { intros n'. unfold op.
    destruct Hact as [-> | ->]; cbn [binaryOpPredicates].
    - rewrite (isInt_isNumber _ Hi). reflexivity.
    - rewrite Hi. reflexivity. }
  assert (Ha : isAssignAction (act n) = false
               /\ isShiftAction (act n) = false
               /\ isComparisonAction (act n) = false).
  { destruct Hact as [-> | ->]; auto. }
  destruct Ha as (Ha1 & Ha2 & Ha3).
  rewrite Ha1, Ha2, Hc0. cbn [snd]. rewrite H0, Hconv. cbn [snd].
  rewrite Ha3, Ht1, Heq. cbn [negb]. rewrite Hop.
  rewrite Hu0, Hi. cbn [orb andb].
  destruct Hact as [-> | ->]; reflexivity.
Qed.

(** With an untyped dividend the zero test is reached: a quotient or
    remainder of two untyped integer constants with a zero divisor is
    rejected. *)
Lemma binaryExpr_untyped_zero_divisor
    (n c0 c1 : node) (rest : list node) (t0 t1 : itype) (c : Value) :
  child n = c0 :: c1 :: rest ->
  act n = aQuo \/ act n = aRem ->
  typ c0 = Some t0 -> untyped t0 = true ->
  typ c1 = Some t1 -> untyped t1 = true ->
  TypeOf t0 = TypeOf t1 -> isInt (TypeOf t0) = true -> equals t0 t1 = true ->
  rval c1 = RConst c -> Sign c = Some 0 ->
  binaryExpr n = Some (Some EDivByZero, n).
Proof.
  intros Hch Hact H0 Hu0 H1 Hu1 Hk Hi Heq Hr Hs.
  assert (Hlt : Kind_ltb (TypeOf t1) (TypeOf t1) = false).
  { unfold Kind_ltb. apply Nat.ltb_irrefl. }
  assert (Hnum : isNumber (TypeOf t1) = true).
  { rewrite <- Hk. apply isInt_isNumber, Hi. }
  assert (Hc0 : convertUntyped c0 (typ c1) = Some (None, c0)).
  { unfold convertUntyped. rewrite H0, H1, Hu0, Hu1, Hk, Hnum, Hlt.
    reflexivity. }
  assert (Hc1 : convertUntyped c1 (typ c0) = Some (None, c1)).
  { unfold convertUntyped. rewrite H0, H1, Hu0, Hu1, Hk, Hnum, Hlt.
    reflexivity. }
  assert (Hn : set_child n (c0 :: c1 :: rest) = n).
  { destruct n; simpl in *. subst. reflexivity. }
  unfold binaryExpr. rewrite Hch.
  assert (Ha : isAssignAction (act n) = false
               /\ isShiftAction (act n) = false
               /\ isComparisonAction (act n) = false).
  { destruct Hact as [-> | ->]; auto. }
  destruct Ha as (Ha1 & Ha2 & Ha3).
  rewrite Ha1, Ha2, Hc0. cbn [snd]. rewrite Hc1. cbn [snd].
  rewrite Ha3, H0, H1, Heq, Hn. cbn [negb].
  unfold op.
  destruct Hact as [Ha | Ha]; rewrite Ha; cbn [binaryOpPredicates];
    rewrite ?Hi, ?(isInt_isNumber _ Hi); cbn [negb]; unfold ret;
    rewrite Hu0, Hu1, Hr, Hs; reflexivity.
Qed.

End BinaryProperties.

(** The expression [x / 0] with [x] of type [int]: no error, and the divisor
    has become the [int] value 0. *)
Lemma binaryExpr_typed_dividend_zero_divisor_witness :
  exists c1',
    typ c1' = Some tInt
    /\ binaryExpr (binary aQuo (ident tInt) (lit untypedInt (IntV 0)))
       = Some (None,
               set_child (binary aQuo (ident tInt) (lit untypedInt (IntV 0)))
                         [ident tInt; c1']).
Proof.
  apply (@binaryExpr_typed_dividend_zero_divisor specOps
           (binary aQuo (ident tInt) (lit untypedInt (IntV 0)))
           (ident tInt) (lit untypedInt (IntV 0)) [] tInt untypedInt (IntV 0));
    solve [reflexivity | left; reflexivity].
Defined.

(** *** Plain assignment *)

Section AssignProperties.

Context {O : TypeOps}.

(** C3.  A plain single assignment with an untyped source.  With [dt] the
    destination type (defaulted unless the assignment is in a constant
    declaration), the source is coerced to its own default type when [dt] is
    the nil type or an interface, and to [dt] otherwise.  The coercion
    always returns and leaves the source as it was when it fails; its
    error, if any, is the result.  After a successful coercion the check
    fails with "cannot use type X as type Y in assignment" when the source
    type is not assignable to [dt], and succeeds otherwise.

    What the coercion toward the target [T] does to the source, path by
    path.  A constant is converted toward a type of kind [k]: when it is
    representable in [k] it is replaced by its native value and the source
    takes the type, the result being decided by the assignability of that
    type to [dt]; when it is not, the result is the diagnostic of the
    representability check; a source without constant takes the type.
    Toward an untyped [T], a numeric source takes the numeric type [T]
    when [T] is the wider kind and is unchanged otherwise, and a source of
    the same kind as [T] is accepted unchanged.  Toward a concrete [T]: the
    nil value takes the nil type [T]; toward a numeric, string or boolean
    [T] the source is converted toward [T]; toward an interface the nil
    value is accepted unchanged and any other value without methods is
    converted toward its own default type; toward an array, map, channel,
    function or pointer type the nil value is accepted unchanged.  Every
    other case is "cannot convert", with the source as it was. *)
Theorem assignExpr_plain_untyped
    (n dest src : node) (ak : nkind) (dt0 st : itype) :
  act n = aAssign -> anc n = Some ak ->
  typ dest = Some dt0 -> typ src = Some st -> untyped st = true ->
  let dt := match ak with constDecl => dt0 | _ => defaultType dt0 end in
  let dest' := match ak with constDecl => dest | _ => set_typ dest dt end in
  let target := if isNil dt || isInterface dt then defaultType st else dt in
  let accepted (s : itype) (src' : node) :=
    assignExpr n dest src
    = Some (if assignableTo s dt then None
            else Some (ECannotUse (id s) (id dt)),
            mkAssign n dest' src') in
  exists e src',
    convertUntyped src (Some target) = Some (e, src')
    /\ match e with
       | Some err =>
           assignExpr n dest src = Some (Some err, mkAssign n dest' src')
       | None => exists st', typ src' = Some st' /\ accepted st' src'
       end
    /\ (e <> None -> src' = src)
    /\ let cannotConvert :=
         src' = src /\ e = Some (EConvType (id st) (id target)) in
       let converted (ityp : itype) (k : rtype) :=
         match rval src with
         | RConst c =>
             if representableConst c k then
               exists v,
                 convertConst (RConst c) k = Some (RNative v, None)
                 /\ src' = set_typ (set_rval src (RNative v)) ityp
                 /\ accepted ityp src'
             else
               src' = src
               /\ (e = Some (ETruncated c k) \/ e = Some (EOverflows c k)
                   \/ e = Some (EConvConst c k))
         | _ => src' = set_typ src ityp /\ accepted ityp src'
         end in
       if untyped target then
         if isNumber (TypeOf st) && isNumber (TypeOf target) then
           if Kind_ltb (TypeOf st) (TypeOf target)
           then src' = set_typ src target /\ accepted target src'
           else src' = src /\ accepted st src'
         else if Kind_eqb (TypeOf st) (TypeOf target)
         then src' = src /\ accepted st src'
         else cannotConvert
       else if isNil target && isNil st
       then src' = set_typ src target /\ accepted target src'
       else if isNumber (TypeOf target) || isString (TypeOf target)
               || isBoolean (TypeOf target)
       then converted target (TypeOf target)
       else if isInterface target then
         if isNil st then src' = src /\ accepted st src'
         else if (0 <? List.length (methods st))%nat then cannotConvert
         else converted (defaultType st) (TypeOf st)
       else if (isArray target || isMap target || isChan target
                || isFunc target || isPtr target) && isNil st
       then src' = src /\ accepted st src'
       else cannotConvert.
Proof.
  intros Hact Hanc Hd Hs Hu dt dest' target accepted.
  destruct (convertUntyped_total src (Some target)) as (e & src' & Hc & _ & Ht).
  exists e, src'. split; [exact Hc|].
  assert (Hdt : typ dest' = Some dt).
  { subst dest' dt. destruct ak; simpl; auto. }
  assert (Hpre : assignExpr n dest src =
                 match e with
                 | Some err => Some (Some err, mkAssign n dest' src')
                 | None =>
                     st' <- typ src' ;;
                     if negb (assignableTo st' dt) then
                       ret (Some (ECannotUse (id st') (id dt)),
                            mkAssign n dest' src')
                     else ret (None, mkAssign n dest' src')
                 end).
  { unfold assignExpr. rewrite Hact, Hanc.
    assert (Hd' : (if negb match ak with constDecl => true | _ => false end
                   then dt1 <- typ dest ;; ret (set_typ dest (defaultType dt1))
                   else ret dest) = Some dest').
    { subst dest' dt. rewrite Hd. destruct ak; reflexivity. }
    rewrite Hd', Hs, Hu, Hdt. fold target. rewrite Hc.
    destruct e; reflexivity. }
  assert (Hacc : forall s, e = None -> typ src' = Some s -> accepted s src').
  { intros s He Hs'. unfold accepted. rewrite Hpre, He, Hs'.
    destruct (assignableTo s dt); reflexivity. }
  split; [|split].
  - destruct e as [err|]; [exact Hpre|].
    destruct (typ src') as [st'|] eqn:Hs'.
    + exists st'. split; [reflexivity|]. apply Hacc; reflexivity.
    + exfalso. apply Ht; [rewrite Hs; discriminate | reflexivity].
  - intros He. destruct e as [err|]; [|contradiction].
    exact (convertUntyped_error_node _ _ Hc).
  - cbv zeta.
    assert (Htail : forall ityp k,
               convertTail src (EConvType (id st) (id target)) ityp k
               = Some (e, src') ->
               match rval src with
               | RConst c =>
                   if representableConst c k then
                     exists v,
                       convertConst (RConst c) k = Some (RNative v, None)
                       /\ src' = set_typ (set_rval src (RNative v)) ityp
                       /\ accepted ityp src'
                   else
                     src' = src
                     /\ (e = Some (ETruncated c k) \/ e = Some (EOverflows c k)
                         \/ e = Some (EConvConst c k))
               | _ => src' = set_typ src ityp /\ accepted ityp src'
               end).
    { intros ityp k H.
      destruct (convertTail_full src (EConvType (id st) (id target)) ityp k Hs)
        as (e1 & s1 & H1 & Hcase).
      rewrite H in H1. injection H1 as <- <-.
      destruct (rval src) as [| c | w].
      - destruct Hcase as [He Hn]. split; [exact Hn|].
        apply Hacc; [exact He | rewrite Hn; reflexivity].
      - destruct (representableConst c k); [|exact Hcase].
        destruct Hcase as (He & v & Hv & Hn). exists v.
        split; [exact Hv|]. split; [exact Hn|].
        apply Hacc; [exact He | rewrite Hn; reflexivity].
      - destruct Hcase as [He Hn]. split; [exact Hn|].
        apply Hacc; [exact He | rewrite Hn; reflexivity]. }
    assert (Hsame : Some (@None error, src) = Some (e, src') ->
                    src' = src /\ accepted st src').
    { intros [= <- <-]. split; [reflexivity|].
      apply Hacc; [reflexivity | exact Hs]. }
    assert (Hset : Some (@None error, set_typ src target) = Some (e, src') ->
                   src' = set_typ src target /\ accepted target src').
    { intros [= <- <-]. split; [reflexivity|].
      apply Hacc; reflexivity. }
    assert (Herr : Some (Some (EConvType (id st) (id target)), src)
                   = Some (e, src') ->
                   src' = src /\ e = Some (EConvType (id st) (id target))).
    { intros [= <- <-]. split; reflexivity. }
    unfold convertUntyped in Hc. rewrite Hs, Hu in Hc. cbn [negb] in Hc.
    unfold ret in Hc.
    destruct (untyped target).
    + destruct (isNumber (TypeOf st) && isNumber (TypeOf target)).
      * destruct (Kind_ltb (TypeOf st) (TypeOf target)); auto.
      * destruct (Kind_eqb (TypeOf st) (TypeOf target)); cbn [negb] in Hc;
          auto.
    + destruct (isNil target && isNil st); [exact (Hset Hc)|].
      destruct (isNumber (TypeOf target) || isString (TypeOf target)
                || isBoolean (TypeOf target)); [exact (Htail _ _ Hc)|].
      destruct (isInterface target).
      * destruct (isNil st); [exact (Hsame Hc)|].
        destruct (0 <? List.length (methods st))%nat;
          [exact (Herr Hc) | exact (Htail _ _ Hc)].
      * destruct (isArray target || isMap target || isChan target
                  || isFunc target || isPtr target); cbn [andb];
          [destruct (isNil st); cbn [negb] in Hc;
           [exact (Hsame Hc) | exact (Herr Hc)]
          | exact (Herr Hc)].
Qed.

End AssignProperties.

(** [var x int8 = 5] passes: the source becomes the [int8] value 5. *)
Lemma assignExpr_plain_untyped_witness :
  assignExpr (assign varDecl) (ident tInt8) (lit untypedInt (IntV 5))
  = Some (None,
          mkAssign (assign varDecl) (set_typ (ident tInt8) tInt8)
            (set_typ (set_rval (lit untypedInt (IntV 5))
                        (RNative (NInt Int8 5))) tInt8)).
Proof.
  destruct (@assignExpr_plain_untyped specOps (assign varDecl) (ident tInt8)
              (lit untypedInt (IntV 5)) varDecl tInt8 untypedInt
              eq_refl eq_refl eq_refl eq_refl eq_refl)
    as (e & src' & _ & _ & _ & Hcase).
  destruct Hcase as (v & Hv & Hsrc & Hacc).
  injection Hv as <-. rewrite Hsrc in Hacc. exact Hacc.
Defined.

(** *** Address-of *)

Section AddressProperties.

Context {O : TypeOps}.

Lemma addressWalk_eq (c0 : node) :
  addressWalk c0 =
  let fail := (t <- typ c0 ;; ret (Some (EAddressOf (id t)))) in
  match kind c0 with
  | parenExpr =>
      match child c0 with
      | c :: _ => addressWalk c
      | [] => None
      end
  | selectorExpr =>
      match child c0 with
      | _ :: c :: _ => addressWalk c
      | _ => None
      end
  | indexExpr =>
      match child c0 with
      | c :: _ =>
          ct <- typ c ;;
          if isArray ct || isMap ct then addressWalk c else fail
      | [] => None
      end
  | compositeLitExpr | identExpr => ret None
  | _ => fail
  end.
Proof. destruct c0; reflexivity. Qed.

Lemma addressWalk_complete (c : node) :
  Addressable c -> addressWalk c = Some None.
Proof.
  induction 1 as [c Hk | c Hk | c c' cs Hk Hc _ IH | c c1 c' cs Hk Hc _ IH
                 | c c' cs t Hk Hc Ht Hb _ IH];
    rewrite addressWalk_eq; cbv zeta; rewrite Hk; try reflexivity;
    rewrite Hc; try exact IH.
  rewrite Ht, Hb. exact IH.
Qed.

Lemma addressWalk_sound (c : node) :
  addressWalk c = Some None -> Addressable c.
Proof.
  induction c as [c IH] using node_children_ind.
  rewrite addressWalk_eq. cbv zeta.
  destruct (kind c) eqn:Hk;
    try (destruct (typ c); discriminate).
  - intros _. apply Addr_lit, Hk.
  - intros _. apply Addr_ident, Hk.
  - destruct (child c) as [|c' cs] eqn:Hc; [discriminate|].
    destruct (typ c') as [t|] eqn:Ht; [|discriminate].
    destruct (isArray t || isMap t) eqn:Hb.
    + intros H. inversion IH as [|? ? IH' _]; subst.
      eapply Addr_index; eauto.
    + destruct (typ c); discriminate.
  - destruct (child c) as [|c' cs] eqn:Hc; [discriminate|].
    intros H. inversion IH as [|? ? IH' _]; subst.
    eapply Addr_paren; eauto.
  - destruct (child c) as [|c1 [|c' cs]] eqn:Hc; try discriminate.
    intros H. inversion IH as [|? ? _ IH']; subst.
    inversion IH' as [|? ? IH'' _]; subst.
    eapply Addr_selector; eauto.
Qed.

Lemma addressWalk_error (c : node) (e : error) :
  addressWalk c = Some (Some e) -> exists s, e = EAddressOf s.
Proof.
  induction c as [c IH] using node_children_ind.
  rewrite addressWalk_eq. cbv zeta.
  assert (Hfail : (t <- typ c ;; ret (Some (EAddressOf (id t))))
                  = Some (Some e) -> exists s, e = EAddressOf s).
  { destruct (typ c); [|discriminate]. intros H. inversion H. eauto. }
  destruct (kind c) eqn:Hk; try exact Hfail; try discriminate.
  - destruct (child c) as [|c' cs] eqn:Hc; [discriminate|].
    destruct (typ c') as [t|] eqn:Ht; [|discriminate].
    destruct (isArray t || isMap t) eqn:Hb; [|exact Hfail].
    inversion IH; subst. assumption.
  - destruct (child c) as [|c' cs] eqn:Hc; [discriminate|].
    inversion IH; subst. assumption.
  - destruct (child c) as [|c1 [|c' cs]] eqn:Hc; try discriminate.
    inversion IH as [|? ? _ IH']; subst. inversion IH'; subst. assumption.
Qed.

Lemma addressWalk_total (c : node) :
  Walkable c ->
  addressWalk c = Some None
  \/ exists s, addressWalk c = Some (Some (EAddressOf s)).
Proof.
  induction 1 as [c Hk | c Hk | c c' cs Hk Hc _ IH | c c1 c' cs Hk Hc _ IH
                 | c c' cs t Hk Hc Ht Hb _ IH
                 | c c' cs t tc Hk Hc Ht Hb Htc
                 | c tc H1 H2 H3 H4 H5 Htc];
    rewrite addressWalk_eq; cbv zeta.
  - rewrite Hk. auto.
  - rewrite Hk. auto.
  - rewrite Hk, Hc. exact IH.
  - rewrite Hk, Hc. exact IH.
  - rewrite Hk, Hc, Ht, Hb. exact IH.
  - rewrite Hk, Hc, Ht, Hb, Htc. right. eauto.
  - rewrite Htc. right. destruct (kind c); try contradiction; eauto.
Qed.

(** C4.  The address-of checker succeeds exactly when unwrapping
    parenthesized expressions, selector expressions and index expressions
    whose base is an array or a map reaches a composite literal or an
    identifier; an error it returns is "cannot take address of"; and on an
    operand whose nodes carry the children and types the walk reads it
    returns one or the other. *)
Theorem addressExpr_addressable (n c0 : node) (cs : list node) :
  child n = c0 :: cs ->
  (addressExpr n = Some None <-> Addressable c0)
  /\ (forall e, addressExpr n = Some (Some e) -> exists s, e = EAddressOf s)
  /\ (Walkable c0 ->
      addressExpr n = Some None
      \/ exists s, addressExpr n = Some (Some (EAddressOf s))).
Proof.
  intros Hc. unfold addressExpr. rewrite Hc. split; [|split].
  - split; [apply addressWalk_sound | apply addressWalk_complete].
  - intros e. apply addressWalk_error.
  - apply addressWalk_total.
Qed.

End AddressProperties.

(** [&(s[i])] with [s] a slice walks to the identifier [s]. *)
Lemma addressExpr_addressable_witness :
  Addressable (paren (index tInt (ident tSlice) (ident tInt)))
  /\ Walkable (paren (index tInt (ident tSlice) (ident tInt)))
  /\ addressExpr (addrOf (paren (index tInt (ident tSlice) (ident tInt))))
     = Some None.
Proof.
  assert (Ha : Addressable (paren (index tInt (ident tSlice) (ident tInt)))).
  { eapply Addr_paren; [reflexivity | reflexivity |].
    eapply Addr_index; [reflexivity | reflexivity | reflexivity | reflexivity |].
    apply Addr_ident. reflexivity. }
  split; [exact Ha|]. split.
  - eapply Walk_paren; [reflexivity | reflexivity |].
    eapply Walk_index; [reflexivity | reflexivity | reflexivity | reflexivity |].
    apply Walk_ident. reflexivity.
  - apply (proj1 (@addressExpr_addressable specOps
             (addrOf (paren (index tInt (ident tSlice) (ident tInt))))
             (paren (index tInt (ident tSlice) (ident tInt))) [] eq_refl)).
    exact Ha.
Defined.

(** *** Comparison *)

Section ComparisonProperties.

Context {O : TypeOps}.

(** C5.  A comparison of operands of types [t0] and [t1].  When neither
    type is assignable to the other the result is "mismatched types".
    Otherwise [==] and [!=] succeed exactly when both types are comparable,
    or one operand is nil and the other type admits nil; the ordering
    operators succeed exactly when both types are ordered; and a failure is
    the "operator not defined" diagnostic on the type of the left operand,
    or of the right one when the left is nil, which is the type of a non-nil
    operand whenever there is one. *)
Theorem comparison_legal
    (n c0 c1 : node) (cs : list node) (t0 t1 : itype) :
  child n = c0 :: c1 :: cs -> typ c0 = Some t0 -> typ c1 = Some t1 ->
  isComparisonAction (act n) = true ->
  (assignableTo t0 t1 = false -> assignableTo t1 t0 = false ->
   comparison n = Some (Some (EMismatched (id t0) (id t1))))
  /\ (assignableTo t0 t1 = true \/ assignableTo t1 t0 = true ->
      (act n = aEqual \/ act n = aNotEqual ->
       (comparison n = Some None <->
        (comparable t0 = true /\ comparable t1 = true)
        \/ (isNil t0 = true /\ hasNil t1 = true)
        \/ (isNil t1 = true /\ hasNil t0 = true)))
      /\ (act n = aLower \/ act n = aLowerEqual \/ act n = aGreater
          \/ act n = aGreaterEqual ->
          (comparison n = Some None <->
           ordered t0 = true /\ ordered t1 = true))
      /\ (comparison n = Some None
          \/ exists t,
               comparison n = Some (Some (ECmpNotDefined (act n) (id t)))
               /\ t = (if isNil t0 then t1 else t0)
               /\ (isNil t0 = false \/ isNil t1 = false -> isNil t = false))).
Proof.
  intros Hc H0 H1 Ha. unfold comparison. rewrite Hc, H0, H1. split.
  - intros -> ->. reflexivity.
  - intros Hasg.
    assert (Hm : negb (assignableTo t0 t1) && negb (assignableTo t1 t0)
                 = false).
    { destruct Hasg as [-> | ->]; [reflexivity | apply andb_false_r]. }
    rewrite Hm. split; [|split].
    + intros Heq.
      assert (Hok : forall (A : Type) (x y z : A),
                 match act n with
                 | aEqual | aNotEqual => x
                 | aLower | aLowerEqual | aGreater | aGreaterEqual => y
                 | _ => z
                 end = x).
      { intros A x y z. destruct Heq as [-> | ->]; reflexivity. }
      rewrite Hok.
      destruct (comparable t0), (comparable t1), (isNil t0), (hasNil t1),
        (isNil t1), (hasNil t0); cbn;
        (split; [intros H; try discriminate H; tauto
                |intros H; try reflexivity;
                 destruct H as [[? ?]|[[? ?]|[? ?]]]; discriminate]).
    + intros Hord.
      assert (Hok : forall (A : Type) (x y z : A),
                 match act n with
                 | aEqual | aNotEqual => x
                 | aLower | aLowerEqual | aGreater | aGreaterEqual => y
                 | _ => z
                 end = y).
      { intros A x y z. destruct Hord as [-> | [-> | [-> | ->]]]; reflexivity. }
      rewrite Hok.
      destruct (ordered t0), (ordered t1); cbn;
        (split; [intros H; try discriminate H; tauto
                |intros [? ?]; try reflexivity; discriminate]).
    + match goal with
      | |- context [if negb ?b then _ else _] => destruct b
      end; cbn [negb]; [left; reflexivity|].
      right. exists (if isNil t0 then t1 else t0).
      split; [reflexivity|]. split; [reflexivity|].
      destruct (isNil t0) eqn:E; intros [H|H]; try discriminate H; auto.
Qed.

End ComparisonProperties.

(** [nil == p] with [p] a pointer: the types are assignable one way and the
    pointer type admits nil. *)
Lemma comparison_legal_witness :
  comparison (binary aEqual (ident untypedNil) (ident tPtr)) = Some None.
Proof.
  destruct (@comparison_legal specOps
              (binary aEqual (ident untypedNil) (ident tPtr))
              (ident untypedNil) (ident tPtr) [] untypedNil tPtr
              eq_refl eq_refl eq_refl eq_refl) as [_ H].
  destruct (H (or_introl eq_refl)) as [Heq _].
  apply (proj2 (Heq (or_introl eq_refl))).
  right. left. split; reflexivity.
Defined.

(** *** Coercion between untyped numeric kinds *)

Section WidenProperties.

Context {O : TypeOps}.

Lemma Kind_ltb_wider (a b : Kind) : Kind_ltb (wider a b) b = false.
Proof.
  unfold wider. destruct (Kind_ltb a b) eqn:E; [|exact E].
  unfold Kind_ltb. apply Nat.ltb_irrefl.
Qed.

Lemma wider_max (a b : Kind) :
  Kind_ord (wider a b) = Nat.max (Kind_ord a) (Kind_ord b).
Proof.
  unfold wider, Kind_ltb.
  destruct (Nat.ltb_spec (Kind_ord a) (Kind_ord b)); lia.
Qed.

(** C6.  Coercing an untyped numeric node of kind [A] toward an untyped
    numeric type of kind [B] succeeds and leaves the node with the wider of
    the two kinds, so never with a kind narrower than [A]; coercing the
    result toward the same type again changes nothing. *)
Theorem convertUntyped_untyped_numeric (n : node) (nt ty : itype) :
  typ n = Some nt -> untyped nt = true -> untyped ty = true ->
  isNumber (TypeOf nt) = true -> isNumber (TypeOf ty) = true ->
  exists n1 t1,
    convertUntyped n (Some ty) = Some (None, n1)
    /\ typ n1 = Some t1
    /\ TypeOf t1 = wider (TypeOf nt) (TypeOf ty)
    /\ (Kind_ord (TypeOf nt) <= Kind_ord (TypeOf t1))%nat
    /\ (Kind_ord (TypeOf ty) <= Kind_ord (TypeOf t1))%nat
    /\ rval n1 = rval n
    /\ convertUntyped n1 (Some ty) = Some (None, n1).
Proof.
  intros Hn Hun Hut Hnn Hnt.
  assert (Hstep : forall m mt,
             typ m = Some mt -> untyped mt = true ->
             isNumber (TypeOf mt) = true ->
             convertUntyped m (Some ty)
             = Some (None, if Kind_ltb (TypeOf mt) (TypeOf ty)
                           then set_typ m ty else m)).
  { intros m mt Hm Hum Hnm. unfold convertUntyped.
    rewrite Hm, Hum, Hut, Hnm, Hnt. cbn [negb andb].
    destruct (Kind_ltb (TypeOf mt) (TypeOf ty)); reflexivity. }
  pose (t1 := if Kind_ltb (TypeOf nt) (TypeOf ty) then ty else nt).
  pose (n1 := if Kind_ltb (TypeOf nt) (TypeOf ty) then set_typ n ty else n).
  assert (Ht1 : typ n1 = Some t1).
  { subst n1 t1. destruct (Kind_ltb (TypeOf nt) (TypeOf ty)); auto. }
  assert (Hk : TypeOf t1 = wider (TypeOf nt) (TypeOf ty)).
  { subst t1. unfold wider.
    destruct (Kind_ltb (TypeOf nt) (TypeOf ty)); reflexivity. }
  assert (Hu1 : untyped t1 = true).
  { subst t1. destruct (Kind_ltb (TypeOf nt) (TypeOf ty)); assumption. }
  assert (Hn1 : isNumber (TypeOf t1) = true).
  { subst t1. destruct (Kind_ltb (TypeOf nt) (TypeOf ty)); assumption. }
  exists n1, t1. split; [apply (Hstep n nt Hn Hun Hnn)|].
  split; [exact Ht1|]. split; [exact Hk|].
  split; [rewrite Hk, wider_max; lia|].
  split; [rewrite Hk, wider_max; lia|].
  split.
  - subst n1. destruct (Kind_ltb (TypeOf nt) (TypeOf ty)); reflexivity.
  - rewrite (Hstep n1 t1 Ht1 Hu1 Hn1), Hk, Kind_ltb_wider. reflexivity.
Qed.

End WidenProperties.

(** An untyped integer constant coerced toward untyped float becomes an
    untyped float, and stays one. *)
Lemma convertUntyped_untyped_numeric_witness :
  exists n1 t1,
    convertUntyped (lit untypedInt (IntV 1)) (Some untypedFloat)
    = Some (None, n1)
    /\ typ n1 = Some t1
    /\ TypeOf t1 = wider (TypeOf untypedInt) (TypeOf untypedFloat)
    /\ (Kind_ord (TypeOf untypedInt) <= Kind_ord (TypeOf t1))%nat
    /\ (Kind_ord (TypeOf untypedFloat) <= Kind_ord (TypeOf t1))%nat
    /\ rval n1 = rval (lit untypedInt (IntV 1))
    /\ convertUntyped n1 (Some untypedFloat) = Some (None, n1).
Proof.
  apply (@convertUntyped_untyped_numeric specOps (lit untypedInt (IntV 1))
           untypedInt untypedFloat); reflexivity.
Defined.

(** *** Shift *)

Section ShiftProperties.

Context {O : TypeOps}.

Lemma isIntegral_false (v : Value) : isIntegral v = false -> ToInt v = Unknown.
Proof.
  unfold isIntegral. destruct (ToInt_cases v) as [-> | [z ->]];
    [reflexivity | discriminate].
Qed.

(** [shift] on typed operands, the left one holding a constant when it is
    untyped. *)
Lemma shift_eq (n c0 c1 : node) (rest : list node) (ct0 ct1 : itype)
    (v : Value) :
  child n = c0 :: c1 :: rest -> typ c0 = Some ct0 -> typ c1 = Some ct1 ->
  (untyped ct0 = true -> rval c0 = RConst v) ->
  let c0' := if untyped ct0 then set_rval c0 (RConst (ToInt v)) else c0 in
  shift n =
  if negb (untyped ct0 && isIntegral v || isInt (TypeOf ct0)) then
    Some (Some (EShiftOfType (id ct0)), set_child n (c0' :: c1 :: rest))
  else if untyped ct1 then
    r <- convertUntyped c1 (Some uintType) ;;
    Some (match fst r with
          | Some _ => Some (EShiftCount (id ct1))
          | None => None
          end, set_child n (c0' :: snd r :: rest))
  else
    Some (if isInt (TypeOf ct1) then None else Some (EShiftCount (id ct1)),
          set_child n (c0' :: c1 :: rest)).
Proof.
  intros Hc H0 H1 Hv c0'. subst c0'. unfold shift. rewrite Hc, H0, H1.
  assert (Hst :
    (if untyped ct0
     then match rval c0 with
          | RConst c => ret (Some (ToInt c), set_rval c0 (RConst (ToInt c)))
          | _ => None
          end
     else ret (None, c0))
    = Some (if untyped ct0 then Some (ToInt v) else None,
            if untyped ct0 then set_rval c0 (RConst (ToInt v)) else c0)).
  { destruct (untyped ct0); [rewrite (Hv eq_refl)|]; reflexivity. }
  rewrite Hst. clear Hst.
  assert (Hk : (untyped ct0 &&
                match (if untyped ct0 then Some (ToInt v) else None) with
                | Some v1 => match kindOf v1 with KInt => true | _ => false end
                | None => false
                end) = untyped ct0 && isIntegral v).
  { destruct (untyped ct0); reflexivity. }
  rewrite Hk. clear Hk.
  destruct (negb (untyped ct0 && isIntegral v || isInt (TypeOf ct0)));
    [reflexivity|].
  destruct (untyped ct1).
  - destruct (convertUntyped_total c1 (Some uintType))
      as (e & c1' & Hconv & Herr & _).
    rewrite Hconv. cbn [fst snd]. destruct e as [err|]; [|reflexivity].
    rewrite Herr by discriminate. rewrite H1. reflexivity.
  - destruct (isInt (TypeOf ct1)); reflexivity.
Qed.

(** [shift] panics on an untyped left operand that holds no constant: the
    slot is asserted to hold a [constant.Value]. *)
Lemma shift_no_constant (n c0 c1 : node) (rest : list node)
    (ct0 ct1 : itype) :
  child n = c0 :: c1 :: rest -> typ c0 = Some ct0 -> typ c1 = Some ct1 ->
  untyped ct0 = true -> (forall v, rval c0 <> RConst v) -> shift n = None.
Proof.
  intros Hc H0 H1 Hu Hr. unfold shift. rewrite Hc, H0, H1, Hu.
  destruct (rval c0) as [| v | w]; [reflexivity | | reflexivity].
  exfalso. exact (Hr v eq_refl).
Qed.

(** C7, as the code has it.  An untyped left operand must hold a constant:
    without one the checker panics.  Left operand: when it is untyped its
    constant is replaced by its conversion to an integer constant, and the
    check fails with "shift of type" exactly when that conversion is not an
    integer and the operand's type is not backed by an integer kind either;
    when it is typed, exactly when its type is not an integer type.  Right
    operand, once the left one passed: untyped, it is coerced toward [uint]
    and a failure of the coercion is the "shift count type" error, the
    operand being left as it was; [uint] being the concrete unsigned type,
    the coercion accepts a constant exactly when it is representable as a
    [uint], the operand then holding the native value with the type [uint],
    and it accepts an operand without constant; of a concrete integer type,
    the right operand is accepted; of any other type, the same error. *)
Theorem shift_operands (n c0 c1 : node) (rest : list node)
    (ct0 ct1 : itype) :
  child n = c0 :: c1 :: rest -> typ c0 = Some ct0 -> typ c1 = Some ct1 ->
  (untyped ct0 = true -> (forall v, rval c0 <> RConst v) -> shift n = None)
  /\ forall v : Value,
       (untyped ct0 = true -> rval c0 = RConst v) ->
       let c0' :=
         if untyped ct0 then set_rval c0 (RConst (ToInt v)) else c0 in
       let leftOk := untyped ct0 && isIntegral v || isInt (TypeOf ct0) in
       (leftOk = false ->
        shift n = Some (Some (EShiftOfType (id ct0)),
                        set_child n (c0' :: c1 :: rest)))
       /\ (leftOk = true ->
           (untyped ct1 = true ->
            exists e c1',
              convertUntyped c1 (Some uintType) = Some (e, c1')
              /\ shift n = Some (match e with
                                 | Some _ => Some (EShiftCount (id ct1))
                                 | None => None
                                 end, set_child n (c0' :: c1' :: rest))
              /\ (e <> None -> c1' = c1)
              /\ (TypeOf uintType = Uint ->
                  isNil uintType && isNil ct1 = false ->
                  match rval c1 with
                  | RConst c =>
                      if representableConst c Uint then
                        e = None
                        /\ exists w,
                             convertConst (RConst c) Uint
                             = Some (RNative w, None)
                             /\ c1' = set_typ (set_rval c1 (RNative w))
                                        uintType
                      else e <> None
                  | _ => e = None /\ c1' = set_typ c1 uintType
                  end))
           /\ (untyped ct1 = false ->
               shift n = Some (if isInt (TypeOf ct1) then None
                               else Some (EShiftCount (id ct1)),
                               set_child n (c0' :: c1 :: rest)))).
Proof.
  intros Hc H0 H1. split.
  { intros Hu Hr. exact (shift_no_constant n Hc H0 H1 Hu Hr). }
  intros v Hv c0' leftOk.
  pose proof (shift_eq n Hc H0 H1 Hv) as Heq. cbv zeta in Heq.
  fold c0' in Heq. fold leftOk in Heq. split.
  - intros Hl. rewrite Heq, Hl. reflexivity.
  - intros Hl. rewrite Hl in Heq. cbn [negb] in Heq. split.
    + intros Hu. rewrite Hu in Heq.
      destruct (convertUntyped_total c1 (Some uintType))
        as (e & c1' & Hconv & _).
      exists e, c1'. split; [exact Hconv|].
      split; [rewrite Heq, Hconv; reflexivity|]. split.
      * intros He. destruct e as [err|]; [|contradiction].
        exact (convertUntyped_error_node _ _ Hconv).
      * intros Hk Hnil.
        assert (Hb : isNumber (TypeOf uintType) || isString (TypeOf uintType)
                     || isBoolean (TypeOf uintType) = true)
          by (rewrite Hk; reflexivity).
        destruct (convertUntyped_basic c1 uintType H1 Hu eq_refl Hnil Hb)
          as (e1 & s1 & Hc1 & Hcase).
        rewrite Hconv in Hc1. injection Hc1 as <- <-.
        rewrite Hk in Hcase.
        destruct (rval c1) as [| c | w]; [exact Hcase | | exact Hcase].
        destruct (representableConst c Uint); [exact Hcase|].
        destruct Hcase as [_ [He | [He | He]]]; rewrite He; discriminate.
    + intros Hu. rewrite Hu in Heq. exact Heq.
Qed.

(** C10, as the code has it.  With an untyped left operand that holds a
    constant, [shift] stores the integer conversion of the constant in the
    operand before it checks it: whatever the result, the left operand
    holds the converted constant afterwards; when the result is the "shift
    of type" error that constant is the unknown value, and the slot differs
    from what it was unless it held the unknown value already.  With an
    untyped left operand that holds no constant nothing is stored: the
    checker panics. *)
Theorem shift_overwrites_left (n c0 c1 : node) (rest : list node)
    (ct0 ct1 : itype) :
  child n = c0 :: c1 :: rest -> typ c0 = Some ct0 -> typ c1 = Some ct1 ->
  untyped ct0 = true ->
  match rval c0 with
  | RConst v =>
      exists e n' c1',
        shift n = Some (e, n')
        /\ child n' = set_rval c0 (RConst (ToInt v)) :: c1' :: rest
        /\ (forall s, e = Some (EShiftOfType s) ->
            ToInt v = Unknown
            /\ c1' = c1
            /\ (v <> Unknown ->
                rval (set_rval c0 (RConst (ToInt v))) <> rval c0))
  | _ => shift n = None
  end.
Proof.
  intros Hc H0 H1 Hu.
  destruct (rval c0) as [| v | w] eqn:Hr;
    [apply (shift_no_constant n Hc H0 H1 Hu); rewrite Hr; discriminate
    | | apply (shift_no_constant n Hc H0 H1 Hu); rewrite Hr; discriminate].
  pose proof (shift_eq n Hc H0 H1 (fun _ => Hr)) as Heq. cbv zeta in Heq.
  rewrite Hu in Heq. cbn [andb] in Heq.
  destruct (isIntegral v || isInt (TypeOf ct0)) eqn:Hl; cbn [negb] in Heq.
  - destruct (untyped ct1).
    + destruct (convertUntyped_total c1 (Some uintType))
        as (e & c1' & Hconv & _).
      rewrite Hconv in Heq. cbn [fst snd] in Heq.
      eexists _, _, c1'. split; [exact Heq|]. split; [reflexivity|].
      intros s Hs. destruct e; discriminate Hs.
    + eexists _, _, c1. split; [exact Heq|]. split; [reflexivity|].
      intros s Hs. destruct (isInt (TypeOf ct1)); discriminate Hs.
  - apply orb_false_iff in Hl. destruct Hl as [Hi _].
    eexists _, _, c1. split; [exact Heq|]. split; [reflexivity|].
    intros s _. split; [apply isIntegral_false, Hi|]. split; [reflexivity|].
    intros Hne. simpl. rewrite (isIntegral_false v Hi). congruence.
Qed.

End ShiftProperties.

(** [1 << 3] with both operands untyped: the left constant stays the
    integer 1 and the count becomes the [uint] value 3. *)
Lemma shift_operands_witness :
  shift (binary aShl (lit untypedInt (IntV 1)) (lit untypedInt (IntV 3)))
  = Some (None,
          set_child
            (binary aShl (lit untypedInt (IntV 1)) (lit untypedInt (IntV 3)))
            [lit untypedInt (IntV 1);
             set_typ (set_rval (lit untypedInt (IntV 3))
                        (RNative (NInt Uint 3))) uintType]).
Proof.
  destruct (proj2 (@shift_operands specOps
              (binary aShl (lit untypedInt (IntV 1)) (lit untypedInt (IntV 3)))
              (lit untypedInt (IntV 1)) (lit untypedInt (IntV 3)) []
              untypedInt untypedInt eq_refl eq_refl eq_refl)
             (IntV 1) (fun _ => eq_refl)) as [_ Hok].
  destruct (proj1 (Hok eq_refl) eq_refl) as (e & c1' & _ & Hs & _ & Hcase).
  destruct (Hcase eq_refl eq_refl) as (He & w & Hw & Hc1).
  injection Hw as <-. rewrite He, Hc1 in Hs. exact Hs.
Defined.

(** Against C7 as the claim states it: a left operand of untyped integer
    type holding the constant 3/2 is untyped and its value is not an
    integer, yet [shift] returns no error, because the operand's type is
    backed by an integer kind. *)
Lemma shift_untyped_non_integer_accepted :
  untyped untypedInt = true
  /\ isIntegral (FloatV (3 # 2)) = false
  /\ shift (binary aShl (lit untypedInt (FloatV (3 # 2))) (ident tInt))
     = Some (None, binary aShl (lit untypedInt Unknown) (ident tInt)).
Proof. repeat split. Qed.

(** [1.5 << x]: the "shift of type" error, and the left operand now holds
    the unknown value instead of 3/2. *)
Lemma shift_overwrites_left_witness :
  shift (binary aShl (lit untypedFloat (FloatV (3 # 2))) (ident tInt))
  = Some (Some (EShiftOfType "float64"),
          binary aShl (lit untypedFloat Unknown) (ident tInt))
  /\ exists e n' c1',
       shift (binary aShl (lit untypedFloat (FloatV (3 # 2))) (ident tInt))
       = Some (e, n')
       /\ child n'
          = set_rval (lit untypedFloat (FloatV (3 # 2)))
              (RConst (ToInt (FloatV (3 # 2)))) :: c1' :: []
       /\ (forall s, e = Some (EShiftOfType s) ->
           ToInt (FloatV (3 # 2)) = Unknown
           /\ c1' = ident tInt
           /\ (FloatV (3 # 2) <> Unknown ->
               rval (set_rval (lit untypedFloat (FloatV (3 # 2)))
                       (RConst (ToInt (FloatV (3 # 2)))))
               <> rval (lit untypedFloat (FloatV (3 # 2))))).
Proof.
  split; [reflexivity|].
  exact (@shift_overwrites_left specOps
           (binary aShl (lit untypedFloat (FloatV (3 # 2))) (ident tInt))
           (lit untypedFloat (FloatV (3 # 2))) (ident tInt) []
           untypedFloat tInt eq_refl eq_refl eq_refl eq_refl).
Defined.

(** Against C10 as the claim states it: in [nil << x] the left operand is
    untyped and holds no constant; [shift] stores nothing and returns
    nothing, it panics. *)
Lemma shift_untyped_without_constant :
  untyped untypedNil = true
  /\ rval (ident untypedNil) = RInvalid
  /\ shift (binary aShl (ident untypedNil) (ident tInt)) = None.
Proof. repeat split. Qed.

(** A float constant of binary exponent 4096 or more is not converted to
    an integer: [0x1p5000 << x] is a "shift of type" error, whichever way
    the constant is held. *)
Example shift_large_float :
  shift (binary aShl (lit untypedFloat (BigFloatV 1 5000)) (ident tInt))
  = Some (Some (EShiftOfType "float64"),
          binary aShl (lit untypedFloat Unknown) (ident tInt))
  /\ shift (binary aShl (lit untypedFloat (FloatV (inject_Z (2 ^ 5000))))
              (ident tInt))
     = Some (Some (EShiftOfType "float64"),
             binary aShl (lit untypedFloat Unknown) (ident tInt))
  /\ ToInt (FloatV (inject_Z (2 ^ 4094))) = IntV (2 ^ 4094)
  /\ ToInt (FloatV (inject_Z (2 ^ 4095))) = Unknown
  /\ ToInt (BigFloatV 1 4094) = IntV (2 ^ 4094)
  /\ ToInt (BigFloatV 1 4095) = Unknown.
Proof. repeat split; vm_compute; reflexivity. Qed.

(** A [floatVal] within four bits of rounding of a whole number converts
    to it: [3 + 2^-510] converts to 3, [3 + 2^-500] does not convert. *)
Example ToInt_near_integer :
  ToInt (BigFloatV (3 * 2 ^ 510 + 1) (-510)) = IntV 3
  /\ ToInt (BigFloatV (3 * 2 ^ 500 + 1) (-500)) = Unknown
  /\ ToInt (BigFloatV (4 * 2 ^ 509 - 1) (-509)) = IntV 4.
Proof. repeat split; vm_compute; reflexivity. Qed.

(** *** Diagnostics of the representability check *)

Section RepresentableProperties.

Context {O : TypeOps}.

(** C8, as the code has it.  For a constant that fails
    [representableConst], the diagnostic is chosen from the node's type and
    the target, not from the value: "truncated" exactly when the node's type
    is numeric but not an integer kind and the target is an integer kind,
    "overflows" for every other pair of numeric kinds, and "cannot convert"
    when either is not numeric. *)
Theorem representable_diagnostic (n : node) (nt : itype) (c : Value)
    (t : rtype) :
  typ n = Some nt -> rval n = RConst c -> representableConst c t = false ->
  (representable n t = Some (Some (ETruncated c t)) <->
   isNumber (TypeOf nt) = true /\ isInt (TypeOf nt) = false
   /\ isInt t = true)
  /\ (representable n t = Some (Some (EOverflows c t)) <->
      isNumber (TypeOf nt) = true /\ isNumber t = true
      /\ (isInt (TypeOf nt) = true \/ isInt t = false))
  /\ (representable n t = Some (Some (EConvConst c t)) <->
      isNumber (TypeOf nt) = false \/ isNumber t = false).
Proof.
  intros Hn Hr Hc. unfold representable. rewrite Hr, Hc, Hn. cbn [negb].
  assert (Hit : isInt t = true -> isNumber t = true)
    by apply isInt_isNumber.
  destruct (isNumber (TypeOf nt)), (isNumber t), (isInt (TypeOf nt)),
    (isInt t); cbn; unfold ret;
    try (specialize (Hit eq_refl); discriminate Hit);
    intuition congruence.
Qed.

End RepresentableProperties.

(** [3.5] for an [int] target: "truncated". *)
Lemma representable_diagnostic_witness :
  representable (lit untypedFloat (FloatV (7 # 2))) Int
  = Some (Some (ETruncated (FloatV (7 # 2)) Int)).
Proof.
  apply (proj1 (@representable_diagnostic specOps
           (lit untypedFloat (FloatV (7 # 2))) untypedFloat
           (FloatV (7 # 2)) Int eq_refl eq_refl eq_refl)).
  repeat split.
Defined.

(** Against C8 as the claim states it: the untyped float constant 1e19 is a
    whole number, too large for [int64]; the diagnostic is "truncated", not
    "overflows". *)
Lemma representable_truncated_integral :
  isNumeric (FloatV (inject_Z (10 ^ 19))) = true
  /\ isIntegral (FloatV (inject_Z (10 ^ 19))) = true
  /\ representableConst (FloatV (inject_Z (10 ^ 19))) Int64 = false
  /\ representable (lit untypedFloat (FloatV (inject_Z (10 ^ 19)))) Int64
     = Some (Some (ETruncated (FloatV (inject_Z (10 ^ 19))) Int64)).
Proof. repeat split. Qed.

(** *** The node after a successful coercion *)

Section CoercionProperties.

Context {O : TypeOps}.

(** C9, as the code has it.  After a successful coercion of an untyped
    node toward a concrete type, either the node is the untyped nil and the
    target an interface, array, map, channel, function or pointer type, and
    the node is left as it was, still untyped; or the node's type has the
    untyped flag cleared: it is the target with the payload untouched when
    both are nil, the target with the payload converted in place by
    [convertConst] when the target is numeric, string or boolean, and the
    node's own default type with the payload converted to the node's backing
    type when the target is an interface.  The payload is never dropped. *)
Theorem convertUntyped_success (n n' : node) (nt ty : itype) :
  typ n = Some nt -> untyped nt = true -> untyped ty = false ->
  untyped (defaultType nt) = false ->
  convertUntyped n (Some ty) = Some (None, n') ->
  (isNil nt = true /\ isNil ty = false
   /\ isNumber (TypeOf ty) || isString (TypeOf ty) || isBoolean (TypeOf ty)
      = false
   /\ isInterface ty || (isArray ty || isMap ty || isChan ty || isFunc ty
                         || isPtr ty) = true
   /\ n' = n)
  \/ (exists t',
        typ n' = Some t' /\ untyped t' = false
        /\ ((isNil ty = true /\ isNil nt = true /\ n' = set_typ n ty)
            \/ (isNumber (TypeOf ty) || isString (TypeOf ty)
                || isBoolean (TypeOf ty) = true
                /\ exists v,
                     convertConst (rval n) (TypeOf ty) = Some (v, None)
                     /\ n' = set_typ (set_rval n v) ty)
            \/ (isInterface ty = true /\ isNil nt = false
                /\ exists v,
                     convertConst (rval n) (TypeOf nt) = Some (v, None)
                     /\ n' = set_typ (set_rval n v) (defaultType nt)))).
Proof.
  intros Hn Hu Ht Hd. unfold convertUntyped. rewrite Hn, Hu, Ht. cbn [negb].
  assert (Htail : forall ityp rt,
             convertTail n (EConvType (id nt) (id ty)) ityp rt
             = Some (None, n') ->
             exists v, convertConst (rval n) rt = Some (v, None)
                       /\ n' = set_typ (set_rval n v) ityp).
  { intros ityp rt H.
    destruct (convertTail_cases n (EConvType (id nt) (id ty)) ityp rt Hn)
      as [(err & H' & _) | (v & H' & _ & Hv)];
      rewrite H' in H; inversion H; subst. eauto. }
  destruct (isNil ty) eqn:Hnt; destruct (isNil nt) eqn:Hnn; cbn [andb].
  - intros H. inversion H; subst. right. exists ty.
    split; [reflexivity|]. split; [exact Ht|]. left. auto.
  - destruct (isNumber (TypeOf ty) || isString (TypeOf ty)
              || isBoolean (TypeOf ty)) eqn:Hk.
    + intros H. destruct (Htail _ _ H) as (v & Hv & ->).
      right. exists ty. split; [reflexivity|]. split; [exact Ht|].
      right. left. split; [reflexivity|]. eauto.
    + destruct (isInterface ty) eqn:Hi.
      * destruct (0 <? List.length (methods nt))%nat; [discriminate|].
        intros H. destruct (Htail _ _ H) as (v & Hv & ->).
        right. exists (defaultType nt). split; [reflexivity|].
        split; [exact Hd|]. right. right. repeat (split; [reflexivity|]).
        eauto.
      * destruct (isArray ty || isMap ty || isChan ty || isFunc ty
                  || isPtr ty); discriminate.
  - destruct (isNumber (TypeOf ty) || isString (TypeOf ty)
              || isBoolean (TypeOf ty)) eqn:Hk.
    + intros H. destruct (Htail _ _ H) as (v & Hv & ->).
      right. exists ty. split; [reflexivity|]. split; [exact Ht|].
      right. left. split; [reflexivity|]. eauto.
    + destruct (isInterface ty) eqn:Hi.
      * intros H. inversion H; subst. left. repeat (split; [reflexivity|]).
        reflexivity.
      * destruct (isArray ty || isMap ty || isChan ty || isFunc ty
                  || isPtr ty) eqn:Ha; [|discriminate].
        intros H. inversion H; subst. left.
        repeat (split; [reflexivity|]). reflexivity.
  - destruct (isNumber (TypeOf ty) || isString (TypeOf ty)
              || isBoolean (TypeOf ty)) eqn:Hk.
    + intros H. destruct (Htail _ _ H) as (v & Hv & ->).
      right. exists ty. split; [reflexivity|]. split; [exact Ht|].
      right. left. split; [reflexivity|]. eauto.
    + destruct (isInterface ty) eqn:Hi.
      * destruct (0 <? List.length (methods nt))%nat; [discriminate|].
        intros H. destruct (Htail _ _ H) as (v & Hv & ->).
        right. exists (defaultType nt). split; [reflexivity|].
        split; [exact Hd|]. right. right. repeat (split; [reflexivity|]).
        eauto.
      * destruct (isArray ty || isMap ty || isChan ty || isFunc ty
                  || isPtr ty); discriminate.
Qed.

End CoercionProperties.

(** The untyped constant 5 coerced to [int8] becomes the [int8] value 5. *)
Lemma convertUntyped_success_witness :
  convertUntyped (lit untypedInt (IntV 5)) (Some tInt8)
  = Some (None, mkNode basicLit aNop None (Some tInt8)
                  (RNative (NInt Int8 5)) [] 0 0)
  /\ exists t',
       typ (mkNode basicLit aNop None (Some tInt8)
              (RNative (NInt Int8 5)) [] 0 0) = Some t'
       /\ untyped t' = false
       /\ exists v,
            convertConst (rval (lit untypedInt (IntV 5))) (TypeOf tInt8)
            = Some (v, None)
            /\ mkNode basicLit aNop None (Some tInt8)
                 (RNative (NInt Int8 5)) [] 0 0
               = set_typ (set_rval (lit untypedInt (IntV 5)) v) tInt8.
Proof.
  split; [reflexivity|].
  destruct (@convertUntyped_success specOps (lit untypedInt (IntV 5))
              (mkNode basicLit aNop None (Some tInt8)
                 (RNative (NInt Int8 5)) [] 0 0)
              untypedInt tInt8 eq_refl eq_refl eq_refl eq_refl eq_refl)
    as [(H & _) | (t' & H1 & H2 & [(H & _) | [(_ & H) | (H & _)]])];
    try discriminate H.
  exists t'. auto.
Defined.

(** Against C9 as the claim states it: coercing the untyped nil toward a
    pointer type succeeds and leaves the node as it was, its type still
    untyped. *)
Lemma convertUntyped_nil_stays_untyped :
  untyped tPtr = false
  /\ convertUntyped (ident untypedNil) (Some tPtr)
     = Some (None, ident untypedNil)
  /\ typ (ident untypedNil) = Some untypedNil
  /\ untyped untypedNil = true.
Proof. repeat split. Qed.

(** *** The scenarios of the specification, run on the reference
    implementation *)

(** [var x int8 = 200]: no diagnostic; the constant is accepted by
    [representableConst] and wraps to -56. *)
Example assign_200_int8 :
  assignExpr (assign varDecl) (ident tInt8) (lit untypedInt (IntV 200))
  = Some (None,
          mkAssign (assign varDecl) (ident tInt8)
            (set_typ (set_rval (lit untypedInt (IntV 200))
                        (RNative (NInt Int8 (-56)))) tInt8)).
Proof. reflexivity. Qed.

(** [var x int8 = 256]: "256 overflows int8". *)
Example assign_256_int8 :
  assignExpr (assign varDecl) (ident tInt8) (lit untypedInt (IntV 256))
  = Some (Some (EOverflows (IntV 256) Int8),
          mkAssign (assign varDecl) (ident tInt8) (lit untypedInt (IntV 256))).
Proof. reflexivity. Qed.

(** [var x int = 3.5]: "7/2 truncated to int". *)
Example assign_float_int :
  assignExpr (assign varDecl) (ident tInt) (lit untypedFloat (FloatV (7 # 2)))
  = Some (Some (ETruncated (FloatV (7 # 2)) Int),
          mkAssign (assign varDecl) (ident tInt)
            (lit untypedFloat (FloatV (7 # 2)))).
Proof. reflexivity. Qed.

(** [var x int64 = 1e19]: "10000000000000000000 truncated to int64". *)
Example assign_1e19_int64 :
  assignExpr (assign varDecl) (ident tInt64)
    (lit untypedFloat (FloatV (inject_Z (10 ^ 19))))
  = Some (Some (ETruncated (FloatV (inject_Z (10 ^ 19))) Int64),
          mkAssign (assign varDecl) (ident tInt64)
            (lit untypedFloat (FloatV (inject_Z (10 ^ 19))))).
Proof. reflexivity. Qed.

(** [var i interface{} = 5]: the source becomes the [int] value 5. *)
Example assign_const_interface :
  assignExpr (assign varDecl) (ident tIface) (lit untypedInt (IntV 5))
  = Some (None,
          mkAssign (assign varDecl) (ident tIface)
            (set_typ (set_rval (lit untypedInt (IntV 5))
                        (RNative (NInt Int 5))) tInt)).
Proof. reflexivity. Qed.

(** [var p *int = nil]: accepted, the source still the untyped nil. *)
Example assign_nil_pointer :
  assignExpr (assign varDecl) (ident tPtr) (ident untypedNil)
  = Some (None, mkAssign (assign varDecl) (ident tPtr) (ident untypedNil)).
Proof. reflexivity. Qed.

(** [1 / 0] with both operands untyped: "division by zero". *)
Example quo_untyped_zero :
  binaryExpr (binary aQuo (lit untypedInt (IntV 1)) (lit untypedInt (IntV 0)))
  = Some (Some EDivByZero,
          binary aQuo (lit untypedInt (IntV 1)) (lit untypedInt (IntV 0))).
Proof. reflexivity. Qed.

(** [x % 0] with [x] an [int]: no diagnostic. *)
Example rem_typed_zero :
  option_map fst
    (binaryExpr (binary aRem (ident tInt) (lit untypedInt (IntV 0))))
  = Some None.
Proof. reflexivity. Qed.

(** A compound assignment of multi-valued expressions is rejected before
    the binary checker. *)
Example add_assign_multi :
  assignExpr (mkNode binaryExpr_k aAddAssign None None RInvalid [] 2 2)
    (ident tInt) (ident tInt)
  = Some (Some (ERequiresSingle aAddAssign),
          mkAssign (mkNode binaryExpr_k aAddAssign None None RInvalid [] 2 2)
            (ident tInt) (ident tInt)).
Proof. reflexivity. Qed.

(** [&f()]: "cannot take address of int"; [&s[i]] with [s] a string: the
    index expression is not unwrapped. *)
Example address_call :
  addressExpr
    (addrOf (mkNode callExpr aCall None (Some tInt) RInvalid [] 0 0))
  = Some (Some (EAddressOf "int")).
Proof. reflexivity. Qed.

Example address_string_index :
  addressExpr (addrOf (index tInt (ident tString) (ident tInt)))
  = Some (Some (EAddressOf "int")).
Proof. reflexivity. Qed.

(* ================================================================== *)
(** ** Further properties of the checkers *)

(** *** Representability *)

(** [representableConst] on an integer kind reads the constant through
    [constant.ToInt] only: the exactness test of the signedness, and the
    bit length against the width of the kind. *)
Lemma representableConst_int_eq (c : Value) (t : rtype) :
  isInt t = true ->
  representableConst c t =
  match ToInt c with
  | IntV x =>
      (if isSignedKind t then snd (Int64Val x) else snd (Uint64Val x))
      && (BitLen x <=? kindBits t)
  | _ => false
  end.
Proof.
  intros Ht. unfold representableConst. rewrite Ht.
  rewrite (bitlen_in_range t Ht).
  destruct (ToInt c); try reflexivity.
  destruct t; simpl in Ht; try discriminate Ht; simpl;
    match goal with
    | |- context [negb ?b] => destruct b
    end; reflexivity.
Qed.

Lemma kindBits_pos (t : rtype) : 8 <= kindBits t <= 64.
Proof. destruct t; simpl; lia. Qed.

(** A constant is representable only in a type of its own category: a
    boolean in a boolean type, a string in a string type, a number in a
    numeric type, and the unknown value in none. *)
Theorem representableConst_category (c : Value) (t : rtype) :
  representableConst c t = true ->
  match c with
  | Unknown => False
  | BoolV _ => t = Bool
  | StringV _ => t = String
  | IntV _ | FloatV _ | BigFloatV _ _ | ComplexV _ _ => isNumber t = true
  end.
Proof.
  unfold representableConst.
  destruct t; destruct c; simpl; intros H; try discriminate H;
    try reflexivity.
Qed.

Lemma representableConst_category_witness :
  isNumber Uint8 = true.
Proof.
  exact (@representableConst_category (IntV 255) Uint8 eq_refl).
Defined.

(** Widening keeps representability: a constant representable in an
    integer kind is representable in every integer kind of the same
    signedness that is at least as wide. *)
Theorem representableConst_int_widen (c : Value) (t t' : rtype) :
  isInt t = true -> isInt t' = true ->
  isSignedKind t = isSignedKind t' -> kindBits t <= kindBits t' ->
  representableConst c t = true -> representableConst c t' = true.
Proof.
  intros Ht Ht' Hs Hw.
  rewrite (@representableConst_int_eq c t Ht), (@representableConst_int_eq c t' Ht').
  destruct (ToInt c) as [| | | x | | |]; try discriminate.
  rewrite <- Hs. intros H. apply andb_true_iff in H. destruct H as [H1 H2].
  rewrite H1. cbn [andb]. apply Z.leb_le. apply Z.leb_le in H2. lia.
Qed.

Lemma representableConst_int_widen_witness :
  representableConst (IntV (-100)) Int32 = true.
Proof.
  apply (@representableConst_int_widen (IntV (-100)) Int8 Int32);
    solve [reflexivity | simpl; lia].
Defined.

(** On every unsigned kind, the platform ones included, the accepted
    integers are exactly those of the kind. *)
Theorem representableConst_unsigned_exact (t : rtype) (L : Z) :
  isUnsignedKind t = true ->
  (representableConst (IntV L) t = true <-> inUnsignedRange (kindBits t) L).
Proof.
  intros Hu.
  assert (Ht : isInt t = true) by (destruct t; try discriminate Hu; reflexivity).
  assert (Hs : isSignedKind t = false)
    by (destruct t; try discriminate Hu; reflexivity).
  rewrite (@representableConst_int_eq (IntV L) t Ht). cbn [ToInt]. rewrite Hs.
  unfold Uint64Val, inUnsignedRange. cbn [snd].
  pose proof (kindBits_pos t) as Hk.
  assert (H64 : 2 ^ kindBits t <= 2 ^ 64) by (apply Z.pow_le_mono_r; lia).
  assert (Hk0 : 0 <= kindBits t) by lia.
  rewrite andb_true_iff, andb_true_iff, (BitLen_le L Hk0), !Z.leb_le. lia.
Qed.

Lemma representableConst_unsigned_exact_witness :
  representableConst (IntV (2 ^ 64 - 1)) Uintptr = true
  <-> inUnsignedRange (kindBits Uintptr) (2 ^ 64 - 1).
Proof.
  apply (@representableConst_unsigned_exact Uintptr (2 ^ 64 - 1)).
  reflexivity.
Defined.

(** On the 64-bit signed kinds [int] and [int64] the accepted integers are
    exactly the int64 values. *)
Theorem representableConst_signed64_exact (t : rtype) (L : Z) :
  t = Int \/ t = Int64 ->
  (representableConst (IntV L) t = true <-> inSignedRange 64 L).
Proof.
  intros Ht.
  assert (Hi : isInt t = true) by (destruct Ht; subst; reflexivity).
  rewrite (@representableConst_int_eq (IntV L) t Hi). cbn [ToInt].
  assert (Hs : isSignedKind t = true) by (destruct Ht; subst; reflexivity).
  assert (Hk : kindBits t = 64) by (destruct Ht; subst; reflexivity).
  rewrite Hs, Hk. unfold Int64Val, inSignedRange. cbn [snd].
  change (64 - 1) with 63.
  rewrite andb_true_iff, andb_true_iff, (@BitLen_le L 64), !Z.leb_le by lia.
  assert (2 ^ 63 < 2 ^ 64) by (apply Z.pow_lt_mono_r; lia). lia.
Qed.

Lemma representableConst_signed64_exact_witness :
  representableConst (IntV (- 2 ^ 63)) Int = true
  <-> inSignedRange 64 (- 2 ^ 63).
Proof.
  apply (@representableConst_signed64_exact Int (- 2 ^ 63)).
  left. reflexivity.
Defined.

(** What is finite as a float32 is finite as a float64. *)
Lemma isInf64_isInf32 (q : Q) : isInf64 q = true -> isInf32 q = true.
Proof.
  unfold isInf64, isInf32. rewrite !Qle_bool_iff. intros H.
  apply Qle_trans with (2 := H). rewrite <- Zle_Qle.
  apply Z.leb_le. vm_compute. reflexivity.
Qed.

Lemma isInf32_false_isInf64 (q : Q) : isInf32 q = false -> isInf64 q = false.
Proof.
  intros H. destruct (isInf64 q) eqn:E; [|reflexivity].
  rewrite (isInf64_isInf32 q E) in H. discriminate H.
Qed.

(** Widening keeps representability for the float and complex kinds too:
    from [float32] to [float64] and from [complex64] to [complex128]. *)
Theorem representableConst_float_widen (c : Value) (t t' : rtype) :
  (t = Float32 /\ t' = Float64) \/ (t = Complex64 /\ t' = Complex128) ->
  representableConst c t = true -> representableConst c t' = true.
Proof.
  intros [[-> ->] | [-> ->]]; unfold representableConst; simpl.
  - destruct (kindOf (ToFloat c)); try discriminate.
    intros H. apply negb_true_iff in H.
    rewrite (isInf32_false_isInf64 _ H). reflexivity.
  - destruct (ToComplex c); try discriminate.
    intros H. apply andb_true_iff in H. destruct H as [H1 H2].
    apply negb_true_iff in H1, H2.
    rewrite (isInf32_false_isInf64 _ H1), (isInf32_false_isInf64 _ H2).
    reflexivity.
Qed.

Lemma representableConst_float_widen_witness :
  representableConst (FloatV (1 # 3)) Float64 = true.
Proof.
  apply (@representableConst_float_widen (FloatV (1 # 3)) Float32 Float64);
    [left; split; reflexivity | reflexivity].
Defined.

(** *** The native value of a converted constant *)

Lemma wrapS_small (w z : Z) :
  0 < w -> - 2 ^ (w - 1) <= z <= 2 ^ (w - 1) - 1 -> wrapS w z = z.
Proof.
  intros Hw Hz. unfold wrapS.
  assert (Hp : 2 ^ w = 2 * 2 ^ (w - 1)).
  { rewrite <- Z.pow_succ_r by lia. f_equal. lia. }
  rewrite Z.mod_small by lia. lia.
Qed.

Lemma wrapU_small (w z : Z) : 0 <= z <= 2 ^ w - 1 -> wrapU w z = z.
Proof. intros Hz. unfold wrapU. apply Z.mod_small. lia. Qed.

Lemma wrapS_range (w z : Z) :
  0 < w -> - 2 ^ (w - 1) <= wrapS w z <= 2 ^ (w - 1) - 1.
Proof.
  intros Hw. unfold wrapS.
  assert (Hp : 2 ^ w = 2 * 2 ^ (w - 1)).
  { rewrite <- Z.pow_succ_r by lia. f_equal. lia. }
  assert (Hpos : 0 < 2 ^ w) by (apply Z.pow_pos_nonneg; lia).
  pose proof (Z.mod_pos_bound (z + 2 ^ (w - 1)) (2 ^ w) Hpos). lia.
Qed.

Lemma wrapU_range (w z : Z) : 0 <= w -> 0 <= wrapU w z <= 2 ^ w - 1.
Proof.
  intros Hw. unfold wrapU.
  assert (Hpos : 0 < 2 ^ w) by (apply Z.pow_pos_nonneg; lia).
  pose proof (Z.mod_pos_bound z (2 ^ w) Hpos). lia.
Qed.

Lemma wrapS_cong (w z : Z) : 0 < w -> exists k, wrapS w z = z + k * 2 ^ w.
Proof.
  intros Hw. unfold wrapS.
  assert (Hpos : 0 < 2 ^ w) by (apply Z.pow_pos_nonneg; lia).
  exists (- ((z + 2 ^ (w - 1)) / 2 ^ w)).
  pose proof (Z.div_mod (z + 2 ^ (w - 1)) (2 ^ w) ltac:(lia)). lia.
Qed.

Lemma wrapU_cong (w z : Z) : 0 <= w -> exists k, wrapU w z = z + k * 2 ^ w.
Proof.
  intros Hw. unfold wrapU.
  assert (Hpos : 0 < 2 ^ w) by (apply Z.pow_pos_nonneg; lia).
  exists (- (z / 2 ^ w)).
  pose proof (Z.div_mod z (2 ^ w) ltac:(lia)). lia.
Qed.

Lemma pow64_split (w : Z) : 0 <= w <= 64 -> 2 ^ 64 = 2 ^ (64 - w) * 2 ^ w.
Proof. intros Hw. rewrite <- Z.pow_add_r by lia. f_equal. lia. Qed.

(** The integer [convertConst] produces for an integer kind is the two's
    complement truncation of the constant: a value of the kind, congruent
    modulo [2^width] to the integer the constant converts to (to its
    absolute value, for an unsigned kind and an integer below [-2^63]); it
    is 0 for a constant that does not convert to an integer. *)
Theorem convertConst_int_truncates (c : Value) (t : rtype) :
  isInt t = true ->
  exists r,
    convertConst (RConst c) t = Some (RNative (NInt t r), None)
    /\ inKindRange t r
    /\ match ToInt c with
       | IntV z =>
           let z' := if isUnsignedKind t && (z <? - 2 ^ 63) then Z.abs z
                     else z in
           (r - z') mod 2 ^ kindBits t = 0
       | _ => r = 0
       end.
Proof.
  intros Ht. pose proof (kindBits_pos t) as Hk.
  assert (Hconv : convertConst (RConst c) t =
                  Some (RNative (NInt t
                    (if isUnsignedKind t
                     then wrapU (kindBits t)
                            match ToInt c with
                            | IntV z => fst (Uint64Val z)
                            | _ => 0
                            end
                     else wrapS (kindBits t)
                            match ToInt c with
                            | IntV z => fst (Int64Val z)
                            | _ => 0
                            end)), None)).
  { destruct t; try discriminate Ht; reflexivity. }
  rewrite Hconv. eexists. split; [reflexivity|]. split.
  - unfold inKindRange. destruct (isUnsignedKind t).
    + apply wrapU_range. lia.
    + apply wrapS_range. lia.
  - assert (Hdiv : forall a b k1 k2 : Z,
               a = b + k1 * 2 ^ 64 + k2 * 2 ^ kindBits t ->
               (a - b) mod 2 ^ kindBits t = 0).
    { intros a b k1 k2 ->. rewrite (@pow64_split (kindBits t)) by lia.
      replace (b + k1 * (2 ^ (64 - kindBits t) * 2 ^ kindBits t)
               + k2 * 2 ^ kindBits t - b)
        with ((k1 * 2 ^ (64 - kindBits t) + k2) * 2 ^ kindBits t) by ring.
      apply Z.mod_mul.
      assert (0 < 2 ^ kindBits t) by (apply Z.pow_pos_nonneg; lia). lia. }
    destruct (ToInt c) as [| | | z | | |];
      try (destruct (isUnsignedKind t); unfold wrapU, wrapS;
           [apply Z.mod_0_l
           | rewrite Z.add_0_l, Z.mod_small;
             [lia
             | split; [apply Z.pow_nonneg; lia
                      | apply Z.pow_lt_mono_r; lia]]];
           assert (0 < 2 ^ kindBits t) by (apply Z.pow_pos_nonneg; lia);
           lia).
    cbv zeta. destruct (isUnsignedKind t); cbn [andb].
    + unfold Uint64Val, Int64Val. cbn [fst snd].
      destruct (Z.ltb_spec z (- 2 ^ 63)) as [Hlt|Hge].
      * assert (Hr : (- 2 ^ 63 <=? z) && (z <=? 2 ^ 63 - 1) = false).
        { apply andb_false_iff. left. apply Z.leb_gt. exact Hlt. }
        rewrite Hr.
        destruct (@wrapU_cong 64 (Z.abs z)) as [k1 H1]; [lia|].
        destruct (@wrapU_cong (kindBits t) (wrapU 64 (Z.abs z)))
          as [k2 H2]; [lia|].
        apply (Hdiv _ _ k1 k2). rewrite H2, H1. reflexivity.
      * assert (Hz : (if (- 2 ^ 63 <=? z) && (z <=? 2 ^ 63 - 1)
                      then wrapU 64 z else wrapU 64 (Z.abs z))
                     = wrapU 64 z).
        { destruct ((- 2 ^ 63 <=? z) && (z <=? 2 ^ 63 - 1)) eqn:E;
            [reflexivity|].
          rewrite Z.abs_eq; [reflexivity|].
          apply andb_false_iff in E. rewrite !Z.leb_gt in E.
          assert (0 < 2 ^ 63) by (apply Z.pow_pos_nonneg; lia). lia. }
        rewrite Hz.
        destruct (@wrapU_cong 64 z) as [k1 H1]; [lia|].
        destruct (@wrapU_cong (kindBits t) (wrapU 64 z)) as [k2 H2]; [lia|].
        apply (Hdiv _ _ k1 k2). rewrite H2, H1. reflexivity.
    + unfold Int64Val. cbn [fst].
      destruct (@wrapS_cong 64 z) as [k1 H1]; [lia|].
      destruct (@wrapS_cong (kindBits t) (wrapS 64 z)) as [k2 H2]; [lia|].
      apply (Hdiv _ _ k1 k2). rewrite H2, H1. reflexivity.
Qed.

(** 200 converted to [int8] is -56, and 200 - (-56) is 256. *)
Lemma convertConst_int_truncates_witness :
  exists r,
    convertConst (RConst (IntV 200)) Int8 = Some (RNative (NInt Int8 r), None)
    /\ inKindRange Int8 r
    /\ (r - 200) mod 2 ^ 8 = 0.
Proof.
  exact (@convertConst_int_truncates (IntV 200) Int8 eq_refl).
Defined.

(** The conversion of an accepted constant is exact on the unsigned and on
    the 64-bit signed kinds, and on a narrower signed kind whenever the
    integer is a value of the kind. *)
Theorem convertConst_int_exact (c : Value) (t : rtype) (z : Z) :
  isInt t = true -> ToInt c = IntV z -> representableConst c t = true ->
  isUnsignedKind t = true \/ kindBits t = 64 \/ inKindRange t z ->
  convertConst (RConst c) t = Some (RNative (NInt t z), None).
Proof.
  intros Ht Hc Hr Hcase.
  rewrite (@representableConst_int_eq c t Ht), Hc in Hr.
  apply andb_true_iff in Hr. destruct Hr as [Hfit Hlen].
  pose proof (kindBits_pos t) as Hk.
  rewrite (@BitLen_le z (kindBits t)) in Hlen by lia.
  assert (H64 : 2 ^ kindBits t <= 2 ^ 64) by (apply Z.pow_le_mono_r; lia).
  destruct (isUnsignedKind t) eqn:Hu.
  - assert (Hs : isSignedKind t = false)
      by (destruct t; try discriminate Hu; reflexivity).
    rewrite Hs in Hfit. unfold Uint64Val in Hfit. cbn [snd] in Hfit.
    apply andb_true_iff in Hfit. rewrite !Z.leb_le in Hfit.
    assert (Hz : wrapU (kindBits t)
                   (if snd (Int64Val z) then wrapU 64 z
                    else wrapU 64 (Z.abs z)) = z).
    { replace (Z.abs z) with z by lia.
      destruct (snd (Int64Val z)); rewrite (@wrapU_small 64 z) by lia;
        apply wrapU_small; lia. }
    unfold convertConst.
    destruct t; try discriminate Hu; rewrite Hc; unfold Uint64Val;
      cbn [fst]; rewrite Hz; reflexivity.
  - assert (Hs : isSignedKind t = true)
      by (destruct t; try discriminate Ht; try discriminate Hu; reflexivity).
    rewrite Hs in Hfit. unfold Int64Val in Hfit. cbn [snd] in Hfit.
    apply andb_true_iff in Hfit. rewrite !Z.leb_le in Hfit.
    assert (Hrange : inSignedRange (kindBits t) z).
    { destruct Hcase as [H | [H | H]]; [discriminate H | |].
      - rewrite H. unfold inSignedRange. change (64 - 1) with 63. lia.
      - unfold inKindRange in H. rewrite Hu in H. exact H. }
    unfold inSignedRange in Hrange.
    assert (Hz : wrapS (kindBits t) (wrapS 64 z) = z).
    { rewrite (@wrapS_small 64 z) by (change (64 - 1) with 63; lia).
      apply wrapS_small; lia. }
    unfold convertConst.
    destruct t; try discriminate Hs; rewrite Hc; unfold Int64Val;
      cbn [fst]; rewrite Hz; reflexivity.
Qed.

Lemma convertConst_int_exact_witness :
  convertConst (RConst (FloatV (255 # 1))) Uint8
  = Some (RNative (NInt Uint8 255), None).
Proof.
  apply (@convertConst_int_exact (FloatV (255 # 1)) Uint8 255);
    solve [reflexivity | left; reflexivity].
Defined.

(** On a narrow signed kind the constants that [representableConst]
    accepts above the kind's largest value are stored wrapped around: an
    accepted [L] with [2^(N-1) <= L <= 2^N - 1] becomes [L - 2^N]. *)
Theorem convertConst_narrow_signed_wraps (t : rtype) (N L : Z) :
  signedBits t = Some N -> N < 64 ->
  2 ^ (N - 1) <= L <= 2 ^ N - 1 ->
  representableConst (IntV L) t = true
  /\ convertConst (RConst (IntV L)) t
     = Some (RNative (NInt t (L - 2 ^ N)), None).
Proof.
  intros Ht HN HL.
  assert (Hk : kindBits t = N /\ 8 <= N <= 32).
  { destruct t; simpl in Ht; inversion Ht; subst; simpl; try lia. }
  destruct Hk as [Hk HN8].
  assert (Hp : 2 ^ N = 2 * 2 ^ (N - 1)).
  { rewrite <- Z.pow_succ_r by lia. f_equal. lia. }
  assert (Hpos : 0 < 2 ^ (N - 1)) by (apply Z.pow_pos_nonneg; lia).
  assert (H63 : 2 ^ N <= 2 ^ 63) by (apply Z.pow_le_mono_r; lia).
  split.
  - apply (proj2 (@representableConst_signed t N L Ht)).
    split; lia.
  - assert (Hz : wrapS N (wrapS 64 L) = L - 2 ^ N).
    { rewrite (@wrapS_small 64 L) by (change (64 - 1) with 63; lia).
      unfold wrapS.
      replace (L + 2 ^ (N - 1)) with ((L - 2 ^ (N - 1)) + 1 * 2 ^ N) by lia.
      rewrite Z.mod_add by lia. rewrite Z.mod_small by lia. lia. }
    unfold convertConst.
    destruct t; simpl in Ht; try discriminate Ht; cbn [ToInt];
      unfold Int64Val; cbn [fst]; simpl kindBits in *; subst N;
      rewrite Hz; reflexivity.
Qed.

Lemma convertConst_narrow_signed_wraps_witness :
  representableConst (IntV 200) Int8 = true
  /\ convertConst (RConst (IntV 200)) Int8
     = Some (RNative (NInt Int8 (200 - 2 ^ 8)), None).
Proof.
  apply (@convertConst_narrow_signed_wraps Int8 8 200);
    solve [reflexivity | simpl; lia].
Defined.

(** *** The coercion engine, beyond its results *)

Section EngineExtra.

Context {O : TypeOps}.

(** The results [convertUntyped] can return, by the path taken. *)
Lemma convertUntyped_inv (n n' : node) (ty : option itype)
    (e : option error) :
  convertUntyped n ty = Some (e, n') ->
  (e = None /\ n' = n)
  \/ exists nt t,
       typ n = Some nt /\ ty = Some t /\ untyped nt = true
       /\ ((e = None /\ n' = set_typ n t
            /\ (untyped t = true
                /\ Kind_ltb (TypeOf nt) (TypeOf t) = true
                \/ untyped t = false))
           \/ (e = Some (EConvType (id nt) (id t)) /\ n' = n)
           \/ (exists err k,
                 e = Some err /\ n' = n /\ untyped t = false
                 /\ representable n k = Some (Some err))
           \/ (exists v ityp k,
                 e = None /\ n' = set_typ (set_rval n v) ityp
                 /\ untyped t = false
                 /\ convertConst (rval n) k = Some (v, None)
                 /\ (ityp = t \/ ityp = defaultType nt))).
Proof.
  unfold convertUntyped.
  destruct (typ n) as [nt|] eqn:Hn;
    [|intros [= <- <-]; left; split; reflexivity].
  destruct ty as [t|]; [|intros [= <- <-]; left; split; reflexivity].
  destruct (untyped nt) eqn:Hu; cbn [negb];
    [|intros [= <- <-]; left; split; reflexivity].
  destruct (untyped t) eqn:Hut.
  - destruct (isNumber (TypeOf nt) && isNumber (TypeOf t)).
    + destruct (Kind_ltb (TypeOf nt) (TypeOf t)) eqn:Hlt; intros [= <- <-].
      * right. exists nt, t. repeat (split; [reflexivity || assumption|]).
        left. auto.
      * left. auto.
    + destruct (negb (Kind_eqb (TypeOf nt) (TypeOf t))); intros [= <- <-].
      * right. exists nt, t. repeat (split; [reflexivity || assumption|]).
        right. left. auto.
      * left. auto.
  - assert (Htail : forall ityp k,
               ityp = t \/ ityp = defaultType nt -> untyped t = false ->
               convertTail n (EConvType (id nt) (id t)) ityp k = Some (e, n') ->
               (exists err k0,
                  e = Some err /\ n' = n /\ untyped t = false
                  /\ representable n k0 = Some (Some err))
               \/ (exists v ityp0 k0,
                     e = None /\ n' = set_typ (set_rval n v) ityp0
                     /\ untyped t = false
                     /\ convertConst (rval n) k0 = Some (v, None)
                     /\ (ityp0 = t \/ ityp0 = defaultType nt))).
    { intros ityp k Hity _ H.
      destruct (convertTail_cases n (EConvType (id nt) (id t)) ityp k Hn)
        as [(err & H' & Hrep) | (v & H' & _ & Hv)];
        rewrite H' in H; injection H as <- <-.
      - left. exists err, k. auto.
      - right. exists v, ityp, k. auto. }
    destruct (isNil t && isNil nt).
    { intros [= <- <-]. right. exists nt, t.
      repeat (split; [reflexivity || assumption|]). left. auto. }
    destruct (isNumber (TypeOf t) || isString (TypeOf t)
              || isBoolean (TypeOf t)).
    { intros H. right. exists nt, t.
      repeat (split; [reflexivity || assumption|]). right. right.
      apply (Htail t (TypeOf t)); auto. }
    destruct (isInterface t).
    { destruct (isNil nt); [intros [= <- <-]; left; auto|].
      destruct (0 <? List.length (methods nt))%nat.
      - intros [= <- <-]. right. exists nt, t.
        repeat (split; [reflexivity || assumption|]). right. left. auto.
      - intros H. right. exists nt, t.
        repeat (split; [reflexivity || assumption|]). right. right.
        apply (Htail (defaultType nt) (TypeOf nt)); auto. }
    destruct (isArray t || isMap t || isChan t || isFunc t || isPtr t).
    { destruct (negb (isNil nt)); intros [= <- <-].
      - right. exists nt, t. repeat (split; [reflexivity || assumption|]).
        right. left. auto.
      - left. auto. }
    intros [= <- <-]. right. exists nt, t.
    repeat (split; [reflexivity || assumption|]). right. left. auto.
Qed.

Lemma representable_error_form (n : node) (k : rtype) (err : error) :
  representable n k = Some (Some err) ->
  exists c, rval n = RConst c /\ representableConst c k = false
            /\ (err = ETruncated c k \/ err = EOverflows c k
                \/ err = EConvConst c k).
Proof.
  unfold representable.
  destruct (rval n) as [| c | v]; try discriminate.
  destruct (representableConst c k) eqn:Hrc; cbn [negb]; [discriminate|].
  destruct (typ n) as [nt|]; [|discriminate].
  intros H. exists c. split; [reflexivity|]. split; [exact Hrc|].
  destruct (isNumber (TypeOf nt) && isNumber k).
  - destruct (negb (isInt (TypeOf nt)) && isInt k); injection H as <-; auto.
  - injection H as <-. auto.
Qed.

(** [convertUntyped] never panics, and it is atomic on error: when it
    returns an error the node is exactly as it was, type and payload. *)
Theorem convertUntyped_error_atomic (n : node) (ty : option itype) :
  exists e n',
    convertUntyped n ty = Some (e, n') /\ (e <> None -> n' = n).
Proof.
  destruct (convertUntyped_total n ty) as (e & n' & H & _).
  exists e, n'. split; [exact H|]. intros He.
  destruct (convertUntyped_inv n ty H)
    as [[He' _] | (nt & t & _ & _ & _ &
                   [(He' & _) | [(_ & Hn) | [(err & k & _ & Hn & _)
                                            | (v & i & k & He' & _)]]])];
    try contradiction; auto.
Qed.

(** The conversion that follows a passed representability check returns,
    and it returns no error: the sentinel of [convertConst] is out of
    reach of [convertUntyped]. *)
Lemma representable_convertConst (n : node) (k : rtype) :
  representable n k = Some None ->
  exists v, convertConst (rval n) k = Some (v, None).
Proof.
  unfold representable.
  destruct (rval n) as [| c | w]; [eexists; reflexivity | | eexists; reflexivity].
  destruct (representableConst c k) eqn:Hc; cbn [negb].
  - intros _. destruct (convertConst_representable c k Hc) as [v Hv].
    exists (RNative v). exact Hv.
  - destruct (typ n) as [nt|]; [|discriminate].
    destruct (isNumber (TypeOf nt) && isNumber k);
      [destruct (negb (isInt (TypeOf nt)) && isInt k)|]; discriminate.
Qed.

(** The diagnostics of [convertUntyped]: an error is returned only for an
    untyped node and a given target, and it is one of two.  Either it is
    "cannot convert" with the two type names, raised by the dispatch on the
    target: toward an untyped target, for two types that are not both
    numeric and have different kinds; toward a concrete target that is
    neither numeric, string nor boolean, for a value with methods toward an
    interface, for a value other than nil toward an array, map, channel,
    function or pointer type, and for every value toward any other type.
    Or it is a diagnostic of the representability check about the node's
    own constant, which is then not representable in the backing kind it
    was checked against, that of the target or of the node's own type.  The
    sentinel of [convertConst] is not among them: whenever the
    representability check passes, [convertConst] returns without error. *)
Theorem convertUntyped_diagnostics (n n' : node) (ty : option itype)
    (e : error) :
  convertUntyped n ty = Some (Some e, n') ->
  (forall k, representable n k = Some None ->
             exists v, convertConst (rval n) k = Some (v, None))
  /\ exists nt t,
       typ n = Some nt /\ ty = Some t /\ untyped nt = true
       /\ ((e = EConvType (id nt) (id t)
            /\ if untyped t then
                 isNumber (TypeOf nt) && isNumber (TypeOf t) = false
                 /\ Kind_eqb (TypeOf nt) (TypeOf t) = false
               else
                 isNil t && isNil nt = false
                 /\ isNumber (TypeOf t) || isString (TypeOf t)
                    || isBoolean (TypeOf t) = false
                 /\ if isInterface t then
                      isNil nt = false /\ methods nt <> []
                    else
                      isNil nt = false
                      \/ isArray t || isMap t || isChan t || isFunc t
                         || isPtr t = false)
           \/ exists c k,
                rval n = RConst c /\ untyped t = false
                /\ (k = TypeOf t \/ k = TypeOf nt)
                /\ representableConst c k = false
                /\ (e = ETruncated c k \/ e = EOverflows c k
                    \/ e = EConvConst c k)).
Proof.
  intros H. split; [exact (representable_convertConst n)|].
  unfold convertUntyped in H.
  destruct (typ n) as [nt|] eqn:Hn; [|discriminate H].
  destruct ty as [t|]; [|discriminate H].
  destruct (untyped nt) eqn:Hu; cbn [negb] in H; [|discriminate H].
  exists nt, t. split; [reflexivity|]. split; [reflexivity|].
  split; [exact Hu|].
  assert (Htail : forall ityp k,
             k = TypeOf t \/ k = TypeOf nt -> untyped t = false ->
             convertTail n (EConvType (id nt) (id t)) ityp k
             = Some (Some e, n') ->
             exists c k0,
               rval n = RConst c /\ untyped t = false
               /\ (k0 = TypeOf t \/ k0 = TypeOf nt)
               /\ representableConst c k0 = false
               /\ (e = ETruncated c k0 \/ e = EOverflows c k0
                   \/ e = EConvConst c k0)).
  { intros ityp k Hk Hut Ht.
    destruct (convertTail_cases n (EConvType (id nt) (id t)) ityp k Hn)
      as [(err & H' & Hrep) | (v & H' & _)]; rewrite H' in Ht;
      [|discriminate Ht].
    injection Ht as -> _.
    destruct (representable_error_form n k Hrep) as (c & Hc & Hr & Hform).
    exists c, k. auto. }
  destruct (untyped t) eqn:Hut.
  - destruct (isNumber (TypeOf nt) && isNumber (TypeOf t)) eqn:Hnum.
    + destruct (Kind_ltb (TypeOf nt) (TypeOf t)); discriminate H.
    + destruct (Kind_eqb (TypeOf nt) (TypeOf t)) eqn:Hk; cbn [negb] in H;
        [discriminate H|].
      injection H as <- _. left. auto.
  - destruct (isNil t && isNil nt) eqn:Hnil; [discriminate H|].
    destruct (isNumber (TypeOf t) || isString (TypeOf t)
              || isBoolean (TypeOf t)) eqn:Hb.
    { right. apply (Htail t (TypeOf t)); auto. }
    destruct (isInterface t) eqn:Hi.
    { destruct (isNil nt) eqn:Hnn; [discriminate H|].
      destruct (0 <? List.length (methods nt))%nat eqn:Hm.
      - injection H as <- _. left. split; [reflexivity|].
        split; [reflexivity|]. split; [reflexivity|].
        split; [reflexivity|]. intros Hnone. rewrite Hnone in Hm.
        discriminate Hm.
      - right. apply (Htail (defaultType nt) (TypeOf nt)); auto. }
    destruct (isArray t || isMap t || isChan t || isFunc t || isPtr t)
      eqn:Hp.
    { destruct (isNil nt) eqn:Hnn; cbn [negb] in H; [discriminate H|].
      injection H as <- _. left. split; [reflexivity|].
      split; [reflexivity|]. split; [reflexivity|]. left. reflexivity. }
    injection H as <- _. left. split; [reflexivity|].
    split; [reflexivity|]. split; [reflexivity|]. right. reflexivity.
Qed.

(** [convertUntyped] assigns to the type and constant-value slots only:
    the form tag, the action, the parent, the children and the arity counts
    of the node are as before. *)
Theorem convertUntyped_same_shape (n n' : node) (ty : option itype)
    (e : option error) :
  convertUntyped n ty = Some (e, n') -> sameShape n n'.
Proof.
  intros H.
  assert (Hrefl : sameShape n n) by (repeat split).
  destruct (convertUntyped_inv n ty H)
    as [[_ ->] | (nt & t & _ & _ & _ &
                  [(_ & -> & _) | [(_ & ->) | [(err & k & _ & -> & _)
                                              | (v & i & k & _ & -> & _)]]])];
    try exact Hrefl; repeat split.
Qed.

(** A successful coercion is idempotent: repeating it on the resulting
    node, toward the same target, succeeds and changes nothing (the node's
    default type being a concrete type). *)
Theorem convertUntyped_idempotent (n n' : node) (ty : option itype) :
  (forall nt, typ n = Some nt -> untyped (defaultType nt) = false) ->
  convertUntyped n ty = Some (None, n') ->
  convertUntyped n' ty = Some (None, n').
Proof.
  intros Hd H.
  assert (Htyped : forall m t u, typ m = Some u -> untyped u = false ->
                   convertUntyped m (Some t) = Some (None, m)).
  { intros m t u Hm Hu. unfold convertUntyped. rewrite Hm, Hu. reflexivity. }
  destruct (convertUntyped_inv n ty H)
    as [[_ ->] | (nt & t & Hn & -> & Hu &
                  [(_ & -> & Hcase) | [(He & _) | [(err & k & He & _)
                                      | (v & i & k & _ & -> & Hut & _ & Hi)]]])];
    try discriminate He.
  - exact H.
  - destruct Hcase as [[Hut Hlt] | Hut].
    + unfold convertUntyped. cbn [typ set_typ]. rewrite Hut. cbn [negb].
      assert (Hirr : Kind_ltb (TypeOf t) (TypeOf t) = false)
        by (unfold Kind_ltb; apply Nat.ltb_irrefl).
      assert (Heq : Kind_eqb (TypeOf t) (TypeOf t) = true)
        by (unfold Kind_eqb; apply Nat.eqb_refl).
      rewrite Hirr, Heq. cbn [negb].
      destruct (isNumber (TypeOf t) && isNumber (TypeOf t)); reflexivity.
    + apply (Htyped _ t t); [reflexivity | exact Hut].
  - destruct Hi as [-> | ->].
    + apply (Htyped _ t t); [reflexivity | exact Hut].
    + apply (Htyped _ t (defaultType nt)); [reflexivity | apply Hd, Hn].
Qed.

End EngineExtra.

(** [256] toward [uint8]: "constant 256 overflows uint8", checked against
    the kind of the target. *)
Lemma convertUntyped_diagnostics_witness :
  (forall k, representable (lit untypedInt (IntV 256)) k = Some None ->
             exists v,
               convertConst (rval (lit untypedInt (IntV 256))) k
               = Some (v, None))
  /\ exists nt t,
       typ (lit untypedInt (IntV 256)) = Some nt /\ Some tUint8 = Some t
       /\ untyped nt = true
       /\ ((EOverflows (IntV 256) Uint8 = EConvType (id nt) (id t)
            /\ if untyped t then
                 isNumber (TypeOf nt) && isNumber (TypeOf t) = false
                 /\ Kind_eqb (TypeOf nt) (TypeOf t) = false
               else
                 isNil t && isNil nt = false
                 /\ isNumber (TypeOf t) || isString (TypeOf t)
                    || isBoolean (TypeOf t) = false
                 /\ if isInterface t then
                      isNil nt = false /\ methods nt <> []
                    else
                      isNil nt = false
                      \/ isArray t || isMap t || isChan t || isFunc t
                         || isPtr t = false)
           \/ exists c k,
                rval (lit untypedInt (IntV 256)) = RConst c
                /\ untyped t = false
                /\ (k = TypeOf t \/ k = TypeOf nt)
                /\ representableConst c k = false
                /\ (EOverflows (IntV 256) Uint8 = ETruncated c k
                    \/ EOverflows (IntV 256) Uint8 = EOverflows c k
                    \/ EOverflows (IntV 256) Uint8 = EConvConst c k)).
Proof.
  apply (@convertUntyped_diagnostics specOps (lit untypedInt (IntV 256))
           (lit untypedInt (IntV 256)) (Some tUint8)
           (EOverflows (IntV 256) Uint8)).
  reflexivity.
Defined.

Lemma convertUntyped_same_shape_witness :
  sameShape (lit untypedInt (IntV 5))
    (mkNode basicLit aNop None (Some tUint8) (RNative (NInt Uint8 5)) [] 0 0).
Proof.
  apply (@convertUntyped_same_shape specOps (lit untypedInt (IntV 5))
           (mkNode basicLit aNop None (Some tUint8)
              (RNative (NInt Uint8 5)) [] 0 0) (Some tUint8) None).
  reflexivity.
Defined.

Lemma convertUntyped_idempotent_witness :
  convertUntyped
    (mkNode basicLit aNop None (Some tInt) (RNative (NInt Int 5)) [] 0 0)
    (Some tIface)
  = Some (None,
          mkNode basicLit aNop None (Some tInt) (RNative (NInt Int 5)) [] 0 0).
Proof.
  apply (@convertUntyped_idempotent specOps (lit untypedInt (IntV 5))
           (mkNode basicLit aNop None (Some tInt)
              (RNative (NInt Int 5)) [] 0 0) (Some tIface)).
  - intros nt [= <-]. reflexivity.
  - reflexivity.
Defined.

(** *** Comparison and unary expressions *)

Section OperatorExtra.

Context {O : TypeOps}.

(** The legality of a comparison does not depend on the order of its
    operands: exchanging them turns success into success and failure into
    failure. *)
Theorem comparison_symmetric (n c0 c1 : node) (rest : list node) :
  child n = c0 :: c1 :: rest ->
  (comparison (swapOperands n) = Some None <-> comparison n = Some None).
Proof.
  intros Hc. unfold swapOperands. rewrite Hc. unfold comparison.
  cbn [child set_child act]. rewrite Hc.
  destruct (typ c0) as [t0|], (typ c1) as [t1|]; try tauto.
  unfold ret.
  rewrite (andb_comm (negb (assignableTo t1 t0))).
  destruct (negb (assignableTo t0 t1) && negb (assignableTo t1 t0));
    [split; discriminate|].
  assert (Hok :
    match act n with
    | aEqual | aNotEqual =>
        comparable t1 && comparable t0 || isNil t1 && hasNil t0
        || isNil t0 && hasNil t1
    | aLower | aLowerEqual | aGreater | aGreaterEqual =>
        ordered t1 && ordered t0
    | _ => false
    end =
    match act n with
    | aEqual | aNotEqual =>
        comparable t0 && comparable t1 || isNil t0 && hasNil t1
        || isNil t1 && hasNil t0
    | aLower | aLowerEqual | aGreater | aGreaterEqual =>
        ordered t0 && ordered t1
    | _ => false
    end).
  { destruct (act n); try reflexivity;
      try (destruct (ordered t0), (ordered t1); reflexivity);
      destruct (comparable t0), (comparable t1), (isNil t0), (hasNil t1),
        (isNil t1), (hasNil t0); reflexivity. }
  rewrite Hok.
  match goal with
  | |- context [if negb ?b then _ else _] => destruct b
  end; cbn [negb]; split; auto; discriminate.
Qed.

(** A unary expression on a typed operand never panics.  It is accepted
    exactly when it is a receive from a channel that is not send-only, a
    [+] or [-] on a number, a [^] on an integer or a [!] on a boolean; on
    every action other than these five the result is "unknown operator". *)
Theorem unaryExpr_legal (n c0 : node) (rest : list node) (ct : itype) :
  child n = c0 :: rest -> typ c0 = Some ct ->
  (unaryExpr n = Some None <->
   match act n with
   | aRecv => isChan ct = true /\ isSendChan ct = false
   | aPos | aNeg => isNumber (TypeOf ct) = true
   | aBitNot => isInt (TypeOf ct) = true
   | aNot => isBoolean (TypeOf ct) = true
   | _ => False
   end)
  /\ (exists e, unaryExpr n = Some e)
  /\ (match act n with
      | aRecv | aPos | aNeg | aBitNot | aNot => True
      | a => unaryExpr n = Some (Some (EUnknownOp a))
      end).
Proof.
  intros Hc Ht. unfold unaryExpr, op. rewrite Hc, Ht. unfold ret.
  assert (Hpred : forall (b : bool) (e : error),
             ((if negb b then Some (Some e) else Some None) = Some None
              <-> b = true)
             /\ (exists r, (if negb b then Some (Some e) else Some None)
                           = Some r)).
  { intros b e. destruct b; cbn [negb]; split;
      solve [split; [reflexivity | discriminate] | split; reflexivity
            | split; discriminate | eexists; reflexivity]. }
  destruct (act n); cbn [unaryOpPredicates];
    try (split; [split; [discriminate | contradiction]
                |split; [eexists; reflexivity | reflexivity]]);
    try (split; [apply Hpred | split; [apply Hpred | exact I]]).
  destruct (isChan ct), (isSendChan ct); cbn [negb];
    (split; [split; [intros H; try discriminate H; split; reflexivity
                    |intros [H1 H2]; try discriminate H1;
                     try discriminate H2; reflexivity]
            |split; [eexists; reflexivity | exact I]]).
Qed.

End OperatorExtra.

Lemma comparison_symmetric_witness :
  comparison (swapOperands (binary aEqual (ident untypedNil) (ident tPtr)))
  = Some None
  <-> comparison (binary aEqual (ident untypedNil) (ident tPtr)) = Some None.
Proof.
  apply (@comparison_symmetric specOps
           (binary aEqual (ident untypedNil) (ident tPtr))
           (ident untypedNil) (ident tPtr) []).
  reflexivity.
Defined.

Lemma unaryExpr_legal_witness :
  unaryExpr (unary aRecv (ident tSendChan))
  = Some (Some (ERecvSendOnly "chan<- int"))
  /\ unaryExpr (unary aRecv (ident tChan)) = Some None.
Proof.
  split; [reflexivity|].
  apply (proj1 (@unaryExpr_legal specOps (unary aRecv (ident tChan))
                  (ident tChan) [] tChan eq_refl eq_refl)).
  split; reflexivity.
Defined.

(** *** Binary expressions and shifts, beyond their results *)

Section BinaryExtra.

Context {O : TypeOps}.

Lemma sameShape_refl (n : node) : sameShape n n.
Proof. repeat split. Qed.

Lemma sameShape_set_rval (n : node) (v : rvalue) : sameShape n (set_rval n v).
Proof. repeat split. Qed.

(** [shift] returns no other error than its two diagnostics, and leaves
    [n] with the same operands up to their type and constant-value
    slots. *)
Lemma shift_inv (n n' c0 c1 : node) (rest : list node) (e : option error) :
  child n = c0 :: c1 :: rest -> shift n = Some (e, n') ->
  (e = None \/ (exists s, e = Some (EShiftOfType s))
   \/ (exists s, e = Some (EShiftCount s)))
  /\ exists c0' c1',
       n' = set_child n (c0' :: c1' :: rest)
       /\ sameShape c0 c0' /\ sameShape c1 c1'.
Proof.
  intros Hc. unfold shift, ret. rewrite Hc.
  destruct (typ c0) as [ct0|]; [|discriminate].
  destruct (typ c1) as [ct1|] eqn:H1; [|discriminate].
  assert (Hst : forall st : option Value * node,
             (if untyped ct0
              then match rval c0 with
                   | RConst c =>
                       Some (Some (ToInt c), set_rval c0 (RConst (ToInt c)))
                   | _ => None
                   end
              else Some (None, c0)) = Some st -> sameShape c0 (snd st)).
  { intros st. destruct (untyped ct0).
    - destruct (rval c0); try discriminate. intros [= <-].
      apply sameShape_set_rval.
    - intros [= <-]. apply sameShape_refl. }
  match goal with
  | |- context [match ?m with Some _ => _ | None => None end] =>
      destruct m as [[v0 c0']|] eqn:Est; [|discriminate]
  end.
  specialize (Hst _ eq_refl). cbn [snd] in Hst.
  match goal with
  | |- context [if negb ?b then _ else _] => destruct b
  end; cbn [negb].
  - destruct (untyped ct1).
    + destruct (convertUntyped c1 (Some uintType)) as [[e1 c1']|] eqn:Hconv;
        [|discriminate].
      pose proof (convertUntyped_same_shape _ _ Hconv) as Hs1.
      destruct e1 as [err|].
      * destruct (typ c1') as [ct1'|]; [|discriminate].
        intros [= <- <-]. split; [right; right; eauto|].
        exists c0', c1'. auto.
      * intros [= <- <-]. split; [left; reflexivity|].
        exists c0', c1'. auto.
    + destruct (isInt (TypeOf ct1)); intros [= <- <-].
      * split; [left; reflexivity|].
        exists c0', c1. auto using sameShape_refl.
      * split; [right; right; eauto|].
        exists c0', c1. auto using sameShape_refl.
  - intros [= <- <-]. split; [right; left; eauto|].
    exists c0', c1. auto using sameShape_refl.
Qed.

Lemma comparison_errors (n : node) (e : error) :
  comparison n = Some (Some e) ->
  (exists s0 s1, e = EMismatched s0 s1)
  \/ (exists a s, e = ECmpNotDefined a s).
Proof.
  unfold comparison, ret.
  destruct (child n) as [|c0 [|c1 rest]]; try discriminate.
  destruct (typ c0) as [t0|]; [|discriminate].
  destruct (typ c1) as [t1|]; [|discriminate].
  destruct (negb (assignableTo t0 t1) && negb (assignableTo t1 t0)).
  - intros [= <-]. left. eauto.
  - match goal with
    | |- context [if negb ?b then _ else _] => destruct b
    end; cbn [negb]; [discriminate|].
    intros [= <-]. right. eauto.
Qed.

(** The base operator the binary checker works with. *)
Lemma binaryExpr_nonshift (n c0 c1 : node) (rest : list node) :
  child n = c0 :: c1 :: rest ->
  isShiftAction (if isAssignAction (act n) then decr (act n) else act n)
  = false ->
  exists e0 c0' e1 c1',
    convertUntyped c0 (typ c1) = Some (e0, c0')
    /\ convertUntyped c1 (typ c0') = Some (e1, c1')
    /\ sameShape c0 c0' /\ sameShape c1 c1'
    /\ binaryExpr n =
       let a := if isAssignAction (act n) then decr (act n) else act n in
       let n' := set_child n (c0' :: c1' :: rest) in
       if isComparisonAction a then
         e <- comparison n' ;; ret (e, n')
       else
         ct0 <- typ c0' ;;
         ct1 <- typ c1' ;;
         if negb (equals ct0 ct1) then
           ret (Some (EMismatched (id ct0) (id ct1)), n')
         else
           e <- op binaryOpPredicates a n' c0' (TypeOf ct0) ;;
           match e with
           | Some err => ret (Some err, n')
           | None =>
               match act n with
               | aQuo | aRem =>
                   if (untyped ct0 || isInt (TypeOf ct0)) && untyped ct1 then
                     match rval c1' with
                     | RConst c =>
                         s <- Sign c ;;
                         if s =? 0 then ret (Some EDivByZero, n')
                         else ret (None, n')
                     | _ => None
                     end
                   else ret (None, n')
               | _ => ret (None, n')
               end
           end.
Proof.
  intros Hc Hs.
  destruct (convertUntyped_total c0 (typ c1)) as (e0 & c0' & H0 & _).
  destruct (convertUntyped_total c1 (typ c0')) as (e1 & c1' & H1 & _).
  exists e0, c0', e1, c1'.
  split; [exact H0|]. split; [exact H1|].
  split; [exact (convertUntyped_same_shape _ _ H0)|].
  split; [exact (convertUntyped_same_shape _ _ H1)|].
  unfold binaryExpr. rewrite Hc, Hs, H0. cbn [snd]. rewrite H1. reflexivity.
Qed.

(** What [binaryExpr] can return: the node it leaves, and for each
    diagnostic the path that produced it. *)
Lemma binaryExpr_inv (n n' c0 c1 : node) (rest : list node)
    (e : option error) :
  child n = c0 :: c1 :: rest -> binaryExpr n = Some (e, n') ->
  let a := if isAssignAction (act n) then decr (act n) else act n in
  exists c0' c1',
    n' = set_child n (c0' :: c1' :: rest)
    /\ sameShape c0 c0' /\ sameShape c1 c1'
    /\ match e with
       | None => True
       | Some (EShiftOfType _) | Some (EShiftCount _) =>
           isShiftAction a = true
       | Some (ECmpNotDefined _ _) =>
           isShiftAction a = false /\ isComparisonAction a = true
       | Some (EMismatched _ _) => isShiftAction a = false
       | Some (EOpNotDefined _ _) =>
           isShiftAction a = false /\ isComparisonAction a = false
           /\ binaryOpPredicates a <> None
       | Some (EUnknownOp _) =>
           isShiftAction a = false /\ isComparisonAction a = false
           /\ binaryOpPredicates a = None
       | Some EDivByZero =>
           (act n = aQuo \/ act n = aRem)
           /\ exists t0 t1 c,
                typ c0' = Some t0 /\ typ c1' = Some t1
                /\ (untyped t0 = true \/ isInt (TypeOf t0) = true)
                /\ untyped t1 = true
                /\ rval c1' = RConst c /\ Sign c = Some 0
       | Some _ => False
       end.
Proof.
  intros Hc H a.
  destruct (isShiftAction a) eqn:Hs.
  - assert (Hsh : binaryExpr n = shift n).
    { unfold binaryExpr. rewrite Hc. fold a. rewrite Hs. reflexivity. }
    rewrite Hsh in H.
    destruct (shift_inv n Hc H) as (He & c0' & c1' & Hn & Hs0 & Hs1).
    exists c0', c1'. repeat (split; [assumption|]).
    destruct He as [-> | [[s ->] | [s ->]]]; auto.
  - destruct (binaryExpr_nonshift n Hc Hs)
      as (e0 & c0' & e1 & c1' & _ & _ & Hs0 & Hs1 & Heq).
    exists c0', c1'. rewrite Heq in H. cbv zeta in H. fold a in H.
    unfold ret in H.
    destruct (isComparisonAction a) eqn:Hcmp.
    + destruct (comparison (set_child n (c0' :: c1' :: rest)))
        as [ec|] eqn:Hcomp; [|discriminate H].
      injection H as <- <-. repeat (split; [reflexivity || assumption|]).
      destruct ec as [err|]; [|exact I].
      destruct (comparison_errors _ Hcomp) as [(s0 & s1 & ->) | (a' & s & ->)];
        auto.
    + destruct (typ c0') as [ct0|] eqn:Ht0; [|discriminate H].
      destruct (typ c1') as [ct1|] eqn:Ht1; [|discriminate H].
      destruct (negb (equals ct0 ct1)).
      { injection H as <- <-. repeat (split; [reflexivity || assumption|]).
        reflexivity. }
      unfold op, ret in H. rewrite Ht0 in H.
      destruct (binaryOpPredicates a) as [pred|] eqn:Hp.
      2:{ injection H as <- <-. repeat (split; [reflexivity || assumption|]).
          auto. }
      destruct (negb (pred (TypeOf ct0))).
      { injection H as <- <-. repeat (split; [reflexivity || assumption|]).
        repeat split; congruence. }
      assert (Hplain : Some (@None error, set_child n (c0' :: c1' :: rest))
                       = Some (e, n') ->
              n' = set_child n (c0' :: c1' :: rest)
              /\ sameShape c0 c0' /\ sameShape c1 c1'
              /\ match e with
                 | None => True
                 | Some (EShiftOfType _) | Some (EShiftCount _) =>
                     false = true
                 | Some (ECmpNotDefined _ _) => false = false /\ false = true
                 | Some (EMismatched _ _) => false = false
                 | Some (EOpNotDefined _ _) =>
                     false = false /\ false = false /\ Some pred <> None
                 | Some (EUnknownOp _) =>
                     false = false /\ false = false /\ Some pred = None
                 | Some EDivByZero =>
                     (act n = aQuo \/ act n = aRem)
                     /\ exists t0 t1 c,
                          Some ct0 = Some t0 /\ Some ct1 = Some t1
                          /\ (untyped t0 = true \/ isInt (TypeOf t0) = true)
                          /\ untyped t1 = true
                          /\ rval c1' = RConst c /\ Sign c = Some 0
                 | Some _ => False
                 end).
      { intros [= <- <-]. repeat (split; [reflexivity || assumption|]).
        exact I. }
      assert (Hzero : act n = aQuo \/ act n = aRem ->
              (if (untyped ct0 || isInt (TypeOf ct0)) && untyped ct1
               then match rval c1' with
                    | RConst c =>
                        s <- Sign c ;;
                        (if s =? 0
                         then Some (Some EDivByZero,
                                    set_child n (c0' :: c1' :: rest))
                         else Some (None, set_child n (c0' :: c1' :: rest)))
                    | _ => None
                    end
               else Some (None, set_child n (c0' :: c1' :: rest)))
              = Some (e, n') ->
              n' = set_child n (c0' :: c1' :: rest)
              /\ sameShape c0 c0' /\ sameShape c1 c1'
              /\ match e with
                 | None => True
                 | Some (EShiftOfType _) | Some (EShiftCount _) =>
                     false = true
                 | Some (ECmpNotDefined _ _) => false = false /\ false = true
                 | Some (EMismatched _ _) => false = false
                 | Some (EOpNotDefined _ _) =>
                     false = false /\ false = false /\ Some pred <> None
                 | Some (EUnknownOp _) =>
                     false = false /\ false = false /\ Some pred = None
                 | Some EDivByZero =>
                     (act n = aQuo \/ act n = aRem)
                     /\ exists t0 t1 c,
                          Some ct0 = Some t0 /\ Some ct1 = Some t1
                          /\ (untyped t0 = true \/ isInt (TypeOf t0) = true)
                          /\ untyped t1 = true
                          /\ rval c1' = RConst c /\ Sign c = Some 0
                 | Some _ => False
                 end).
      { intros Hact.
        destruct (untyped ct0 || isInt (TypeOf ct0)) eqn:Hd; cbn [andb];
          [|exact Hplain].
        destruct (untyped ct1) eqn:Hu1; [|exact Hplain].
        destruct (rval c1') as [| c | v] eqn:Hr; try discriminate.
        destruct (Sign c) as [s|] eqn:Hsg; [|discriminate].
        destruct (Z.eqb_spec s 0) as [-> | Hne]; [|exact Hplain].
        intros [= <- <-]. repeat (split; [reflexivity || assumption|]).
        exists ct0, ct1, c.
        apply (proj1 (Bool.orb_true_iff _ _)) in Hd.
        repeat (split; [reflexivity || assumption|]). exact Hsg. }
      destruct (act n) eqn:Hact;
        first [apply Hplain; exact H | apply Hzero; [auto | exact H]].
Qed.

(** The binary checker, shifts included, assigns to the type and
    constant-value slots of its two operands only: it returns [n] with the
    same fields and the same children, each child with the same form tag,
    action, parent, children and arity counts. *)
Theorem binaryExpr_frame (n n' c0 c1 : node) (rest : list node)
    (e : option error) :
  child n = c0 :: c1 :: rest -> binaryExpr n = Some (e, n') ->
  exists c0' c1',
    n' = set_child n (c0' :: c1' :: rest)
    /\ sameShape c0 c0' /\ sameShape c1 c1'.
Proof.
  intros Hc H.
  destruct (binaryExpr_inv n Hc H) as (c0' & c1' & Hn & Hs0 & Hs1 & _).
  exists c0', c1'. auto.
Qed.

(** The diagnostics of the binary checker.  A shift diagnostic comes from
    a shift operator only, "operator not defined" on a comparison from a
    comparison operator only; the diagnostics of the coercion of the
    operands (cannot convert, truncated, overflows) are never returned; and
    "division by zero" is returned only for [/] and [%] themselves, not
    their compound assignments, on a divisor that is still untyped after
    the coercion and holds a constant of sign zero, with a dividend that is
    untyped or of integer type. *)
Theorem binaryExpr_diagnostics (n n' c0 c1 : node) (rest : list node)
    (e : error) :
  child n = c0 :: c1 :: rest -> binaryExpr n = Some (Some e, n') ->
  let a := if isAssignAction (act n) then decr (act n) else act n in
  match e with
  | EShiftOfType _ | EShiftCount _ => isShiftAction a = true
  | ECmpNotDefined _ _ =>
      isShiftAction a = false /\ isComparisonAction a = true
  | EMismatched _ _ => isShiftAction a = false
  | EOpNotDefined _ _ =>
      isShiftAction a = false /\ isComparisonAction a = false
      /\ binaryOpPredicates a <> None
  | EUnknownOp _ =>
      isShiftAction a = false /\ isComparisonAction a = false
      /\ binaryOpPredicates a = None
  | EDivByZero =>
      (act n = aQuo \/ act n = aRem)
      /\ exists c0' c1' t0 t1 c,
           child n' = c0' :: c1' :: rest
           /\ typ c0' = Some t0 /\ typ c1' = Some t1
           /\ (untyped t0 = true \/ isInt (TypeOf t0) = true)
           /\ untyped t1 = true
           /\ rval c1' = RConst c /\ Sign c = Some 0
  | _ => False
  end.
Proof.
  intros Hc H a.
  destruct (binaryExpr_inv n Hc H) as (c0' & c1' & Hn & _ & _ & He).
  fold a in He. destruct e; try exact He.
  destruct He as (Hact & t0 & t1 & c & H0 & H1 & Hd & Hu & Hr & Hs).
  split; [exact Hact|]. exists c0', c1', t0, t1, c.
  subst n'. repeat (split; [reflexivity || assumption|]). exact Hs.
Qed.

Lemma set_child_same (n : node) (l : list node) :
  child n = l -> set_child n l = n.
Proof. intros <-. destruct n; reflexivity. Qed.

Lemma Kind_ord_inj (a b : Kind) : Kind_ord a = Kind_ord b -> a = b.
Proof. destruct a, b; simpl; intros H; try reflexivity; discriminate H. Qed.

(** On operands that both have a concrete type, an arithmetic, bitwise or
    logical operator (or its compound assignment) changes nothing in the
    node, and is accepted exactly when the two types are equal and the
    predicate of the base operator holds of the left operand's backing
    type; no zero test is made on a typed divisor. *)
Theorem binaryExpr_typed_operands (n c0 c1 : node) (rest : list node)
    (t0 t1 : itype) :
  child n = c0 :: c1 :: rest ->
  typ c0 = Some t0 -> typ c1 = Some t1 ->
  untyped t0 = false -> untyped t1 = false ->
  let a := if isAssignAction (act n) then decr (act n) else act n in
  isShiftAction a = false -> isComparisonAction a = false ->
  exists e,
    binaryExpr n = Some (e, n)
    /\ (e = None <->
        equals t0 t1 = true
        /\ exists pred, binaryOpPredicates a = Some pred
                        /\ pred (TypeOf t0) = true).
Proof.
  intros Hc H0 H1 Hu0 Hu1 a Hs Hcmp.
  assert (Hc0 : convertUntyped c0 (typ c1) = Some (None, c0)).
  { unfold convertUntyped. rewrite H0, H1, Hu0. reflexivity. }
  assert (Hc1 : convertUntyped c1 (typ c0) = Some (None, c1)).
  { unfold convertUntyped. rewrite H0, H1, Hu1. reflexivity. }
  unfold binaryExpr. rewrite Hc. fold a. rewrite Hs, Hc0. cbn [snd].
  rewrite Hc1. cbn [snd]. rewrite Hcmp, H0, H1, (set_child_same n Hc).
  unfold op, ret. rewrite H0, Hu1, andb_false_r.
  destruct (equals t0 t1); cbn [negb].
  2:{ eexists. split; [reflexivity|]. split; [discriminate|].
      intros [H _]. discriminate H. }
  destruct (binaryOpPredicates a) as [pred|].
  2:{ eexists. split; [reflexivity|]. split; [discriminate|].
      intros [_ [p [H _]]]. discriminate H. }
  destruct (pred (TypeOf t0)) eqn:Hp; cbn [negb].
  - exists None. split; [destruct (act n); reflexivity|].
    split; [|reflexivity]. intros _. split; [reflexivity|]. eauto.
  - eexists. split; [reflexivity|]. split; [discriminate|].
    intros [_ [p [[= <-] H]]]. congruence.
Qed.

(** The two coercions of the binary checker bring two untyped numeric
    operands to one kind, the wider of the two, whatever the result of the
    check; both stay untyped and keep their constants. *)
Theorem binaryExpr_unifies_untyped (n n' c0 c1 : node) (rest : list node)
    (t0 t1 : itype) (e : option error) :
  child n = c0 :: c1 :: rest ->
  typ c0 = Some t0 -> typ c1 = Some t1 ->
  untyped t0 = true -> untyped t1 = true ->
  isNumber (TypeOf t0) = true -> isNumber (TypeOf t1) = true ->
  isShiftAction (if isAssignAction (act n) then decr (act n) else act n)
  = false ->
  binaryExpr n = Some (e, n') ->
  exists c0' c1' u0 u1,
    child n' = c0' :: c1' :: rest
    /\ typ c0' = Some u0 /\ typ c1' = Some u1
    /\ untyped u0 = true /\ untyped u1 = true
    /\ TypeOf u0 = wider (TypeOf t0) (TypeOf t1)
    /\ TypeOf u1 = wider (TypeOf t0) (TypeOf t1)
    /\ rval c0' = rval c0 /\ rval c1' = rval c1.
Proof.
  intros Hc H0 H1 Hu0 Hu1 Hn0 Hn1 Hs H.
  assert (Hstep : forall m mt ty,
             typ m = Some mt -> untyped mt = true -> untyped ty = true ->
             isNumber (TypeOf mt) = true -> isNumber (TypeOf ty) = true ->
             convertUntyped m (Some ty)
             = Some (None, if Kind_ltb (TypeOf mt) (TypeOf ty)
                           then set_typ m ty else m)).
  { intros m mt ty Hm Hum Hut Hnm Hnt. unfold convertUntyped.
    rewrite Hm, Hum, Hut, Hnm, Hnt. cbn [negb andb].
    destruct (Kind_ltb (TypeOf mt) (TypeOf ty)); reflexivity. }
  destruct (binaryExpr_nonshift n Hc Hs)
    as (e0 & c0' & e1 & c1' & Hc0 & Hc1 & _ & _ & Heq).
  assert (Hnode : n' = set_child n (c0' :: c1' :: rest)).
  { rewrite Heq in H. cbv zeta in H. unfold op, ret in H.
    repeat match type of H with
           | context [match ?x with _ => _ end] =>
               destruct x; try discriminate H
           end;
      injection H as _ <-; reflexivity. }
  subst n'. cbn [child set_child].
  rewrite H1, (Hstep c0 t0 t1 H0 Hu0 Hu1 Hn0 Hn1) in Hc0.
  injection Hc0 as _ <-.
  unfold wider.
  destruct (Kind_ltb (TypeOf t0) (TypeOf t1)) eqn:Hlt.
  - cbn [typ set_typ] in Hc1.
    rewrite (Hstep c1 t1 t1 H1 Hu1 Hu1 Hn1 Hn1) in Hc1.
    assert (Hirr : Kind_ltb (TypeOf t1) (TypeOf t1) = false)
      by (unfold Kind_ltb; apply Nat.ltb_irrefl).
    rewrite Hirr in Hc1. injection Hc1 as _ <-.
    exists (set_typ c0 t1), c1, t1, t1. repeat split; auto.
  - rewrite H0, (Hstep c1 t1 t0 H1 Hu1 Hu0 Hn1 Hn0) in Hc1.
    injection Hc1 as _ <-.
    destruct (Kind_ltb (TypeOf t1) (TypeOf t0)) eqn:Hgt.
    + exists c0, (set_typ c1 t0), t0, t0. repeat split; auto.
    + exists c0, c1, t0, t1. repeat split; auto.
      apply Kind_ord_inj. unfold Kind_ltb in Hlt, Hgt.
      apply Nat.ltb_ge in Hlt, Hgt. lia.
Qed.

End BinaryExtra.

Lemma binaryExpr_frame_witness :
  exists c0' c1',
    binary aAdd (lit untypedFloat (IntV 1)) (lit untypedFloat (FloatV (1 # 2)))
    = set_child
        (binary aAdd (lit untypedInt (IntV 1))
           (lit untypedFloat (FloatV (1 # 2))))
        [c0'; c1']
    /\ sameShape (lit untypedInt (IntV 1)) c0'
    /\ sameShape (lit untypedFloat (FloatV (1 # 2))) c1'.
Proof.
  apply (@binaryExpr_frame specOps
           (binary aAdd (lit untypedInt (IntV 1))
              (lit untypedFloat (FloatV (1 # 2))))
           (binary aAdd (lit untypedFloat (IntV 1))
              (lit untypedFloat (FloatV (1 # 2))))
           (lit untypedInt (IntV 1)) (lit untypedFloat (FloatV (1 # 2))) []
           None); reflexivity.
Defined.

Lemma binaryExpr_diagnostics_witness :
  (aRem = aQuo \/ aRem = aRem)
  /\ exists c0' c1' t0 t1 c,
       child (binary aRem (lit untypedInt (IntV 7)) (lit untypedInt (IntV 0)))
       = [c0'; c1']
       /\ typ c0' = Some t0 /\ typ c1' = Some t1
       /\ (untyped t0 = true \/ isInt (TypeOf t0) = true)
       /\ untyped t1 = true
       /\ rval c1' = RConst c /\ Sign c = Some 0.
Proof.
  apply (@binaryExpr_diagnostics specOps
           (binary aRem (lit untypedInt (IntV 7)) (lit untypedInt (IntV 0)))
           (binary aRem (lit untypedInt (IntV 7)) (lit untypedInt (IntV 0)))
           (lit untypedInt (IntV 7)) (lit untypedInt (IntV 0)) []
           EDivByZero); reflexivity.
Defined.

Lemma binaryExpr_typed_operands_witness :
  exists e,
    binaryExpr (binary aAddAssign (ident tString) (ident tString))
    = Some (e, binary aAddAssign (ident tString) (ident tString))
    /\ (e = None <->
        equals tString tString = true
        /\ exists pred, binaryOpPredicates aAdd = Some pred
                        /\ pred (TypeOf tString) = true).
Proof.
  apply (@binaryExpr_typed_operands specOps
           (binary aAddAssign (ident tString) (ident tString))
           (ident tString) (ident tString) [] tString tString);
    reflexivity.
Defined.

Lemma binaryExpr_unifies_untyped_witness :
  exists c0' c1' u0 u1,
    child (binary aMul (lit untypedFloat (IntV 2))
             (lit untypedFloat (FloatV (1 # 2))))
    = [c0'; c1']
    /\ typ c0' = Some u0 /\ typ c1' = Some u1
    /\ untyped u0 = true /\ untyped u1 = true
    /\ TypeOf u0 = wider (TypeOf untypedInt) (TypeOf untypedFloat)
    /\ TypeOf u1 = wider (TypeOf untypedInt) (TypeOf untypedFloat)
    /\ rval c0' = rval (lit untypedInt (IntV 2))
    /\ rval c1' = rval (lit untypedFloat (FloatV (1 # 2))).
Proof.
  apply (@binaryExpr_unifies_untyped specOps
           (binary aMul (lit untypedInt (IntV 2))
              (lit untypedFloat (FloatV (1 # 2))))
           (binary aMul (lit untypedFloat (IntV 2))
              (lit untypedFloat (FloatV (1 # 2))))
           (lit untypedInt (IntV 2)) (lit untypedFloat (FloatV (1 # 2))) []
           untypedInt untypedFloat None); reflexivity.
Defined.

(** *** Shift counts, compound assignments, accepted assignments *)

Section ShiftExtra.

Context {O : TypeOps}.

(** With a left operand of integer type and an untyped constant as the
    count, the shift is accepted exactly when the count converts to an
    integer from 0 to [2^64 - 1]: a negative or fractional count is
    rejected.  An accepted count becomes the [uint] value of that integer.  ([uintType] is
    taken to be backed by the kind [Uint] and not to be the nil type.) *)
Theorem shift_untyped_count (n c0 c1 : node) (rest : list node)
    (ct0 ct1 : itype) (c : Value) :
  child n = c0 :: c1 :: rest -> typ c0 = Some ct0 -> typ c1 = Some ct1 ->
  untyped ct0 = false -> isInt (TypeOf ct0) = true ->
  untyped ct1 = true -> rval c1 = RConst c ->
  TypeOf uintType = Uint -> isNil uintType = false ->
  (succeeded (shift n) = true <->
   exists z, ToInt c = IntV z /\ 0 <= z <= 2 ^ 64 - 1)
  /\ (forall n', shift n = Some (None, n') ->
      exists z,
        ToInt c = IntV z
        /\ n' = set_child n
                  (c0 :: set_typ (set_rval c1 (RNative (NInt Uint z)))
                           uintType :: rest)).
Proof.
  intros Hc H0 H1 Hu0 Hi0 Hu1 Hr Hk Hnil.
  assert (Hv : untyped ct0 = true -> rval c0 = RConst Unknown).
  { rewrite Hu0. discriminate. }
  pose proof (shift_eq n Hc H0 H1 Hv) as Heq. cbv zeta in Heq.
  rewrite Hu0, Hi0, Hu1 in Heq. cbn [andb orb negb] in Heq.
  assert (Hconv : convertUntyped c1 (Some uintType)
                  = convertTail c1 (EConvType (id ct1) (id uintType))
                      uintType Uint).
  { unfold convertUntyped. rewrite H1, Hu1, Hnil, Hk. reflexivity. }
  assert (Hrep : representableConst c Uint
                 = match ToInt c with
                   | IntV z => (0 <=? z) && (z <=? 2 ^ 64 - 1)
                   | _ => false
                   end).
  { rewrite (@representableConst_int_eq c Uint eq_refl).
    destruct (ToInt c) as [| | | z | | |]; try reflexivity.
    cbn [isSignedKind kindBits]. unfold Uint64Val. cbn [snd].
    destruct ((0 <=? z) && (z <=? 2 ^ 64 - 1)) eqn:E; [|reflexivity].
    apply andb_true_iff in E. rewrite !Z.leb_le in E. cbn [andb].
    apply BitLen_le; lia. }
  destruct (representableConst c Uint) eqn:Hrc.
  - destruct (ToInt c) as [| | | z | | |] eqn:Hc'; try discriminate Hrep.
    symmetry in Hrep. apply andb_true_iff in Hrep. rewrite !Z.leb_le in Hrep.
    assert (Hcc : convertConst (RConst c) Uint
                  = Some (RNative (NInt Uint z), None)).
    { unfold convertConst. rewrite Hc'. unfold Uint64Val. cbn [fst kindBits].
      replace (Z.abs z) with z by lia.
      assert (Hw : wrapU 64 z = z) by (apply wrapU_small; lia).
      destruct (snd (Int64Val z)); rewrite !Hw; reflexivity. }
    unfold convertTail, representable, ret in Hconv.
    rewrite Hr, Hrc, Hcc in Hconv. cbn [negb] in Hconv.
    rewrite Hconv in Heq. cbn [fst snd] in Heq. rewrite Heq.
    split.
    + split; [intros _; exists z; auto | reflexivity].
    + intros n' [= <-]. exists z. auto.
  - assert (Herr : exists err,
               convertUntyped c1 (Some uintType) = Some (Some err, c1)).
    { rewrite Hconv. unfold convertTail, representable, ret.
      rewrite Hr, Hrc, H1. cbn [negb].
      destruct (isNumber (TypeOf ct1) && isNumber Uint);
        [destruct (negb (isInt (TypeOf ct1)) && isInt Uint)|];
        eexists; reflexivity. }
    destruct Herr as [err Herr]. rewrite Herr in Heq. cbn [fst snd] in Heq.
    rewrite Heq. split.
    + split; [discriminate|].
      intros (z & Hz & Hrange). rewrite Hz in Hrep.
      assert (Ht : (0 <=? z) && (z <=? 2 ^ 64 - 1) = true).
      { apply andb_true_iff. rewrite !Z.leb_le. lia. }
      rewrite Ht in Hrep. discriminate Hrep.
    + intros n' H. discriminate H.
Qed.

(** A compound assignment other than [/=] and [%=] is checked as its base
    operator is: on the same operands the two checks both succeed or both
    fail, and leave the same operands. *)
Theorem binaryExpr_compound (n : node) (a : action) :
  isAssignAction a = true -> decr a <> aQuo -> decr a <> aRem ->
  succeeded (binaryExpr (set_act n a))
  = succeeded (binaryExpr (set_act n (decr a)))
  /\ option_map (fun r => child (snd r)) (binaryExpr (set_act n a))
     = option_map (fun r => child (snd r)) (binaryExpr (set_act n (decr a))).
Proof.
  intros Ha Hq Hr.
  destruct a; try discriminate Ha; try (exfalso; apply Hq; reflexivity);
    try (exfalso; apply Hr; reflexivity);
    unfold binaryExpr, shift, op, ret;
    cbn [set_act act child decr isAssignAction isShiftAction
         isComparisonAction binaryOpPredicates set_child];
    repeat match goal with
           | |- context [match ?x with _ => _ end] =>
               lazymatch x with
               | context [match _ with _ => _ end] => fail
               | _ => destruct x
               end
           end;
    split; reflexivity.
Qed.

(** An accepted plain assignment: the source type, after the coercion, is
    assignable to the destination type; [n] is untouched; the destination
    changed at most in its type slot and the source at most in its type and
    constant-value slots. *)
Theorem assignExpr_plain_accepted (n dest src : node) (st : assignState) :
  act n = aAssign -> assignExpr n dest src = Some (None, st) ->
  as_n st = n
  /\ sameShape dest (as_dest st) /\ rval (as_dest st) = rval dest
  /\ sameShape src (as_src st)
  /\ exists s d,
       typ (as_src st) = Some s /\ typ (as_dest st) = Some d
       /\ assignableTo s d = true.
Proof.
  intros Ha. unfold assignExpr, ret. rewrite Ha.
  destruct (anc n) as [ak|]; [|discriminate].
  assert (Hdest : forall d',
             (if negb match ak with constDecl => true | _ => false end
              then dt <- typ dest ;; Some (set_typ dest (defaultType dt))
              else Some dest) = Some d' ->
             sameShape dest d' /\ rval d' = rval dest).
  { intros d'. destruct (negb _).
    - destruct (typ dest); [|discriminate]. intros [= <-].
      split; [repeat split | reflexivity].
    - intros [= <-]. split; [repeat split | reflexivity]. }
  match goal with
  | |- context [match ?m with Some _ => _ | None => None end] =>
      destruct m as [dest'|] eqn:Ed; [|discriminate]
  end.
  destruct (Hdest _ eq_refl) as [Hsd Hrd].
  destruct (typ src) as [s0|] eqn:Hs0; [|discriminate].
  assert (Hsrc : forall r,
             (if untyped s0
              then dt <- typ dest' ;;
                   convertUntyped src
                     (Some (if isNil dt || isInterface dt
                            then defaultType s0 else dt))
              else Some (None, src)) = Some r -> sameShape src (snd r)).
  { intros r. destruct (untyped s0).
    - destruct (typ dest'); [|discriminate]. intros H.
      destruct r as [e' s']. exact (convertUntyped_same_shape _ _ H).
    - intros [= <-]. repeat split. }
  match goal with
  | |- context [match ?m with Some _ => _ | None => None end] =>
      destruct m as [[e' src']|] eqn:Es; [|discriminate]
  end.
  specialize (Hsrc _ eq_refl). cbn [snd] in Hsrc.
  destruct e' as [err|]; [discriminate|].
  destruct (typ src') as [s|] eqn:Hs; [|discriminate].
  destruct (typ dest') as [d|] eqn:Hd; [|discriminate].
  destruct (assignableTo s d) eqn:Hasg; cbn [negb]; [|discriminate].
  intros [= <-]. cbn [as_n as_dest as_src].
  repeat (split; [reflexivity || assumption|]).
  exists s, d. auto.
Qed.

End ShiftExtra.

Lemma shift_untyped_count_witness :
  (succeeded (shift (binary aShl (ident tInt) (lit untypedInt (IntV (-1)))))
   = true
   <-> exists z, ToInt (IntV (-1)) = IntV z /\ 0 <= z <= 2 ^ 64 - 1)
  /\ (forall n',
        shift (binary aShl (ident tInt) (lit untypedInt (IntV (-1))))
        = Some (None, n') ->
        exists z,
          ToInt (IntV (-1)) = IntV z
          /\ n' = set_child
                    (binary aShl (ident tInt) (lit untypedInt (IntV (-1))))
                    [ident tInt;
                     set_typ (set_rval (lit untypedInt (IntV (-1)))
                                (RNative (NInt Uint z))) uintType]).
Proof.
  apply (@shift_untyped_count specOps
           (binary aShl (ident tInt) (lit untypedInt (IntV (-1))))
           (ident tInt) (lit untypedInt (IntV (-1))) []
           tInt untypedInt (IntV (-1))); reflexivity.
Defined.

Lemma binaryExpr_compound_witness :
  succeeded (binaryExpr (set_act (binary aNop (ident tInt) (ident tString))
                           aSubAssign))
  = succeeded (binaryExpr (set_act (binary aNop (ident tInt) (ident tString))
                             (decr aSubAssign)))
  /\ option_map (fun r => child (snd r))
       (binaryExpr (set_act (binary aNop (ident tInt) (ident tString))
                      aSubAssign))
     = option_map (fun r => child (snd r))
         (binaryExpr (set_act (binary aNop (ident tInt) (ident tString))
                        (decr aSubAssign))).
Proof.
  apply (@binaryExpr_compound specOps
           (binary aNop (ident tInt) (ident tString)) aSubAssign);
    [reflexivity | discriminate | discriminate].
Defined.

Lemma assignExpr_plain_accepted_witness :
  as_n (mkAssign (assign varDecl) (ident tIface)
          (set_typ (set_rval (lit untypedInt (IntV 5))
                      (RNative (NInt Int 5))) tInt))
  = assign varDecl
  /\ sameShape (ident tIface) (ident tIface)
  /\ rval (ident tIface) = rval (ident tIface)
  /\ sameShape (lit untypedInt (IntV 5))
       (set_typ (set_rval (lit untypedInt (IntV 5))
                   (RNative (NInt Int 5))) tInt)
  /\ exists s d,
       typ (set_typ (set_rval (lit untypedInt (IntV 5))
                       (RNative (NInt Int 5))) tInt) = Some s
       /\ typ (ident tIface) = Some d
       /\ assignableTo s d = true.
Proof.
  apply (@assignExpr_plain_accepted specOps (assign varDecl) (ident tIface)
           (lit untypedInt (IntV 5))
           (mkAssign (assign varDecl) (ident tIface)
              (set_typ (set_rval (lit untypedInt (IntV 5))
                          (RNative (NInt Int 5))) tInt)));
    reflexivity.
Defined.

(** *** Integer constants in float and complex types *)

Lemma BitLen_lower (m k : Z) :
  0 <= k -> k < BitLen m -> 2 ^ k <= Z.abs m.
Proof.
  intros Hk H. unfold BitLen in H.
  destruct (Z.eqb_spec m 0) as [->|Hm]; [lia|].
  assert (Ha : 0 < Z.abs m) by lia.
  pose proof (Z.log2_spec _ Ha) as [Hlo _].
  apply Z.le_trans with (2 := Hlo). apply Z.pow_le_mono_r; lia.
Qed.

(** What [roundTo] does to a mantissa: nothing, or the exponent grows, at
    least [p] bits are kept and the magnitude moves by less than one unit
    of the new last place. *)
Lemma roundTo_spec (p : Z) (away : bool) (m e m' e' : Z) :
  0 < p ->
  roundTo p away m e = (m', e') ->
  (m' = m /\ e' = e)
  \/ (e < e' /\ 2 ^ (p - 1) <= Z.abs m'
      /\ Z.abs m <= (Z.abs m' + 1) * 2 ^ (e' - e)).
Proof.
  intros Hp. unfold roundTo.
  destruct (Z.leb_spec (BitLen m - p) 0) as [Hk|Hk].
  - intros [= <- <-]. left. split; reflexivity.
  - intros [= <- <-]. right.
    set (k := BitLen m - p) in *.
    assert (Hpow : 0 < 2 ^ k) by (apply Z.pow_pos_nonneg; lia).
    assert (Hlow : 2 ^ (p - 1 + k) <= Z.abs m).
    { apply BitLen_lower; unfold k; lia. }
    assert (Hm : m <> 0) by (intros ->; simpl in Hlow;
                             pose proof (Z.pow_pos_nonneg 2 (p - 1 + k)); lia).
    pose proof (Z.div_mod (Z.abs m) (2 ^ k) ltac:(lia)) as Hdm.
    pose proof (Z.mod_pos_bound (Z.abs m) (2 ^ k) Hpow) as Hr.
    set (d := Z.abs m / 2 ^ k) in *. set (r := Z.abs m mod 2 ^ k) in *.
    assert (Hd : 2 ^ (p - 1) <= d).
    { unfold d. apply Z.div_le_lower_bound; [lia|].
      rewrite <- Z.pow_add_r by lia. replace (k + (p - 1)) with (p - 1 + k) by lia.
      exact Hlow. }
    assert (Hd0 : 0 <= d) by (pose proof (Z.pow_pos_nonneg 2 (p - 1)); lia).
    replace (e + k - e) with k by lia.
    assert (Habs : forall x, 0 <= x -> Z.abs (Z.sgn m * x) = x).
    { intros x Hx. rewrite Z.abs_mul, (Z.abs_eq x) by exact Hx.
      assert (Hs : Z.abs (Z.sgn m) = 1) by lia. rewrite Hs. lia. }
    split; [lia|].
    destruct (away && negb (r =? 0)); rewrite Habs by lia; split; nia.
Qed.

Lemma bigQ_abs_le (m e y : Z) :
  (if 0 <=? e then Z.abs (m * 2 ^ e) <= y
   else Z.abs m <= y * 2 ^ (- e)) ->
  (Qabs (bigQ m e) <= inject_Z y)%Q.
Proof.
  unfold bigQ. destruct (Z.leb_spec 0 e) as [He|He]; intros H.
  - change (Qabs (inject_Z (m * 2 ^ e))) with (inject_Z (Z.abs (m * 2 ^ e))).
    rewrite <- Zle_Qle. exact H.
  - assert (Hpow : 0 < 2 ^ (- e)) by (apply Z.pow_pos_nonneg; lia).
    unfold Qle. cbn [Qabs Qnum Qden inject_Z].
    rewrite Z2Pos.id by exact Hpow. lia.
Qed.

Lemma bigInt_exact (m e : Z) :
  e < 0 -> bigIsInt m e = true -> m = bigInt m e * 2 ^ (- e).
Proof.
  intros He. unfold bigIsInt, bigInt.
  destruct (Z.leb_spec 0 e) as [?|_]; [lia|]. cbn [orb].
  intros H. apply Z.eqb_eq in H.
  assert (Hpow : 0 < 2 ^ (- e)) by (apply Z.pow_pos_nonneg; lia).
  pose proof (Z.div_mod m (2 ^ (- e)) ltac:(lia)). lia.
Qed.

(** The integer [ToInt] gives for a [floatVal] is within one of its
    value, when it is below [2^507]. *)
Lemma bigToInt_bound (m e x : Z) :
  bigToInt m e = IntV x -> Z.abs x < 2 ^ 507 ->
  (Qabs (bigQ m e) <= inject_Z (Z.abs x + 1))%Q.
Proof.
  unfold bigToInt. destruct (smallFloat m e); [|discriminate].
  destruct (bigIsInt m e) eqn:Hi.
  - intros [= <-] _. apply bigQ_abs_le.
    destruct (Z.leb_spec 0 e) as [He|He].
    + unfold bigInt. destruct (Z.leb_spec 0 e); lia.
    + rewrite (@bigInt_exact m e He Hi) at 1.
      rewrite Z.abs_mul.
      assert (Hpow : 0 < 2 ^ (- e)) by (apply Z.pow_pos_nonneg; lia).
      rewrite (Z.abs_eq (2 ^ (- e))) by lia. nia.
  - assert (He : e < 0).
    { unfold bigIsInt in Hi. destruct (Z.leb_spec 0 e); [discriminate Hi|lia]. }
    assert (Hgen : forall away m' e',
               roundTo 508 away m e = (m', e') ->
               bigIsInt m' e' = true -> Z.abs (bigInt m' e') < 2 ^ 507 ->
               (Qabs (bigQ m e) <= inject_Z (Z.abs (bigInt m' e') + 1))%Q).
    { intros away m' e' Hr Hi' Hx.
      assert (H508 : 0 < 508) by lia.
      destruct (@roundTo_spec 508 away m e m' e' H508 Hr)
        as [[-> ->]|(He' & Hm' & Hle)].
      - rewrite Hi in Hi'. discriminate Hi'.
      - change (508 - 1) with 507 in Hm'.
        destruct (Z.leb_spec 0 e') as [Hp|Hn].
        + exfalso. unfold bigInt in Hx.
          destruct (Z.leb_spec 0 e'); [|lia].
          rewrite Z.abs_mul in Hx.
          assert (Hpow : 0 < 2 ^ e') by (apply Z.pow_pos_nonneg; lia).
          rewrite (Z.abs_eq (2 ^ e')) in Hx by lia. nia.
        + apply bigQ_abs_le. destruct (Z.leb_spec 0 e); [lia|].
          pose proof (@bigInt_exact m' e' Hn Hi') as Hex.
          set (x' := bigInt m' e') in *.
          assert (Hp1 : 0 < 2 ^ (- e')) by (apply Z.pow_pos_nonneg; lia).
          assert (Hp2 : 0 < 2 ^ (e' - e)) by (apply Z.pow_pos_nonneg; lia).
          assert (Hsplit : 2 ^ (- e) = 2 ^ (- e') * 2 ^ (e' - e)).
          { rewrite <- Z.pow_add_r by lia. f_equal. lia. }
          assert (Hm'abs : Z.abs m' = Z.abs x' * 2 ^ (- e')).
          { rewrite Hex, Z.abs_mul, (Z.abs_eq (2 ^ (- e'))) by lia. reflexivity. }
          rewrite Hsplit. rewrite Hm'abs in Hle. nia. }
    destruct (roundTo 508 false m e) as [m1 e1] eqn:H1.
    destruct (bigIsInt m1 e1) eqn:Hi1.
    + intros [= <-] Hx. apply (Hgen false m1 e1 H1 Hi1 Hx).
    + destruct (roundTo 508 true m e) as [m2 e2] eqn:H2.
      destruct (bigIsInt m2 e2) eqn:Hi2; [|discriminate].
      intros [= <-] Hx. apply (Hgen true m2 e2 H2 Hi2 Hx).
Qed.

Lemma isInf32_le (q : Q) (y : Z) :
  (Qabs q <= inject_Z y)%Q -> y < 2 ^ 128 - 2 ^ 103 -> isInf32 q = false.
Proof.
  intros Hq Hy. unfold isInf32.
  destruct (Qle_bool (inject_Z (2 ^ 128 - 2 ^ 103)) (Qabs q)) eqn:E;
    [|reflexivity].
  exfalso. apply Qle_bool_iff in E.
  pose proof (Qle_trans _ _ _ E Hq) as H.
  rewrite <- Zle_Qle in H. lia.
Qed.

Lemma isInf32_small (q : Q) (x : Z) :
  q == inject_Z x -> Z.abs x < 2 ^ 64 -> isInf32 q = false.
Proof.
  intros Hqe Hx. apply (@isInf32_le q (Z.abs x)).
  - rewrite Hqe.
    change (Qabs (inject_Z x)) with (inject_Z (Z.abs x)). apply Qle_refl.
  - assert (2 ^ 64 < 2 ^ 128 - 2 ^ 103) by (vm_compute; reflexivity).
    lia.
Qed.

Lemma isInf32_zero (q : Q) : Qnum q = 0 -> isInf32 q = false.
Proof.
  intros H. apply (@isInf32_small q 0).
  - unfold Qeq. simpl. rewrite H. reflexivity.
  - simpl. lia.
Qed.

Lemma ratToInt_Qeq (q : Q) (x : Z) :
  ratToInt q = IntV x -> q == inject_Z x.
Proof.
  intros H. rewrite <- (Qred_correct q).
  unfold ratToInt in H. destruct (Qred q) as [nu de]. cbn [Qden Qnum] in H.
  destruct (Z.eqb_spec (Z.pos de) 1) as [E|_]; [|discriminate H].
  destruct (smallInt nu); [|discriminate H].
  injection H as <-. injection E as ->. reflexivity.
Qed.

Lemma bigToInt_isInf32 (m e x : Z) :
  bigToInt m e = IntV x -> Z.abs x < 2 ^ 64 -> isInf32 (bigQ m e) = false.
Proof.
  intros H Hx. apply (@isInf32_le _ (Z.abs x + 1)).
  - apply (bigToInt_bound _ _ H).
    apply Z.lt_trans with (1 := Hx). apply Z.pow_lt_mono_r; lia.
  - assert (2 ^ 64 + 1 < 2 ^ 128 - 2 ^ 103) by (vm_compute; reflexivity).
    lia.
Qed.

(** A constant representable in an integer kind is representable in every
    float and complex kind: the widest integer is far below the float32
    range. *)
Theorem representableConst_int_to_float (c : Value) (t t' : rtype) :
  isInt t = true -> isFloat t' || isComplex t' = true ->
  representableConst c t = true -> representableConst c t' = true.
Proof.
  intros Ht Ht' Hr.
  rewrite (@representableConst_int_eq c t Ht) in Hr.
  destruct (ToInt c) as [| | | x | | |] eqn:Hc; try discriminate Hr.
  apply andb_true_iff in Hr. destruct Hr as [_ Hlen].
  pose proof (kindBits_pos t) as Hk.
  assert (Hsm : smallInt x = true).
  { unfold smallInt, maxExp. apply Z.ltb_lt. apply Z.leb_le in Hlen. lia. }
  rewrite (@BitLen_le x (kindBits t)) in Hlen by lia.
  assert (Hx : Z.abs x < 2 ^ 64).
  { apply Z.lt_le_trans with (1 := Hlen). apply Z.pow_le_mono_r; lia. }
  assert (Hparts : kindOf (ToFloat c) = KFloat
             /\ isInf32 (floatQ (ToFloat c)) = false
             /\ exists re im, ToComplex c = ComplexV re im
                  /\ isInf32 re = false /\ isInf32 im = false).
  { destruct c as [| b | s | z | q | m e | re im]; simpl in Hc;
      try discriminate Hc.
    - injection Hc as ->. cbn [ToFloat ToComplex]. rewrite Hsm.
      cbn [kindOf floatQ].
      assert (Hi : isInf32 (inject_Z x) = false)
        by (apply (@isInf32_small _ x); [reflexivity | exact Hx]).
      split; [reflexivity|]. split; [exact Hi|].
      exists (inject_Z x), 0%Q. repeat split. exact Hi.
    - cbn [ToFloat ToComplex kindOf floatQ].
      assert (Hi : isInf32 q = false)
        by (apply (@isInf32_small _ x); [apply ratToInt_Qeq, Hc | exact Hx]).
      split; [reflexivity|]. split; [exact Hi|].
      exists q, 0%Q. repeat split. exact Hi.
    - cbn [ToFloat ToComplex kindOf floatQ].
      pose proof (bigToInt_isInf32 _ _ Hc Hx) as Hi.
      split; [reflexivity|]. split; [exact Hi|].
      exists (bigQ m e), 0%Q. repeat split. exact Hi.
    - destruct (Qis_zero im) eqn:Him; [|discriminate Hc].
      cbn [ToFloat ToComplex]. rewrite Him. cbn [kindOf floatQ].
      assert (Hi : isInf32 re = false)
        by (apply (@isInf32_small _ x); [apply ratToInt_Qeq, Hc | exact Hx]).
      split; [reflexivity|]. split; [exact Hi|].
      exists re, im. repeat split.
      + exact Hi.
      + apply isInf32_zero. apply Z.eqb_eq, Him. }
  destruct Hparts as (Hk' & Hf & re & im & Hcx & Hre & Him).
  pose proof (isInf32_false_isInf64 _ Hf) as Hf64.
  pose proof (isInf32_false_isInf64 _ Hre) as Hre64.
  pose proof (isInf32_false_isInf64 _ Him) as Him64.
  unfold representableConst.
  destruct t'; try discriminate Ht'; simpl; rewrite ?Hk', ?Hcx;
    rewrite ?Hf, ?Hf64, ?Hre, ?Him, ?Hre64, ?Him64; reflexivity.
Qed.

Lemma representableConst_int_to_float_witness :
  representableConst (ComplexV (255 # 1) 0) Complex64 = true.
Proof.
  apply (@representableConst_int_to_float (ComplexV (255 # 1) 0) Uint8
           Complex64); reflexivity.
Defined.

Section MismatchExtra.

Context {O : TypeOps}.

(** A constant operand, left or right, that does not fit the concrete
    numeric, string or boolean type of the other operand is not reported as
    such: the diagnostic of the coercion is dropped, the operand keeps its
    untyped type, and the arithmetic check fails with "mismatched types",
    naming the left type first, when the two types differ; the node is
    left as it was. *)
Theorem binaryExpr_unrepresentable_operand (n c0 c1 : node)
    (rest : list node) (t0 t1 : itype) (c : Value) :
  child n = c0 :: c1 :: rest ->
  typ c0 = Some t0 -> typ c1 = Some t1 ->
  (untyped t0 = false /\ untyped t1 = true /\ rval c1 = RConst c
   /\ isNil t0 && isNil t1 = false
   /\ isNumber (TypeOf t0) || isString (TypeOf t0) || isBoolean (TypeOf t0)
      = true
   /\ representableConst c (TypeOf t0) = false)
  \/ (untyped t0 = true /\ untyped t1 = false /\ rval c0 = RConst c
      /\ isNil t1 && isNil t0 = false
      /\ isNumber (TypeOf t1) || isString (TypeOf t1)
         || isBoolean (TypeOf t1) = true
      /\ representableConst c (TypeOf t1) = false) ->
  equals t0 t1 = false ->
  let a := if isAssignAction (act n) then decr (act n) else act n in
  isShiftAction a = false -> isComparisonAction a = false ->
  binaryExpr n = Some (Some (EMismatched (id t0) (id t1)), n).
Proof.
  intros Hc H0 H1 Hside Heq a Hs Hcmp.
  assert (Hfail : forall (u k : node) (tu tk : itype),
             typ u = Some tu -> typ k = Some tk ->
             untyped tk = false -> untyped tu = true -> rval u = RConst c ->
             isNil tk && isNil tu = false ->
             isNumber (TypeOf tk) || isString (TypeOf tk)
             || isBoolean (TypeOf tk) = true ->
             representableConst c (TypeOf tk) = false ->
             exists err, convertUntyped u (typ k) = Some (Some err, u)).
  { intros u k tu tk Hu Hk Hutk Hutu Hr Hnil Hb Hrep.
    unfold convertUntyped. rewrite Hu, Hk, Hutu, Hutk, Hnil, Hb. cbn [negb].
    unfold convertTail, representable, ret. rewrite Hr, Hrep, Hu. cbn [negb].
    destruct (isNumber (TypeOf tu) && isNumber (TypeOf tk));
      [destruct (negb (isInt (TypeOf tu)) && isInt (TypeOf tk))|];
      eexists; reflexivity. }
  assert (Hkeep : forall (u : node) (tu : itype) (ty : option itype),
             typ u = Some tu -> untyped tu = false ->
             convertUntyped u ty = Some (None, u)).
  { intros u tu ty Hu Hut. unfold convertUntyped. rewrite Hu, Hut.
    destruct ty; reflexivity. }
  unfold binaryExpr. rewrite Hc. fold a. rewrite Hs.
  destruct Hside as [(Hu0 & Hu1 & Hr & Hnil & Hk & Hrep)
                    | (Hu0 & Hu1 & Hr & Hnil & Hk & Hrep)].
  - rewrite (Hkeep c0 t0 (typ c1) H0 Hu0). cbn [snd].
    destruct (Hfail c1 c0 t1 t0 H1 H0 Hu0 Hu1 Hr Hnil Hk Hrep) as [err Hc1].
    rewrite Hc1. cbn [snd].
    rewrite Hcmp, H0, H1, Heq, (set_child_same n Hc). reflexivity.
  - destruct (Hfail c0 c1 t0 t1 H0 H1 Hu1 Hu0 Hr Hnil Hk Hrep) as [err Hc0].
    rewrite Hc0. cbn [snd].
    rewrite (Hkeep c1 t1 (typ c0) H1 Hu1). cbn [snd].
    rewrite Hcmp, H0, H1, Heq, (set_child_same n Hc). reflexivity.
Qed.

End MismatchExtra.

(** [x + 1000] with [x] an [int8]: "mismatched types int8 and int";
    [1000 + x]: "mismatched types int and int8". *)
Lemma binaryExpr_unrepresentable_operand_witness :
  binaryExpr (binary aAdd (ident tInt8) (lit untypedInt (IntV 1000)))
  = Some (Some (EMismatched (id tInt8) (id untypedInt)),
          binary aAdd (ident tInt8) (lit untypedInt (IntV 1000)))
  /\ binaryExpr (binary aAdd (lit untypedInt (IntV 1000)) (ident tInt8))
     = Some (Some (EMismatched (id untypedInt) (id tInt8)),
             binary aAdd (lit untypedInt (IntV 1000)) (ident tInt8)).
Proof.
  split.
  - apply (@binaryExpr_unrepresentable_operand specOps
             (binary aAdd (ident tInt8) (lit untypedInt (IntV 1000)))
             (ident tInt8) (lit untypedInt (IntV 1000)) []
             tInt8 untypedInt (IntV 1000)); try reflexivity.
    left. repeat split.
  - apply (@binaryExpr_unrepresentable_operand specOps
             (binary aAdd (lit untypedInt (IntV 1000)) (ident tInt8))
             (lit untypedInt (IntV 1000)) (ident tInt8) []
             untypedInt tInt8 (IntV 1000)); try reflexivity.
    right. repeat split.
Defined.

Section PayloadExtra.

Context {O : TypeOps}.

(** An untyped node that carries no constant (an invalid or an already
    native value) is coerced to a concrete numeric, string or boolean type
    without any check: the representability test and the conversion are
    both skipped, and the node simply takes the target type. *)
Theorem convertUntyped_without_constant (n : node) (nt ty : itype) :
  typ n = Some nt -> untyped nt = true -> untyped ty = false ->
  (forall c, rval n <> RConst c) ->
  isNil ty && isNil nt = false ->
  isNumber (TypeOf ty) || isString (TypeOf ty) || isBoolean (TypeOf ty)
  = true ->
  convertUntyped n (Some ty) = Some (None, set_typ n ty).
Proof.
  intros Hn Hu Ht Hr Hnil Hk.
  unfold convertUntyped. rewrite Hn, Hu, Ht, Hnil, Hk. cbn [negb].
  unfold convertTail, representable, convertConst, ret.
  destruct (rval n) as [| c | v] eqn:E.
  - destruct n; simpl in *; subst; reflexivity.
  - exfalso. exact (Hr c eq_refl).
  - destruct n; simpl in *; subst; reflexivity.
Qed.

End PayloadExtra.

(** The identifier [nil], which holds no constant, coerced toward [int]
    becomes an [int]. *)
Lemma convertUntyped_without_constant_witness :
  convertUntyped (ident untypedNil) (Some tInt)
  = Some (None, set_typ (ident untypedNil) tInt).
Proof.
  apply (@convertUntyped_without_constant specOps (ident untypedNil)
           untypedNil tInt); try reflexivity.
  intros c. discriminate.
Defined.
